(** * gdrive-dir-push: a shallow embedding of the reconciler and of the
      local tree builder, with the properties of the design document.

    The Go program pushes a local directory into a Google Drive folder.
    [directory_tree.NewTree] scans the local directory into a tree of nodes,
    [processNode] walks that tree and, level by level, lists the remote
    folder, matches the local children by name and creates folders, uploads
    files or moves superseded files into the folder given by
    [--old_files_dir].  Every write goes through [tallyOp], which kills the
    process once more than [--max_gdrive_ops] writes have been counted.

    The code is effectful: a global counter, a remote service, standard
    output, [log.Fatal].  The embedding threads a [World] through a small
    monad whose outcomes tell a returned Go [error] from a process exit. *)

From Stdlib Require Import ZArith Ascii String List Lia Bool.
From stdpp Require Import gmap strings list pretty sorting.

Local Open Scope string_scope.
Local Open Scope list_scope.

(** ** Strings and Go's [path/filepath] on Unix

    The program calls [filepath.Base], [filepath.Dir], [filepath.Ext] and
    [filepath.Rel].  They belong to Go's standard library; they are modelled
    here on slash-separated paths through the list of path elements. *)

Module filepath.

Definition Separator : ascii := "/"%char.

Definition IsPathSeparator (c : ascii) : bool := Ascii.eqb c Separator.

(** The fields of [s] between separators, empty fields included. *)
Fixpoint fields_go (cur : list ascii) (s : list ascii) : list string :=
  match s with
  | [] => [string_of_list_ascii (rev cur)]
  | c :: s' =>
      if IsPathSeparator c
      then string_of_list_ascii (rev cur) :: fields_go [] s'
      else fields_go (c :: cur) s'
  end.

Definition fields (s : string) : list string :=
  fields_go [] (list_ascii_of_string s).

Fixpoint join (l : list string) : string :=
  match l with
  | [] => ""
  | [x] => x
  | x :: l' => x +:+ "/" +:+ join l'
  end.

Definition rooted (s : string) : bool :=
  match s with
  | String c _ => IsPathSeparator c
  | EmptyString => false
  end.

(** One element of [Clean]: [stack] holds the elements kept so far, the
    last one first. *)
Definition clean_step (isRooted : bool) (stack : list string) (elem : string)
  : list string :=
  if String.eqb elem "" || String.eqb elem "." then stack
  else if String.eqb elem ".." then
    match stack with
    | top :: rest => if String.eqb top ".." then elem :: stack else rest
    | [] => if isRooted then [] else [elem]
    end
  else elem :: stack.

Definition elements (s : string) : list string :=
  rev (fold_left (clean_step (rooted s)) (fields s) []).

Definition Clean (s : string) : string :=
  let es := elements s in
  if rooted s then "/" +:+ join es
  else match es with [] => "." | _ => join es end.

(** [path[:i+1]] for the index [i] of the last separator. *)
Fixpoint upto_last_sep (s : list ascii) : list ascii :=
  match s with
  | [] => []
  | c :: s' =>
      match upto_last_sep s' with
      | [] => if IsPathSeparator c then [c] else []
      | r => c :: r
      end
  end.

Definition Dir (path : string) : string :=
  Clean (string_of_list_ascii (upto_last_sep (list_ascii_of_string path))).

Fixpoint drop_seps (s : list ascii) : list ascii :=
  match s with
  | c :: s' => if IsPathSeparator c then drop_seps s' else s
  | [] => []
  end.

Fixpoint take_elem (s : list ascii) : list ascii :=
  match s with
  | c :: s' => if IsPathSeparator c then [] else c :: take_elem s'
  | [] => []
  end.

Definition Base (path : string) : string :=
  match path with
  | EmptyString => "."
  | _ =>
      let stripped := drop_seps (rev (list_ascii_of_string path)) in
      match rev (take_elem stripped) with
      | [] => "/"
      | l => string_of_list_ascii l
      end
  end.

(** The suffix of the last element that starts at its last dot. *)
Fixpoint ext_go (s : list ascii) : option (list ascii) :=
  match s with
  | [] => None
  | c :: s' =>
      if IsPathSeparator c then ext_go s'
      else match ext_go s' with
           | Some e => Some e
           | None =>
               if existsb IsPathSeparator s' then None
               else if Ascii.eqb c "."%char then Some s else None
           end
  end.

Definition Ext (path : string) : string :=
  match ext_go (list_ascii_of_string path) with
  | Some e => string_of_list_ascii e
  | None => ""
  end.

Fixpoint strip_common (b t : list string) : list string * list string :=
  match b, t with
  | x :: b', y :: t' => if String.eqb x y then strip_common b' t' else (b, t)
  | _, _ => (b, t)
  end.

(** [Rel] fails ([None]) when one path is rooted and the other is not, or
    when the base would have to be left through [".."]. *)
Definition Rel (basepath targpath : string) : option string :=
  let base := Clean basepath in
  let targ := Clean targpath in
  if String.eqb targ base then Some "."
  else if negb (Bool.eqb (rooted base) (rooted targ)) then None
  else
    let '(b, t) := strip_common (elements base) (elements targ) in
    match b with
    | [] => Some (join t)
    | x :: _ =>
        if String.eqb x ".." then None
        else Some (join (map (fun _ => "..") b ++ t))
    end.

End filepath.

(** ** Data model *)

(** [directory_tree.FileInfo]; the mode bits and the modification time are
    kept as numbers. *)
Record FileInfo := mkFileInfo {
  Name : string;
  Size : Z;
  Mode : Z;
  ModTime : Z;
  IsDir : bool
}.

(** [directory_tree.Node] as the reconciler walks it: the tree of [Children].
    [Parent] is a back-reference that only [NewTree] writes; the module
    [directory_tree] below keeps it, in an arena of nodes. *)
#[local] Unset Elimination Schemes.
Inductive Node := mkNode {
  FullPath : string;
  Info : FileInfo;
  Children : list Node;
  DriveID : string
}.
#[local] Set Elimination Schemes.

(** The fields of [drive.File] that the program reads or writes. *)
Record File := mkFile {
  Id : string;
  Title : string;
  MimeType : string
}.

Definition folderMimeType : string := "application/vnd.google-apps.folder".

(** The command-line flags ([flag.String], [flag.Int], [flag.Bool]). *)
Record Flags := mkFlags {
  gDriveRootID : string;
  localDirToPush : string;
  oldFilesDir : string;
  maxOps : Z;
  verbose : bool
}.

(** *** The remote service

    The Drive service is outside the repository.  It is modelled as an
    in-memory store with the four calls the program issues: a registry of
    files (folders included), the parent links, and a supply of identifiers.
    [faults] lists the calls (numbered from 0) that the service fails, and
    [pageSize] is the number of entries per page of a listing (0: one page). *)
Record Drive := mkDrive {
  files : list File;
  links : list (string * string);      (* parent identifier, child identifier *)
  nextId : nat;
  calls : nat;
  faults : list nat;
  pageSize : nat
}.

Inductive ApiCall :=
| FilesList (parentID : string) (page : nat)
| FilesInsert (title mimeType parentID : string) (media : option string)
| ParentsInsert (fileID parentID : string)
| ParentsDelete (fileID parentID : string).

(** The steps of the process that the properties talk about, in the order
    they happen. *)
Inductive Event :=
| Stdout (s : string)                     (* fmt.Printf, always issued *)
| Debug (fn : string) (args : list string) (* fmt.Printf under --verbose *)
| Log (s : string)                        (* log.Fatal, log.Fatalf *)
| Tally (n : Z)                           (* tallyOp counted a write *)
| Remote (c : ApiCall) (ok : bool)        (* a call to the Drive service *)
| OsOpen (path : string) (ok : bool)      (* os.Open *)
| Assign (path : string) (id : string).   (* a write to a node's DriveID *)

Record World := mkWorld {
  flags : Flags;
  opsExecuted : Z;                 (* the global counter *)
  drv : Drive;
  unreadable : list string;        (* paths that os.Open fails on *)
  mimeTypes : list (string * string);  (* the system's extension table *)
  trace : list Event               (* oldest event first *)
}.

(** Go's [int] is 64 bits wide here; [opsExecuted++] wraps around. *)
Definition int_min : Z := - 2 ^ 63.
Definition int_max : Z := 2 ^ 63 - 1.
Definition wrap_int (z : Z) : Z := (z + 2 ^ 63) mod 2 ^ 64 - 2 ^ 63.

(** ** Outcomes and the monad

    [Err] is a Go [error] handed back to the caller; [Fatal] is [log.Fatal]
    (the process exits with status 1); [Panic] is a run-time panic (status
    2).  After [Fatal] and [Panic] nothing else runs. *)
Inductive Outcome (A : Type) :=
| Ok (a : A) (w : World)
| Err (e : string) (w : World)
| Fatal (msg : string) (w : World)
| Panic (msg : string) (w : World).

Arguments Ok {A} a w.
Arguments Err {A} e w.
Arguments Fatal {A} msg w.
Arguments Panic {A} msg w.

Definition M (A : Type) : Type := World -> Outcome A.

Definition ret {A} (a : A) : M A := fun w => Ok a w.

Definition bind {A B} (m : M A) (k : A -> M B) : M B :=
  fun w =>
    match m w with
    | Ok a w' => k a w'
    | Err e w' => Err e w'
    | Fatal msg w' => Fatal msg w'
    | Panic msg w' => Panic msg w'
    end.

Notation "x <- m ;; k" := (bind m (fun x => k))
  (at level 100, m at next level, right associativity).
Notation "m ;;; k" := (bind m (fun _ => k))
  (at level 100, right associativity).

Definition throw {A} (e : string) : M A := fun w => Err e w.

(** [if err != nil { return fmt.Errorf(prefix, err) }] around a call. *)
Definition wrapErr {A} (f : string -> string) (m : M A) : M A :=
  fun w =>
    match m w with
    | Err e w' => Err (f e) w'
    | o => o
    end.

Definition final_world {A} (o : Outcome A) : World :=
  match o with
  | Ok _ w | Err _ w | Fatal _ w | Panic _ w => w
  end.

Definition withTrace (w : World) (t : list Event) : World :=
  mkWorld (flags w) (opsExecuted w) (drv w) (unreadable w) (mimeTypes w) t.

Definition withFlags (w : World) (f : Flags) : World :=
  mkWorld f (opsExecuted w) (drv w) (unreadable w) (mimeTypes w) (trace w).

Definition withOps (w : World) (n : Z) : World :=
  mkWorld (flags w) n (drv w) (unreadable w) (mimeTypes w) (trace w).

Definition withDrv (w : World) (d : Drive) : World :=
  mkWorld (flags w) (opsExecuted w) d (unreadable w) (mimeTypes w) (trace w).

Definition emit (e : Event) : M unit :=
  fun w => Ok tt (withTrace w (trace w ++ [e])).

Definition getFlags : M Flags := fun w => Ok (flags w) w.

Definition setFlags (f : Flags) : M unit := fun w => Ok tt (withFlags w f).

Definition setOps (n : Z) : M unit := fun w => Ok tt (withOps w n).

Definition setDrv (d : Drive) : M unit := fun w => Ok tt (withDrv w d).

(** [log.Fatalf]: the message goes to the log, the process exits. *)
Definition fatal {A} (msg : string) : M A :=
  fun w => Fatal msg (withTrace w (trace w ++ [Log msg])).

Definition printf (s : string) : M unit := emit (Stdout s).

Definition debugf (fn : string) (args : list string) : M unit :=
  fl <- getFlags ;;
  if verbose fl then emit (Debug fn args) else ret tt.

(** ** The operation governor *)

(** [tallyOp]: count the write, then exit if the count went over
    [--max_gdrive_ops]. *)
Definition tallyOp : M unit :=
  fun w =>
    let n := wrap_int (opsExecuted w + 1) in
    (setOps n ;;;
     emit (Tally n) ;;;
     fl <- getFlags ;;
     if Z.ltb (maxOps fl) n
     then fatal ("Oops, --max_gdrive_ops reached (" +:+ pretty n +:+
                 ") exiting")
     else ret tt) w.

(** ** The Drive service (in-memory model) *)

(** Identifiers minted by the service: a sharp sign and a running number.
    Identifiers chosen by the user (the root folder, the folder for old
    files) are expected not to look like that. *)
Definition id_of (k : nat) : string := String "#"%char (pretty k).

Definition generated (s : string) : bool :=
  match s with
  | String c _ => Ascii.eqb c "#"%char
  | EmptyString => false
  end.

Definition lookupFile (d : Drive) (id : string) : option File :=
  find (fun f => String.eqb (Id f) id) (files d).

(** The listing of a folder: its links in the order they were made. *)
Definition childrenOf (d : Drive) (parentID : string) : list File :=
  flat_map (fun l : string * string =>
              if String.eqb (fst l) parentID
              then match lookupFile d (snd l) with
                   | Some f => [f]
                   | None => []
                   end
              else [])
           (links d).

Definition hasLink (d : Drive) (parentID fileID : string) : bool :=
  existsb (fun l : string * string =>
             String.eqb (fst l) parentID && String.eqb (snd l) fileID)
          (links d).

Fixpoint chunk_go {A} (size room : nat) (cur : list A) (l : list A)
  : list (list A) :=
  match l with
  | [] => [rev cur]
  | x :: l' =>
      match room with
      | O => rev cur :: chunk_go size (Nat.pred size) [x] l'
      | S r => chunk_go size r (x :: cur) l'
      end
  end.

(** The pages of a listing; there is always a first page. *)
Definition pagesOf {A} (size : nat) (l : list A) : list (list A) :=
  match size with
  | O => [l]
  | S _ => chunk_go size size [] l
  end.

Definition withCalls (d : Drive) (n : nat) : Drive :=
  mkDrive (files d) (links d) (nextId d) n (faults d) (pageSize d).

(** The store after one more call, and whether the service fails the call
    that comes next. *)
Definition tick (d : Drive) : Drive := withCalls d (S (calls d)).

Definition faulty (d : Drive) : bool :=
  existsb (Nat.eqb (calls d)) (faults d).

Definition is_inr {A B} (r : A + B) : bool :=
  match r with inr _ => true | inl _ => false end.

(** One round trip: the call is numbered, fails if the service is set to
    fail it, and otherwise runs [run] on the store.  The result is Go's
    pair of a value and an [error]. *)
Definition apiCall {A} (c : ApiCall) (run : Drive -> (string + A) * Drive)
  : M (string + A) :=
  fun w =>
    if faulty (drv w)
    then (emit (Remote c false) ;;; setDrv (tick (drv w)) ;;;
          ret (inl "service unavailable")) w
    else
      let '(r, d1) := run (tick (drv w)) in
      (emit (Remote c (is_inr r)) ;;; setDrv d1 ;;; ret r) w.

(** The store with a new file under a parent. *)
Definition addFile (d : Drive) (f : File) (parentID : string) : Drive :=
  mkDrive (files d ++ [f]) (links d ++ [(parentID, Id f)]) (S (nextId d))
          (calls d) (faults d) (pageSize d).

Definition addLink (d : Drive) (parentID fileID : string) : Drive :=
  mkDrive (files d) (links d ++ [(parentID, fileID)]) (nextId d)
          (calls d) (faults d) (pageSize d).

Definition removeLink (d : Drive) (parentID fileID : string) : Drive :=
  mkDrive (files d)
          (List.filter (fun l : string * string =>
                          negb (String.eqb (fst l) parentID
                                && String.eqb (snd l) fileID))
                       (links d))
          (nextId d) (calls d) (faults d) (pageSize d).

(** [Files.Insert(f).Do()], with or without media: the service mints the
    identifier of the new file. *)
Definition Files_Insert (title mimeType parentID : string)
  (media : option string) : M (string + string) :=
  apiCall (FilesInsert title mimeType parentID media)
    (fun d =>
       let id := id_of (nextId d) in
       (inr id, addFile d (mkFile id title mimeType) parentID)).

(** [Parents.Insert(fileID, parentRef).Do()]: the file must exist; a link
    that is already there is left alone. *)
Definition Parents_Insert (fileID parentID : string) : M (string + unit) :=
  apiCall (ParentsInsert fileID parentID)
    (fun d =>
       match lookupFile d fileID with
       | None => (inl ("File not found: " +:+ fileID), d)
       | Some _ =>
           if hasLink d parentID fileID then (inr tt, d)
           else (inr tt, addLink d parentID fileID)
       end).

(** [Parents.Delete(fileID, parentID).Do()]: the link must exist. *)
Definition Parents_Delete (fileID parentID : string) : M (string + unit) :=
  apiCall (ParentsDelete fileID parentID)
    (fun d =>
       if hasLink d parentID fileID
       then (inr tt, removeLink d parentID fileID)
       else (inl ("Parent not found: " +:+ parentID), d)).

(** One page of [Files.List().Q(query)]. *)
Definition Files_List (parentID : string) (page : nat) (items : list File)
  : M (string + list File) :=
  apiCall (FilesList parentID page) (fun d => (inr items, d)).

(** ** The remote hierarchy adapter ([pusher]) *)

Definition nl : string := String (ascii_of_nat 10) EmptyString.
Definition dquote : string := String (ascii_of_nat 34) EmptyString.

Definition backslash : string := String (ascii_of_nat 92) EmptyString.

(** [%q] is [strconv.Quote] of Go's standard library: the string between
    double quotes, a backslash before every double quote and backslash,
    the escapes [\a \b \f \n \r \t \v] for these control characters and
    [\x] with two hexadecimal digits for the other ones.  What Go does with
    0x7f and from 0x80 on (it decodes UTF-8 and escapes the characters
    [unicode.IsPrint] refuses) rests on tables and on the release, and is
    not modelled: here 0x7f is written [\x7f] and the bytes from 0x80 on
    are kept, as Go keeps the encoding of a printable character.  The
    model is Go's function on strings of bytes below 0x7f. *)
Definition lowerhex (n : nat) : string :=
  match nth_error (list_ascii_of_string "0123456789abcdef") n with
  | Some c => String c EmptyString
  | None => ""
  end.

Definition appendEscapedRune (c : ascii) : string :=
  let r := nat_of_ascii c in
  if Nat.eqb r 34 || Nat.eqb r 92 then backslash +:+ String c EmptyString
  else if (Nat.leb 32 r && Nat.ltb r 127) || Nat.leb 128 r
  then String c EmptyString
  else if Nat.eqb r 7 then backslash +:+ "a"
  else if Nat.eqb r 8 then backslash +:+ "b"
  else if Nat.eqb r 12 then backslash +:+ "f"
  else if Nat.eqb r 10 then backslash +:+ "n"
  else if Nat.eqb r 13 then backslash +:+ "r"
  else if Nat.eqb r 9 then backslash +:+ "t"
  else if Nat.eqb r 11 then backslash +:+ "v"
  else backslash +:+ "x" +:+ lowerhex (r / 16) +:+ lowerhex (r mod 16).

Fixpoint escaped (s : string) : string :=
  match s with
  | EmptyString => EmptyString
  | String c s' => appendEscapedRune c +:+ escaped s'
  end.

Definition quoted (s : string) : string := dquote +:+ escaped s +:+ dquote.

(** The loop of [listFolder]: one call per page, until the service hands
    out no further page token. *)
Fixpoint listPages (parentID : string) (page : nat) (pages : list (list File))
  (filesAcc : list File) : M (list File) :=
  match pages with
  | [] => ret filesAcc
  | items :: rest =>
      r <- Files_List parentID page items ;;
      match r with
      | inl err => throw ("Unable to list files: " +:+ err)
      | inr got => listPages parentID (S page) rest (filesAcc ++ got)
      end
  end.

Definition listFolder (parentID : string) : M (list File) :=
  debugf "listFolder" [parentID] ;;;
  fun w =>
    listPages parentID 0
      (pagesOf (pageSize (drv w)) (childrenOf (drv w) parentID)) [] w.

Definition createFolder (title parentID : string) : M string :=
  tallyOp ;;;
  debugf "createFolder" [title; parentID] ;;;
  r <- Files_Insert title folderMimeType parentID None ;;
  match r with
  | inl err => throw ("Problem creating new GDrive folder: " +:+ err)
  | inr id => ret id
  end.

Definition relocateFile (fileID oldParentID : string) : M unit :=
  tallyOp ;;;
  debugf "relocateFile" [fileID; oldParentID] ;;;
  fl <- getFlags ;;
  r <- Parents_Insert fileID (oldFilesDir fl) ;;
  match r with
  | inl err => throw ("An Insert() error occurred: " +:+ err)
  | inr _ =>
      r' <- Parents_Delete fileID oldParentID ;;
      match r' with
      | inl err => throw ("A Delete() error occurred: " +:+ err)
      | inr _ => ret tt
      end
  end.

(** [os.Open]: fails on the paths the world marks unreadable. *)
Definition os_Open (path : string) : M bool :=
  fun w =>
    let ok := negb (existsb (String.eqb path) (unreadable w)) in
    (emit (OsOpen path ok) ;;; ret ok) w.

(** [mime.TypeByExtension]: the system table, empty when unknown. *)
Definition TypeByExtension (table : list (string * string)) (ext : string)
  : string :=
  match find (fun e : string * string => String.eqb (fst e) ext) table with
  | Some e => snd e
  | None => ""
  end.

Definition createFile (localFile : Node) (parentID : string) : M string :=
  tallyOp ;;;
  debugf "createFile" [FullPath localFile; parentID] ;;;
  opened <- os_Open (FullPath localFile) ;;
  if negb opened
  then fatal ("open " +:+ FullPath localFile +:+ ": cannot open")
  else
    let title := filepath.Base (FullPath localFile) in
    fun w =>
      let mimeType := TypeByExtension (mimeTypes w) (filepath.Ext title) in
      (r <- Files_Insert title mimeType parentID (Some (FullPath localFile)) ;;
       match r with
       | inl err =>
           throw ("An error occurred uploading the file: " +:+ err +:+ nl)
       | inr id => ret id
       end) w.

(** ** The reconciler *)

(** [humanize.Bytes] belongs to the go-humanize library.  Below 10 it
    prints the number and the unit [B]; from there on it scales by powers of
    1000, rounds to the nearest tenth, and prints one decimal below 10 and
    none from 10 on ([%.0f] rounds halves to even).  The library computes in
    floating point; the model computes the same in exact arithmetic. *)
Definition humanize_sizes : list string :=
  ["B"; "kB"; "MB"; "GB"; "TB"; "PB"; "EB"].

Fixpoint humanize_scale (fuel : nat) (s unit : Z) (e : nat) : Z * nat :=
  match fuel with
  | O => (unit, e)
  | S fuel' =>
      if Z.ltb s (unit * 1000) then (unit, e)
      else humanize_scale fuel' s (unit * 1000)%Z (S e)
  end.

Definition humanize_Bytes (s : Z) : string :=
  if Z.ltb s 10 then pretty s +:+ " B"
  else
    let '(unit, e) := humanize_scale 6 s 1%Z 0%nat in
    let suffix := nth e humanize_sizes "" in
    let tenths := ((20 * s + unit) / (2 * unit))%Z in
    let q := (tenths / 10)%Z in
    let r := (tenths mod 10)%Z in
    if Z.ltb tenths 100
    then pretty q +:+ "." +:+ pretty r +:+ " " +:+ suffix
    else
      let up := Z.ltb 5 r || (Z.eqb r 5 && Z.odd q) in
      pretty (if up then (q + 1)%Z else q) +:+ " " +:+ suffix.

(** [uint64(x)] of an [int64]. *)
Definition uint64 (z : Z) : Z := (z mod 2 ^ 64)%Z.

(** The first remote item whose title is the local name (the inner loop of
    [processNode], with its [break]). *)
Definition findRemote (remoteItems : list File) (name : string)
  : option File :=
  find (fun remoteItem => String.eqb (Title remoteItem) name) remoteItems.

Definition withDriveID (n : Node) (id : string) : Node :=
  mkNode (FullPath n) (Info n) (Children n) id.

Definition assign (localItem : Node) (id : string) : M unit :=
  emit (Assign (FullPath localItem) id).

(** The body of the loop of [processNode] for one child [localItem] of the
    node whose remote identifier is [nodeID].  [recur id] is the recursive
    call on [localItem] once its [DriveID] is [id].  The result is the
    child with its [DriveID] (and its descendants') filled in. *)
Definition processItem (remoteItems : list File) (nodeID : string)
  (localItem : Node) (recur : string -> M Node) : M Node :=
  fl <- getFlags ;;
  match filepath.Rel (localDirToPush fl) (FullPath localItem) with
  | None => fatal "Could not determine relative path: Rel: can't make relative"
  | Some relName =>
      let m := findRemote remoteItems (Name (Info localItem)) in
      let found := match m with Some _ => true | None => false end in
      let matched := match m with
                     | Some remoteItem => Id remoteItem
                     | None => DriveID localItem
                     end in
      (if found then assign localItem matched else ret tt) ;;;
      if IsDir (Info localItem) then
        (* Handle folders *)
        id <- (if negb found then
                 newID <- wrapErr
                   (fun err => "Problem creating GDrive folder " +:+
                               quoted relName +:+ ": " +:+ err)
                   (createFolder (Name (Info localItem)) nodeID) ;;
                 assign localItem newID ;;;
                 ret newID
               else ret matched) ;;
        let statusPrefix := if negb found then "+" else " " in
        printf (statusPrefix +:+ " /" +:+ relName +:+ "/" +:+ nl) ;;;
        (* Recursively handle directories (but print status first) *)
        recur id
      else
        (* Handle files *)
        let statusPrefix := if found then "M" else "+" in
        (if found then
           wrapErr
             (fun err => "Problem relocating GDrive file " +:+
                         quoted relName +:+ ": " +:+ err)
             (relocateFile matched nodeID)
         else ret tt) ;;;
        newID <- wrapErr
          (fun err => "Problem creating Gdrive file " +:+
                      quoted relName +:+ ": " +:+ err)
          (createFile localItem nodeID) ;;
        assign localItem newID ;;;
        printf (statusPrefix +:+ " /" +:+ relName +:+ " (" +:+
                humanize_Bytes (uint64 (Size (Info localItem))) +:+ ")" +:+
                nl) ;;;
        ret (withDriveID localItem newID)
  end.

(** [for _, localItem := range items], the loop body being [body]; the
    first failure ends the loop. *)
Definition eachItem (body : Node -> M Node) : list Node -> M (list Node) :=
  fix each (items : list Node) : M (list Node) :=
    match items with
    | [] => ret []
    | localItem :: rest =>
        localItem' <- body localItem ;;
        rest' <- each rest ;;
        ret (localItem' :: rest')
    end.

(** [processNode] on [node] whose [DriveID] field holds [nodeID]. *)
Fixpoint processNode (node : Node) (nodeID : string) {struct node} : M Node :=
  debugf "processNode" [FullPath node] ;;;
  remoteItems <- wrapErr
    (fun err => "Problem listing GDrive folder: " +:+ err)
    (listFolder nodeID) ;;
  children <- eachItem
    (fun localItem =>
       processItem remoteItems nodeID localItem (processNode localItem))
    (Children node) ;;
  ret (mkNode (FullPath node) (Info node) children nodeID).

(** ** The local tree builder ([directory_tree]) *)

(** What [filepath.Walk] hands to the walk function at one path. *)
Record Visit := mkVisit {
  vPath : string;
  vInfo : FileInfo;
  vErr : option string
}.

(** What the process gets from the operating system and the Go run time. *)
Record OS := mkOS {
  os_Abs : string -> string + string;   (* filepath.Abs: error or path *)
  os_Walk : string -> list Visit;       (* the visits of filepath.Walk *)
  os_mapRank : string -> nat;           (* decides the order of a map range *)
  os_driveClient : option string;       (* the error of drive.New, if any *)
  os_now : string;                      (* time.Now(), printed *)
  os_elapsed : string                   (* time.Since(start), printed *)
}.

Module directory_tree.

(** The Go struct with its pointers.  The nodes live in the map [parents]
    under their path, one node per path, so a [*Node] is the path of the
    node it points to; [None] is [nil]. *)
Record Node := mkNode {
  FullPath : string;
  Info : FileInfo;
  Children : list string;
  Parent : option string;
  DriveID : string
}.

Record Result := mkResult {
  result : option string;
  err : option string;
  heap : gmap string Node
}.

(** The walk function: the error of the visit is handed back (and stops
    the walk), otherwise a node is stored under the path. *)
Fixpoint walk (visits : list Visit) (parents : gmap string Node)
  : string + gmap string Node :=
  match visits with
  | [] => inr parents
  | v :: rest =>
      match vErr v with
      | Some e => inl e
      | None =>
          walk rest (<[vPath v := mkNode (vPath v) (vInfo v) [] None ""]>
                       parents)
      end
  end.

Definition setParent (p : string) (n : Node) : Node :=
  mkNode (FullPath n) (Info n) (Children n) (Some p) (DriveID n).

Definition addChild (c : string) (n : Node) : Node :=
  mkNode (FullPath n) (Info n) (Children n ++ [c]) (Parent n) (DriveID n).

(** The body of [for path, node := range parents]. *)
Definition link (st : gmap string Node * option string) (path : string)
  : gmap string Node * option string :=
  let parentPath := filepath.Dir path in
  match fst st !! parentPath with
  | None => (fst st, Some path)   (* no parent: this is the root *)
  | Some _ =>
      (alter (addChild path) parentPath (alter (setParent parentPath) path
                                               (fst st)),
       snd st)
  end.

(** The order in which the range over the map meets the keys: Go leaves
    it open; here the keys come sorted by a rank the run time picks. *)
Definition rankLe (rank : string -> nat) (a b : string) : Prop :=
  (rank a <= rank b)%nat.

#[export] Instance rankLe_dec (rank : string -> nat) (a b : string)
  : Decision (rankLe rank a b).
Proof. unfold rankLe. apply _. Defined.

Definition rangeOrder (rank : string -> nat) (parents : gmap string Node)
  : list string :=
  merge_sort (rankLe rank) (map fst (map_to_list parents)).

Definition NewTree (os : OS) (root : string) : Result :=
  match os_Abs os root with
  | inl e => mkResult None (Some e) ∅
  | inr absRoot =>
      match walk (os_Walk os absRoot) ∅ with
      | inl e => mkResult None (Some e) ∅
      | inr parents =>
          let st := fold_left link (rangeOrder (os_mapRank os) parents)
                              (parents, None) in
          mkResult (snd st) None (fst st)
      end
  end.

End directory_tree.

(** The tree below a pointer, as a walk along [Children] sees it.  [None]
    when the walk does not end within [fuel] levels or meets a dangling
    pointer. *)
Fixpoint reify (fuel : nat) (h : gmap string directory_tree.Node)
  (ptr : string) : option Node :=
  match fuel with
  | O => None
  | S fuel' =>
      match h !! ptr with
      | None => None
      | Some n =>
          match mapM (reify fuel' h) (directory_tree.Children n) with
          | None => None
          | Some children =>
              Some (mkNode (directory_tree.FullPath n)
                           (directory_tree.Info n) children
                           (directory_tree.DriveID n))
          end
      end
  end.

(** ** The process *)

Definition panic {A} (msg : string) : M A := fun w => Panic msg w.

(** An [error] that reaches [main] ends in [log.Fatalf]. *)
Definition orFatal {A} (f : string -> string) (m : M A) : M A :=
  fun w =>
    match m w with
    | Err e w' => fatal (f e) w'
    | o => o
    end.

Definition withLocalDir (fl : Flags) (dir : string) : Flags :=
  mkFlags (gDriveRootID fl) dir (oldFilesDir fl) (maxOps fl) (verbose fl).

Definition main (os : OS) : M unit :=
  fl <- getFlags ;;
  if String.eqb (gDriveRootID fl) "" then
    fatal "--gdrive_root_id must be provided"
  else if String.eqb (localDirToPush fl) "" then
    fatal "--local_dir_to_push must be provided"
  else if String.eqb (oldFilesDir fl) "" then
    fatal "--old_files_dir must be provided"
  else
    match os_Abs os (localDirToPush fl) with
    | inl e => fatal ("Could not determine absolute path: " +:+ e)
    | inr absPath =>
        setFlags (withLocalDir fl absPath) ;;;
        printf ("Pushing contents of " +:+ quoted absPath +:+
                " to GDrive folder " +:+ quoted (gDriveRootID fl) +:+
                nl +:+ nl) ;;;
        printf (os_now os +:+ nl) ;;;
        match os_driveClient os with
        | Some e =>
            fatal ("Problem creating Drive client: " +:+
                   "Unable to retrieve drive Client " +:+ e)
        | None =>
            let r := directory_tree.NewTree os absPath in
            match directory_tree.err r with
            | Some e => fatal ("Problem creating directory_tree: " +:+ e)
            | None =>
                match directory_tree.result r with
                | None =>
                    (* tree.DriveID on a nil tree *)
                    panic "invalid memory address or nil pointer dereference"
                | Some ptr =>
                    match reify (S (size (directory_tree.heap r)))
                                (directory_tree.heap r) ptr with
                    | None => panic "stack overflow"
                    | Some tree =>
                        (* Fill in the root node with the provided ID *)
                        assign tree (gDriveRootID fl) ;;;
                        orFatal (fun e => "Problem syncing dir: " +:+ e)
                                (processNode tree (gDriveRootID fl)) ;;;
                        printf ("Took " +:+ os_elapsed os +:+ nl)
                    end
                end
            end
        end
    end.

(** The world when the process starts: nothing counted, nothing printed. *)
Definition startWorld (fl : Flags) (d : Drive) (unreadablePaths : list string)
  (table : list (string * string)) : World :=
  mkWorld fl 0 d unreadablePaths table [].

(** The exit status of the process. *)
Definition exitStatus {A} (o : Outcome A) : Z :=
  match o with
  | Ok _ _ => 0
  | Err _ _ => 1
  | Fatal _ _ => 1
  | Panic _ _ => 2
  end.

(** ** Vocabulary of the properties *)

(** The world after some steps: a new store, a new count, more events. *)
Definition step (w : World) (d : Drive) (n : Z) (evs : list Event) : World :=
  mkWorld (flags w) n d (unreadable w) (mimeTypes w) (trace w ++ evs).

(** The events a run added to the trace. *)
Definition delta (w w' : World) : list Event :=
  drop (length (trace w)) (trace w').

(** The events [fmt.Printf] adds under [--verbose]. *)
Definition dbg (w : World) (fn : string) (args : list string) : list Event :=
  if verbose (flags w) then [Debug fn args] else [].

(** The messages of the two fatal exits of the adapter. *)
Definition tallyMsg (n : Z) : string :=
  "Oops, --max_gdrive_ops reached (" +:+ pretty n +:+ ") exiting".

Definition openMsg (path : string) : string :=
  "open " +:+ path +:+ ": cannot open".

(** The calls that change the store: everything but a listing. *)
Definition isMutation (e : Event) : bool :=
  match e with
  | Remote (FilesList _ _) _ => false
  | Remote _ _ => true
  | _ => false
  end.

Definition isRemote (e : Event) : bool :=
  match e with
  | Remote _ _ => true
  | _ => false
  end.

Definition isDebug (e : Event) : bool :=
  match e with
  | Debug _ _ => true
  | _ => false
  end.

Definition isTally (e : Event) : bool :=
  match e with
  | Tally _ => true
  | _ => false
  end.

Definition mutations (evs : list Event) : list Event := List.filter isMutation evs.

Definition tallies (evs : list Event) : list Event := List.filter isTally evs.

(** The three write operations of the adapter. *)
Inductive WriteOp :=
| OpCreateFolder (title parentID : string)
| OpRelocateFile (fileID oldParentID : string)
| OpCreateFile (localFile : Node) (parentID : string).

Definition runOp (op : WriteOp) : M unit :=
  match op with
  | OpCreateFolder title parentID => createFolder title parentID ;;; ret tt
  | OpRelocateFile fileID oldParentID => relocateFile fileID oldParentID
  | OpCreateFile localFile parentID => createFile localFile parentID ;;; ret tt
  end.

(** Induction on a tree of nodes, with the hypothesis on all children. *)
Fixpoint Node_ind' (P : Node -> Prop)
  (H : forall fp info cs id, Forall P cs -> P (mkNode fp info cs id))
  (n : Node) {struct n} : P n :=
  match n with
  | mkNode fp info cs id =>
      H fp info cs id
        ((fix go (l : list Node) : Forall P l :=
            match l with
            | [] => @List.Forall_nil _ P
            | c :: l' =>
                @List.Forall_cons _ P c l' (Node_ind' P H c) (go l')
            end) cs)
  end.

(** *** The protocol of the operation governor

    A run is read as a word over its events.  The governor is [Idle] between
    write operations.  A [Tally] must carry the successor of the count; it
    arms one write operation when the count stays within the ceiling, and
    otherwise ([Over]) nothing may follow but the fatal log line.  An armed
    operation issues [Files.Insert], or [Parents.Insert] followed at once by
    [Parents.Delete] (the second leg of a relocation, which has no tally of
    its own).  No call that changes the store is accepted in any other
    place.  After a fatal log line the process is [Dead]. *)
Inductive Phase := Idle | Armed | SecondLeg | Over | Dead.

Definition govStep (m : Z) (s : Phase * Z) (e : Event) : option (Phase * Z) :=
  let c := snd s in
  match fst s with
  | Dead => None
  | Over =>
      match e with
      | Log _ => Some (Dead, c)
      | _ => None
      end
  | Idle =>
      match e with
      | Log _ => Some (Dead, c)
      | Tally n =>
          if Z.eqb n (wrap_int (c + 1))
          then Some (if Z.ltb m n then Over else Armed, n)
          else None
      | Remote (FilesList _ _) _ => Some (Idle, c)
      | Remote _ _ => None
      | _ => Some (Idle, c)
      end
  | Armed =>
      match e with
      | Log _ => Some (Dead, c)
      | Tally _ => None
      | Remote (FilesInsert _ _ _ _) _ => Some (Idle, c)
      | Remote (ParentsInsert _ _) ok =>
          Some (if ok then SecondLeg else Idle, c)
      | Remote _ _ => None
      | _ => Some (Armed, c)
      end
  | SecondLeg =>
      match e with
      | Remote (ParentsDelete _ _) _ => Some (Idle, c)
      | _ => None
      end
  end.

Fixpoint govRun (m : Z) (s : Phase * Z) (evs : list Event)
  : option (Phase * Z) :=
  match evs with
  | [] => Some s
  | e :: rest =>
      match govStep m s e with
      | Some s' => govRun m s' rest
      | None => None
      end
  end.

(** A computation keeps to the protocol: from [Idle] and the current count
    its events are accepted; it ends [Idle] when it returns (a value or an
    error) and [Dead] when it exits; the final count is the counter; the
    flags are left alone; it does not panic. *)
Definition governed {A} (c : M A) : Prop :=
  forall w,
    match c w with
    | Panic _ _ => False
    | o =>
        flags (final_world o) = flags w /\
        exists evs,
          trace (final_world o) = trace w ++ evs /\
          govRun (maxOps (flags w)) (Idle, opsExecuted w) evs =
            Some (match o with Fatal _ _ => Dead | _ => Idle end,
                  opsExecuted (final_world o))
    end.

(** Events that are neither calls, nor tallies, nor fatal log lines. *)
Definition quiet (e : Event) : bool :=
  match e with
  | Stdout _ | Debug _ _ | OsOpen _ _ | Assign _ _ => true
  | _ => false
  end.

(** *** Worlds and trees of the end-to-end scenarios *)

Definition dirInfo (name : string) : FileInfo :=
  mkFileInfo name 4096 493 0 true.

Definition fileInfo (name : string) (size : Z) : FileInfo :=
  mkFileInfo name size 420 0 false.

Definition emptyDrive : Drive := mkDrive [] [] 0 0 [] 0.

Definition flagsWith (ceiling : Z) : Flags :=
  mkFlags "root" "/home/u" "old" ceiling false.

Definition osWith (visits : list Visit) : OS :=
  mkOS (fun p => inr p) (fun _ => visits) (fun p => String.length p) None
       "now" "1s".

(** The local tree [a/], [b/] below [/home/u]. *)
Definition twoFolders : list Visit :=
  [mkVisit "/home/u" (dirInfo "u") None;
   mkVisit "/home/u/a" (dirInfo "a") None;
   mkVisit "/home/u/b" (dirInfo "b") None].

(** The local tree [a/], [a/x.txt] (10 bytes) below [/home/u]. *)
Definition folderWithFile : list Visit :=
  [mkVisit "/home/u" (dirInfo "u") None;
   mkVisit "/home/u/a" (dirInfo "a") None;
   mkVisit "/home/u/a/x.txt" (fileInfo "x.txt" 10) None].

Definition xFile : Node :=
  mkNode "/home/u/a/x.txt" (fileInfo "x.txt" 10) [] "".

Definition aFolder : Node := mkNode "/home/u/a" (dirInfo "a") [xFile] "".

Definition uFolder : Node := mkNode "/home/u" (dirInfo "u") [aFolder] "".

(** A remote root that already holds [a/x.txt]. *)
Definition driveWithFile : Drive :=
  mkDrive [mkFile "#0" "a" folderMimeType; mkFile "#1" "x.txt" ""]
          [("root", "#0"); ("#0", "#1")] 2 0 [] 0.

(** The calls to the service among some events, and the calls that went
    through. *)
Definition remoteCalls (evs : list Event) : list ApiCall :=
  flat_map (fun e => match e with Remote c _ => [c] | _ => [] end) evs.

Definition failedCalls (evs : list Event) : list ApiCall :=
  flat_map (fun e => match e with Remote c false => [c] | _ => [] end) evs.

(** The lines the reconciler prints (without the [--verbose] output). *)
Definition stdoutOf (evs : list Event) : list string :=
  flat_map (fun e => match e with Stdout s => [s] | _ => [] end) evs.

(** The relative name [processNode] prints for a node. *)
Definition relNameOf (w : World) (n : Node) : string :=
  match filepath.Rel (localDirToPush (flags w)) (FullPath n) with
  | Some relName => relName
  | None => ""
  end.

(** The upload call of a local file into a folder. *)
Definition uploadCall (w : World) (localFile : Node) (parentID : string)
  : ApiCall :=
  FilesInsert (filepath.Base (FullPath localFile))
    (TypeByExtension (mimeTypes w)
       (filepath.Ext (filepath.Base (FullPath localFile))))
    parentID (Some (FullPath localFile)).

(** *** Statuses and status lines *)

Inductive Status := Created | Modified | Unchanged.

Definition marker (st : Status) : string :=
  match st with
  | Created => "+"
  | Modified => "M"
  | Unchanged => " "
  end.

(** The status of a child, from its kind and from whether its name has a
    remote match (the table of the reconciler). *)
Definition statusOf (isDir found : bool) : Status :=
  if isDir then (if found then Unchanged else Created)
  else (if found then Modified else Created).

(** [<marker> /<relative-path>[/][ (<size>)]] and the end of the line. *)
Definition statusLine (st : Status) (relName : string) (isDir : bool)
  (size : Z) : string :=
  marker st +:+ " /" +:+ relName +:+
  (if isDir then "/" +:+ nl
   else " (" +:+ humanize_Bytes (uint64 size) +:+ ")" +:+ nl).

(** The entries the reconciler meets below a node, in the order it meets
    them: each child, followed (for a directory) by the entries below it. *)
Fixpoint entries (n : Node) : list Node :=
  flat_map (fun c => c :: (if IsDir (Info c) then entries c else []))
           (Children n).

(** *** What a successful run did, entry by entry

    For each entry: the remote item its name matched (if any), the
    identifier its [DriveID] ends up with, and the same for the entries
    below it. *)
#[local] Unset Elimination Schemes.
Inductive Done := mkDone {
  dItem : Node;
  dMatch : option File;
  dNewID : string;
  dBelow : list Done
}.
#[local] Set Elimination Schemes.

Fixpoint Done_ind' (P : Done -> Prop)
  (H : forall c m id below, Forall P below -> P (mkDone c m id below))
  (d : Done) {struct d} : P d :=
  match d with
  | mkDone c m id below =>
      H c m id below
        ((fix go (l : list Done) : Forall P l :=
            match l with
            | [] => @List.Forall_nil _ P
            | x :: l' =>
                @List.Forall_cons _ P x l' (Done_ind' P H x) (go l')
            end) below)
  end.

Definition isSome {A} (o : option A) : bool :=
  match o with Some _ => true | None => false end.

Definition dStatus (d : Done) : Status :=
  statusOf (IsDir (Info (dItem d))) (isSome (dMatch d)).

(** The entries of a result and of a forest of results, in the order of
    the run. *)
Fixpoint flat1 (d : Done) : list Done :=
  d :: flat_map flat1 (dBelow d).

Definition flatten (ds : list Done) : list Done := flat_map flat1 ds.

(** The result fits the local tree: below a directory, one result per
    child; below a file, none. *)
Fixpoint shaped (d : Done) : Prop :=
  if IsDir (Info (dItem d))
  then map dItem (dBelow d) = Children (dItem d) /\
       (fix all (l : list Done) : Prop :=
          match l with
          | [] => True
          | x :: l' => shaped x /\ all l'
          end) (dBelow d)
  else dBelow d = [].

(** The node after the run. *)
Fixpoint rebuild (d : Done) : Node :=
  if IsDir (Info (dItem d))
  then mkNode (FullPath (dItem d)) (Info (dItem d))
              (map rebuild (dBelow d)) (dNewID d)
  else withDriveID (dItem d) (dNewID d).

(** The events of an entry itself, without the tallies, the [--verbose]
    output and the listings: what the loop body does for the child [c] of
    the folder [parentID], given its match [m] and its final identifier. *)
Definition ownEvents (w : World) (parentID : string) (c : Node)
  (m : option File) (newID : string) : list Event :=
  let path := FullPath c in
  let line := statusLine (statusOf (IsDir (Info c)) (isSome m))
                         (relNameOf w c) (IsDir (Info c)) (Size (Info c)) in
  match m with
  | Some r => [Assign path (Id r)]
  | None => []
  end ++
  if IsDir (Info c) then
    match m with
    | None =>
        [Remote (FilesInsert (Name (Info c)) folderMimeType parentID None)
                true;
         Assign path newID]
    | Some _ => []
    end ++ [Stdout line]
  else
    match m with
    | Some r =>
        [Remote (ParentsInsert (Id r) (oldFilesDir (flags w))) true;
         Remote (ParentsDelete (Id r) parentID) true]
    | None => []
    end ++
    [OsOpen path true; Remote (uploadCall w c parentID) true;
     Assign path newID; Stdout line].

(** The events of an entry and of the entries below it. *)
Fixpoint runEvents (w : World) (parentID : string) (d : Done)
  : list Event :=
  ownEvents w parentID (dItem d) (dMatch d) (dNewID d) ++
  flat_map (runEvents w (dNewID d)) (dBelow d).

Definition isNoise (e : Event) : bool :=
  match e with
  | Tally _ | Debug _ _ | Remote (FilesList _ _) _ => true
  | _ => false
  end.

Definition denoise (evs : list Event) : list Event :=
  List.filter (fun e => negb (isNoise e)) evs.

(** A file is known from the world [w]: it was in the store of [w], or the
    service minted its identifier later. *)
Definition knownFile (w : World) (f : File) : Prop :=
  In f (files (drv w)) \/ exists k, Id f = id_of k.

Definition filesKnown (w : World) (d : Drive) : Prop :=
  forall f, In f (files d) -> knownFile w f.

(** Where the final identifier of an entry comes from: a directory with a
    remote match takes over the identifier of the match; every other entry
    gets an identifier the service minted for it.  The match itself is a
    known file. *)
Definition finalID (c : Node) (m : option File) (minted : string) : string :=
  match m with
  | Some r => if IsDir (Info c) then Id r else minted
  | None => minted
  end.

Definition idKnown (w : World) (d : Done) : Prop :=
  (forall r, dMatch d = Some r -> knownFile w r) /\
  exists k, dNewID d = finalID (dItem d) (dMatch d) (id_of k).

(** What a successful run of [processNode] on [n] amounts to. *)
Definition runShape (n : Node) (nodeID : string) (w : World) (n' : Node)
  (w' : World) (ds : list Done) : Prop :=
  map dItem ds = Children n /\
  Forall shaped ds /\
  n' = mkNode (FullPath n) (Info n) (map rebuild ds) nodeID /\
  Forall (idKnown w) (flatten ds) /\
  exists d1 n1 evs,
    w' = step w d1 n1 evs /\
    filesKnown w d1 /\
    (verbose (flags w) = false -> List.filter isDebug evs = []) /\
    denoise evs = flat_map (runEvents w nodeID) ds.

(** *** Writes, by kind *)

Inductive WriteKind := FolderInsert | Upload | ParentAdd | ParentRemove.

Definition writeKind (e : Event) : list WriteKind :=
  match e with
  | Remote (FilesInsert _ _ _ None) _ => [FolderInsert]
  | Remote (FilesInsert _ _ _ (Some _)) _ => [Upload]
  | Remote (ParentsInsert _ _) _ => [ParentAdd]
  | Remote (ParentsDelete _ _) _ => [ParentRemove]
  | _ => []
  end.

Definition writeKinds (evs : list Event) : list WriteKind :=
  flat_map writeKind evs.

(** The writes that go with a status: creating makes one insertion,
    modifying moves the old file away (two calls) and uploads, leaving
    unchanged writes nothing. *)
Definition writesOf (isDir : bool) (st : Status) : list WriteKind :=
  match st with
  | Created => [if isDir then FolderInsert else Upload]
  | Modified => [ParentAdd; ParentRemove; Upload]
  | Unchanged => []
  end.

(** The statuses an entry can have: a directory is created or unchanged, a
    file is created or modified. *)
Definition statusFits (isDir : bool) (st : Status) : bool :=
  match st with
  | Created => true
  | Modified => negb isDir
  | Unchanged => isDir
  end.

Definition lineOf (w : World) (c : Node) (st : Status) : string :=
  statusLine st (relNameOf w c) (IsDir (Info c)) (Size (Info c)).

(** The writes to [DriveID] fields: path of the node, value. *)
Definition assignsOf (evs : list Event) : list (string * string) :=
  flat_map (fun e => match e with Assign p id => [(p, id)] | _ => [] end)
           evs.


(** ** The local tree builder *)

Module dt := directory_tree.

(** The node of [q] after the range has met the paths [done], from the node
    [n] it started as: the children are the paths met whose directory is
    [q]; the parent is set once [q] itself has been met, if its directory
    has a node. *)
Definition linkedNode (h : gmap string dt.Node) (done : list string)
  (q : string) (n : dt.Node) : dt.Node :=
  dt.mkNode (dt.FullPath n) (dt.Info n)
    (dt.Children n ++
     List.filter (fun c => String.eqb (filepath.Dir c) q) done)
    (if existsb (String.eqb q) done && isSome (h !! filepath.Dir q)
     then Some (filepath.Dir q) else dt.Parent n)
    (dt.DriveID n).

(** The result of the range so far: the last path met whose directory has
    no node. *)
Definition noParent (h : gmap string dt.Node) (acc : option string)
  (p : string) : option string :=
  if isSome (h !! filepath.Dir p) then acc else Some p.

(** The nodes as the walk function makes them. *)
Definition freshNodes (m : gmap string dt.Node) : Prop :=
  forall p n, m !! p = Some n -> n = dt.mkNode p (dt.Info n) [] None "".

(** *** Two runs against an empty remote folder *)

(** What [mime.TypeByExtension] finds for a local file in the world [w]. *)
Definition mimeOf (w : World) (c : Node) : string :=
  if IsDir (Info c) then folderMimeType
  else TypeByExtension (mimeTypes w)
         (filepath.Ext (filepath.Base (FullPath c))).

(** The remote file of a local node once the node has its identifier. *)
Definition entryFile (w : World) (c : Node) : File :=
  mkFile (DriveID c) (Name (Info c)) (mimeOf w c).

(** A child and, below a directory, its entries. *)
Definition selfAndBelow (c : Node) : list Node :=
  c :: (if IsDir (Info c) then entries c else []).

Definition span (c : Node) : nat := length (selfAndBelow c).

(** The tree after a first run against empty folders, when the service
    mints its identifiers from [k] on: the entries get them in the order of
    the walk. *)
Fixpoint annotate (k : nat) (c : Node) {struct c} : Node :=
  mkNode (FullPath c) (Info c)
    (if IsDir (Info c)
     then (fix go (j : nat) (cs : list Node) : list Node :=
             match cs with
             | [] => []
             | x :: rest => annotate j x :: go (j + span x)%nat rest
             end) (S k) (Children c)
     else Children c)
    (id_of k).

Fixpoint annotateList (k : nat) (cs : list Node) : list Node :=
  match cs with
  | [] => []
  | x :: rest => annotate k x :: annotateList (k + span x)%nat rest
  end.

(** The links a first run makes for the children [cs] of the folder
    [parentID], and below them. *)
Fixpoint newLinks (parentID : string) (c : Node) : list (string * string) :=
  (parentID, DriveID c) ::
  (if IsDir (Info c) then flat_map (newLinks (DriveID c)) (Children c)
   else []).

Fixpoint nodupb (l : list string) : bool :=
  match l with
  | [] => true
  | x :: rest => negb (existsb (String.eqb x) rest) && nodupb rest
  end.

(** A child can be handled: its relative name exists; a file is named
    after its path and can be opened. *)
Definition itemOK (base : string) (unreadablePaths : list string)
  (c : Node) : bool :=
  isSome (filepath.Rel base (FullPath c)) &&
  (IsDir (Info c) ||
   (String.eqb (filepath.Base (FullPath c)) (Name (Info c)) &&
    negb (existsb (String.eqb (FullPath c)) unreadablePaths))).

(** The local tree is one a directory scan yields: the children of a
    directory have different names, and every entry can be handled. *)
Fixpoint treeOK (base : string) (unreadablePaths : list string) (n : Node)
  {struct n} : bool :=
  nodupb (map (fun c => Name (Info c)) (Children n)) &&
  forallb (fun c => itemOK base unreadablePaths c &&
                    (if IsDir (Info c) then treeOK base unreadablePaths c
                     else true))
          (Children n).

(** No link of the store hangs below an identifier the service has yet to
    mint, and no registered file carries such an identifier. *)
Definition freshStore (d : Drive) : Prop :=
  forall k, (nextId d <= k)%nat ->
    (forall l, In l (links d) -> fst l <> id_of k /\ snd l <> id_of k) /\
    (forall f, In f (files d) -> Id f <> id_of k).

(** The titles of the folders a run created. *)
Definition folderCreations (evs : list Event) : list string :=
  flat_map (fun e => match e with
                     | Remote (FilesInsert title _ _ None) true => [title]
                     | _ => []
                     end) evs.

Definition isFile (c : Node) : bool := negb (IsDir (Info c)).

Definition isDirectory (c : Node) : bool := IsDir (Info c).

(** What a first run adds to the world: files, links, identifiers, counted
    operations, printed lines, writes. *)
Definition firstRun (w w' : World) (added : list Node) (linked :
  list (string * string)) : Prop :=
  exists d' evs,
    w' = step w d' (opsExecuted w + Z.of_nat (length added)) evs /\
    files d' = files (drv w) ++ map (entryFile w) added /\
    links d' = links (drv w) ++ linked /\
    nextId d' = (nextId (drv w) + length added)%nat /\
    faults d' = [] /\
    pageSize d' = pageSize (drv w) /\
    stdoutOf evs = map (fun c => lineOf w c Created) added /\
    folderCreations evs =
      map (fun c => Name (Info c)) (List.filter isDirectory added) /\
    writeKinds evs =
      map (fun c => if IsDir (Info c) then FolderInsert else Upload) added.

(** The world is ready for [size] more counted operations: the service
    works, the counter is sound and there is room below the ceiling. *)
Definition ready (size : nat) (w : World) : Prop :=
  faults (drv w) = [] /\
  (0 <= opsExecuted w)%Z /\
  (opsExecuted w + Z.of_nat size <= maxOps (flags w))%Z /\
  (maxOps (flags w) <= int_max)%Z.

(** The identifier is not one the service has yet to mint. *)
Definition notFuture (d : Drive) (id : string) : Prop :=
  forall k, (nextId d <= k)%nat -> id <> id_of k.

(** What the first run does on a node whose remote folder is empty. *)
Definition firstRunOK (n : Node) : Prop :=
  forall id w,
    ready (length (entries n)) w ->
    treeOK (localDirToPush (flags w)) (unreadable w) n = true ->
    freshStore (drv w) ->
    notFuture (drv w) id ->
    (forall l, In l (links (drv w)) -> fst l <> id) ->
    exists w',
      processNode n id w =
      Ok (mkNode (FullPath n) (Info n)
                 (annotateList (nextId (drv w)) (Children n)) id) w' /\
      firstRun w w'
        (flat_map selfAndBelow (annotateList (nextId (drv w)) (Children n)))
        (flat_map (newLinks id) (annotateList (nextId (drv w)) (Children n)))
      /\ freshStore (drv w').

(** *** The store after the first run *)

(** The identifiers the service minted from [a] on, [n] of them. *)
Definition minted (a n : nat) (x : string) : Prop :=
  exists j, (a <= j < a + n)%nat /\ x = id_of j.

(** The links of a list that hang below the folder [x]. *)
Definition linksUnder (x : string) (l : list (string * string))
  : list (string * string) :=
  List.filter (fun p : string * string => String.eqb (fst p) x) l.

(** The remote folder of a local directory holds what the directory holds:
    listing the folder yields one item per child, in order, and so on
    below. *)
Fixpoint mirrored (w : World) (d : Drive) (x : Node) {struct x} : Prop :=
  childrenOf d (DriveID x) = map (entryFile w) (Children x) /\
  (fix all (cs : list Node) : Prop :=
     match cs with
     | [] => True
     | c :: rest => (IsDir (Info c) = true -> mirrored w d c) /\ all rest
     end) (Children x).

(** *** The second run *)

(** What a run below the folder [id] leaves alone, when the entries below
    it carry the [n] identifiers minted from [a] on and [old] is the folder
    of the old files: the listing of every other folder, every link that
    does not hang an entry of the run below its folder, and every
    registered file. *)
Definition frame (d d' : Drive) (id old : string) (a n : nat) : Prop :=
  (forall x, x <> id -> x <> old -> ~ minted a n x ->
             childrenOf d' x = childrenOf d x) /\
  (forall x f, ~ minted a n x -> (x <> id \/ ~ minted a n f) ->
               hasLink d x f = true -> hasLink d' x f = true) /\
  (forall y f, lookupFile d y = Some f -> lookupFile d' y = Some f).

(** The status of an entry whose name has a remote match. *)
Definition secondStatus (c : Node) : Status := statusOf (IsDir (Info c)) true.

(** What a second run does for the entries [es], whose identifiers from the
    first run start at [a]. *)
Definition secondRun (w w' : World) (id : string) (a : nat)
  (es : list Node) : Prop :=
  exists d' evs,
    w' = step w d'
           (opsExecuted w + 2 * Z.of_nat (length (List.filter isFile es)))
           evs /\
    faults d' = [] /\
    (nextId (drv w) <= nextId d')%nat /\
    freshStore d' /\
    frame (drv w) d' id (oldFilesDir (flags w)) a (length es) /\
    stdoutOf evs = map (fun c => lineOf w c (secondStatus c)) es /\
    folderCreations evs = [] /\
    writeKinds evs =
      flat_map (fun c => writesOf (IsDir (Info c)) (secondStatus c)) es.

(** The world is ready for a second run over the entries [es]: two counted
    operations for each file. *)
Definition ready2 (es : list Node) (w : World) : Prop :=
  faults (drv w) = [] /\
  (0 <= opsExecuted w)%Z /\
  (opsExecuted w + 2 * Z.of_nat (length (List.filter isFile es))
   <= maxOps (flags w))%Z /\
  (maxOps (flags w) <= int_max)%Z.

(** What the loop still relies on for the children it has yet to handle:
    the folder of a directory mirrors it, a file is registered and still
    hangs below the folder [id]. *)
Definition pendingItem (w : World) (d : Drive) (id : string) (k : nat)
  (c : Node) : Prop :=
  if IsDir (Info c) then mirrored w d (annotate k c)
  else hasLink d id (id_of k) = true /\
       isSome (lookupFile d (id_of k)) = true.

Fixpoint pending (w : World) (d : Drive) (id : string) (k : nat)
  (cs : list Node) : Prop :=
  match cs with
  | [] => True
  | c :: rest => pendingItem w d id k c /\ pending w d id (k + span c) rest
  end.

(** The name of a child matches the remote item of its first run. *)
Definition matchesItem (items : list File) (k : nat) (c : Node) : Prop :=
  exists f, findRemote items (Name (Info c)) = Some f /\ Id f = id_of k.

Fixpoint matches (items : list File) (k : nat) (cs : list Node) : Prop :=
  match cs with
  | [] => True
  | c :: rest => matchesItem items k c /\ matches items (k + span c) rest
  end.

(** What the second run does on a node whose remote folder mirrors it. *)
Definition secondRunOK (n : Node) : Prop :=
  forall k id w,
    ready2 (entries n) w ->
    treeOK (localDirToPush (flags w)) (unreadable w) n = true ->
    mirrored w (drv w)
             (mkNode (FullPath n) (Info n) (annotateList k (Children n)) id) ->
    ~ minted k (length (entries n)) id ->
    generated (oldFilesDir (flags w)) = false ->
    freshStore (drv w) ->
    notFuture (drv w) id ->
    (k + length (entries n) <= nextId (drv w))%nat ->
    exists n' w',
      processNode n id w = Ok n' w' /\ secondRun w w' id k (entries n).

(** *** Counting the writes *)

(** The counted operations behind a status: one insertion for [+], a
    relocation and an upload for [M], none for an entry left as it is. *)
Definition cost (st : Status) : nat :=
  match st with
  | Created => 1
  | Modified => 2
  | Unchanged => 0
  end.

(** The calls that open a counted operation: an insertion, or the first
    leg of a relocation. *)
Definition isCounted (e : Event) : bool :=
  match e with
  | Remote (FilesInsert _ _ _ _) _ => true
  | Remote (ParentsInsert _ _) _ => true
  | _ => false
  end.

(** The calls that change the store which the governor still owes to the
    operation under way. *)
Definition credit (p : Phase) : nat :=
  match p with
  | Armed => 2
  | SecondLeg => 1
  | _ => 0
  end.

(** One mark for each call that opens a counted operation. *)
Definition countedOf (evs : list Event) : list unit :=
  flat_map (fun e => if isCounted e then [tt] else []) evs.

(** *** The start of the process *)

(** The two lines [main] prints once the local path is absolute. *)
Definition bannerLines (os : OS) (fl : Flags) (absPath : string)
  : list Event :=
  [Stdout ("Pushing contents of " +:+ quoted absPath +:+
           " to GDrive folder " +:+ quoted (gDriveRootID fl) +:+ nl +:+ nl);
   Stdout (os_now os +:+ nl)].

(** What stops [main] between the check of the flags and the reconciler,
    in the order [main] meets it: the absolute path, the Drive client, the
    scan of the local directory. *)
Definition startupFailure (os : OS) (fl : Flags) : option string :=
  match os_Abs os (localDirToPush fl) with
  | inl e => Some ("Could not determine absolute path: " +:+ e)
  | inr absPath =>
      match os_driveClient os with
      | Some e =>
          Some ("Problem creating Drive client: " +:+
                "Unable to retrieve drive Client " +:+ e)
      | None =>
          match directory_tree.err (directory_tree.NewTree os absPath) with
          | Some e => Some ("Problem creating directory_tree: " +:+ e)
          | None => None
          end
      end
  end.

(** The world in which [main] calls the reconciler: the local path made
    absolute, the banner printed, the root node given its identifier. *)
Definition reconcilerStart (os : OS) (w : World) (absPath : string)
  (tree : Node) : World :=
  step (withFlags w (withLocalDir (flags w) absPath)) (drv w) (opsExecuted w)
       (bannerLines os (flags w) absPath ++
        [Assign (FullPath tree) (gDriveRootID (flags w))]).

(** *** Running without [--verbose] *)

Definition quietFlags (fl : Flags) : Flags :=
  mkFlags (gDriveRootID fl) (localDirToPush fl) (oldFilesDir fl) (maxOps fl)
          false.

(** The events without the output of [--verbose]. *)
Definition undebug (evs : list Event) : list Event :=
  List.filter (fun e => negb (isDebug e)) evs.

(** The same world for a process started without [--verbose]: the flag
    off, the debug output gone. *)
Definition hush (w : World) : World :=
  mkWorld (quietFlags (flags w)) (opsExecuted w) (drv w) (unreadable w)
          (mimeTypes w) (undebug (trace w)).

Definition hushed {A} (o : Outcome A) : Outcome A :=
  match o with
  | Ok a w => Ok a (hush w)
  | Err e w => Err e (hush w)
  | Fatal msg w => Fatal msg (hush w)
  | Panic msg w => Panic msg (hush w)
  end.

(** A computation does the same with and without [--verbose], the debug
    output apart. *)
Definition discreet {A} (m : M A) : Prop :=
  forall w, m (hush w) = hushed (m w).

(** *** Errors of a run *)

(** The error the loop body makes when a write for the entry [c] fails:
    it names the entry by its relative path. *)
Definition entryError (fl : Flags) (c : Node) (e : string) : Prop :=
  exists relName err,
    filepath.Rel (localDirToPush fl) (FullPath c) = Some relName /\
    (IsDir (Info c) = true /\
     e = "Problem creating GDrive folder " +:+ quoted relName +:+ ": " +:+ err
     \/
     IsDir (Info c) = false /\
     (e = "Problem relocating GDrive file " +:+ quoted relName +:+ ": " +:+
          err \/
      e = "Problem creating Gdrive file " +:+ quoted relName +:+ ": " +:+
          err)).

(** Names of bytes below 0x7f (ASCII without DEL), on which [quoted] is
    Go's [%q]. *)
Definition isASCII (s : string) : bool :=
  forallb (fun c => Nat.ltb (nat_of_ascii c) 127) (list_ascii_of_string s).

Definition listingError (e : string) : Prop :=
  exists err, e = "Problem listing GDrive folder: " +:+ err.

(** A computation leaves the flags alone and, when it hands back an error,
    the error is one of [P] and the last thing that happened is a call the
    service failed. *)
Definition failsWith {A} (P : Flags -> string -> Prop) (m : M A) : Prop :=
  forall w,
    match m w with
    | Ok _ w' => flags w' = flags w
    | Err e w' =>
        P (flags w) e /\
        exists evs call, trace w' = evs ++ [Remote call false]
    | _ => True
    end.

(** *** The tree handed back *)

(** A tree without its identifiers. *)
Fixpoint blank (n : Node) : Node :=
  mkNode (FullPath n) (Info n) (map blank (Children n)) "".

(** *** The ceiling *)

(** [k] counted operations in a row. *)
Fixpoint tallyTimes (k : nat) : M unit :=
  match k with
  | O => ret tt
  | S k' => tallyOp ;;; tallyTimes k'
  end.

(** *** The lines of a run that stops *)

Definition isOk {A} (o : Outcome A) : bool :=
  match o with Ok _ _ => true | _ => false end.

(** Whatever it comes to, the computation leaves the flags alone and
    prints status lines of the entries [es], in order, from the first one
    on: of all of them when it returns a value.  ([G] is what the lines
    rely on in the flags.) *)
Definition printsFor {A} (G : Flags -> Prop) (es : list Node) (m : M A)
  : Prop :=
  forall w,
    flags (final_world (m w)) = flags w /\
    exists evs sts,
      trace (final_world (m w)) = trace w ++ evs /\
      (length sts <= length es)%nat /\
      (isOk (m w) = true -> length sts = length es) /\
      (G (flags w) -> stdoutOf evs = zip_with (lineOf w) es sts).

(** *** A relocation inside the folder for old files *)

(** The process is told to keep superseded files in the folder it pushes
    into: [--old_files_dir] is the identifier given as
    [--gdrive_root_id]. *)
Definition flagsOldIsRoot : Flags :=
  mkFlags "root" "/home/u" "root" 20 false.

(** The remote root holds [x.txt]. *)
Definition rootWithFile : Drive :=
  mkDrive [mkFile "#0" "x.txt" ""] [("root", "#0")] 1 0 [] 0.

(** The local directory holds [x.txt] (10 bytes). *)
Definition dirWithFile : list Visit :=
  [mkVisit "/home/u" (dirInfo "u") None;
   mkVisit "/home/u/x.txt" (fileInfo "x.txt" 10) None].

(** *** Matches and listings

    Whether an entry has a remote match is decided by the listing of the
    folder of its directory, as the store stands when the visit of that
    directory starts.  The store along a run is the store at its start
    with the writes made so far. *)







(** * Properties *)

(** ** The path functions on the paths the program meets *)

Example Dir_nested : filepath.Dir "/home/u/a/x.txt" = "/home/u/a".
Proof. reflexivity. Qed.

Example Dir_top : filepath.Dir "/a" = "/".
Proof. reflexivity. Qed.

Example Dir_root : filepath.Dir "/" = "/".
Proof. reflexivity. Qed.

Example Dir_relative : filepath.Dir "a" = ".".
Proof. reflexivity. Qed.

Example Base_nested : filepath.Base "/home/u/a/x.txt" = "x.txt".
Proof. reflexivity. Qed.

Example Base_root : filepath.Base "/" = "/".
Proof. reflexivity. Qed.

Example Ext_txt : filepath.Ext "x.tar.gz" = ".gz".
Proof. reflexivity. Qed.

Example Ext_none : filepath.Ext "/a.b/x" = "".
Proof. reflexivity. Qed.

Example Rel_below : filepath.Rel "/home/u" "/home/u/a/x.txt" = Some "a/x.txt".
Proof. reflexivity. Qed.

Example Rel_same : filepath.Rel "/home/u" "/home/u" = Some ".".
Proof. reflexivity. Qed.

Example Rel_up : filepath.Rel "/home/u" "/home/v/y" = Some "../v/y".
Proof. reflexivity. Qed.

Example Rel_mixed : filepath.Rel "/home/u" "a" = None.
Proof. reflexivity. Qed.

(** ** Steps of the adapter *)

Ltac wsimpl :=
  cbn [flags opsExecuted drv unreadable mimeTypes trace
       withTrace withOps withDrv withFlags step negb
       files links nextId calls faults pageSize
       withCalls tick addFile addLink removeLink] in *.

Lemma step_step (w : World) d1 n1 e1 d2 n2 e2 :
  step (step w d1 n1 e1) d2 n2 e2 = step w d2 n2 (e1 ++ e2).
Proof. unfold step. cbn. rewrite <- app_assoc. reflexivity. Qed.

Lemma step_id (w : World) : step w (drv w) (opsExecuted w) [] = w.
Proof. unfold step. rewrite app_nil_r. destruct w; reflexivity. Qed.

Lemma dbg_step (w : World) d n evs fn args :
  dbg (step w d n evs) fn args = dbg w fn args.
Proof. reflexivity. Qed.

Lemma delta_step (w : World) d n evs : delta w (step w d n evs) = evs.
Proof. unfold delta, step. cbn. apply drop_app_length. Qed.

Lemma tallyOp_spec (w : World) :
  tallyOp w =
  let n := wrap_int (opsExecuted w + 1) in
  if Z.ltb (maxOps (flags w)) n
  then Fatal ("Oops, --max_gdrive_ops reached (" +:+ pretty n +:+ ") exiting")
         (step w (drv w) n
            [Tally n;
             Log ("Oops, --max_gdrive_ops reached (" +:+ pretty n +:+
                  ") exiting")])
  else Ok tt (step w (drv w) n [Tally n]).
Proof.
  unfold tallyOp, bind, setOps, emit, getFlags, fatal, ret, step. cbn.
  destruct (Z.ltb _ _); cbn; [rewrite <- app_assoc |]; reflexivity.
Qed.

Lemma debugf_spec (fn : string) (args : list string) (w : World) :
  debugf fn args w =
  Ok tt (step w (drv w) (opsExecuted w) (dbg w fn args)).
Proof.
  unfold debugf, dbg, bind, getFlags, emit, ret, step.
  destruct (verbose (flags w)); cbn; [reflexivity |].
  rewrite app_nil_r. destruct w; reflexivity.
Qed.

Lemma emit_spec (e : Event) (w : World) :
  emit e w = Ok tt (step w (drv w) (opsExecuted w) [e]).
Proof. reflexivity. Qed.

Lemma fatal_spec {A} (msg : string) (w : World) :
  @fatal A msg w = Fatal msg (step w (drv w) (opsExecuted w) [Log msg]).
Proof. reflexivity. Qed.

Lemma wrap_int_small (z : Z) :
  (int_min <= z <= int_max)%Z -> wrap_int z = z.
Proof.
  unfold wrap_int, int_min, int_max. intros H.
  rewrite Z.mod_small; lia.
Qed.

Lemma apiCall_spec {A} (c : ApiCall) (run : Drive -> (string + A) * Drive)
  (w : World) :
  apiCall c run w =
  if faulty (drv w)
  then Ok (inl "service unavailable")
          (step w (tick (drv w)) (opsExecuted w) [Remote c false])
  else Ok (fst (run (tick (drv w))))
          (step w (snd (run (tick (drv w)))) (opsExecuted w)
                [Remote c (is_inr (fst (run (tick (drv w)))))]).
Proof.
  unfold apiCall. destruct (faulty (drv w)); [reflexivity |].
  destruct (run (tick (drv w))) as [r d1]. reflexivity.
Qed.

Lemma Files_Insert_spec (title mimeType parentID : string)
  (media : option string) (w : World) :
  Files_Insert title mimeType parentID media w =
  if faulty (drv w)
  then Ok (inl "service unavailable")
          (step w (tick (drv w)) (opsExecuted w)
                [Remote (FilesInsert title mimeType parentID media) false])
  else Ok (inr (id_of (nextId (drv w))))
          (step w
             (addFile (tick (drv w))
                      (mkFile (id_of (nextId (drv w))) title mimeType)
                      parentID)
             (opsExecuted w)
             [Remote (FilesInsert title mimeType parentID media) true]).
Proof. unfold Files_Insert. rewrite apiCall_spec. reflexivity. Qed.

Lemma Parents_Insert_spec (fileID parentID : string) (w : World) :
  Parents_Insert fileID parentID w =
  if faulty (drv w)
  then Ok (inl "service unavailable")
          (step w (tick (drv w)) (opsExecuted w)
                [Remote (ParentsInsert fileID parentID) false])
  else match lookupFile (drv w) fileID with
       | None =>
           Ok (inl ("File not found: " +:+ fileID))
              (step w (tick (drv w)) (opsExecuted w)
                    [Remote (ParentsInsert fileID parentID) false])
       | Some _ =>
           Ok (inr tt)
              (step w
                 (if hasLink (drv w) parentID fileID then tick (drv w)
                  else addLink (tick (drv w)) parentID fileID)
                 (opsExecuted w)
                 [Remote (ParentsInsert fileID parentID) true])
       end.
Proof.
  unfold Parents_Insert. rewrite apiCall_spec.
  destruct (faulty (drv w)); [reflexivity |].
  change (lookupFile (tick (drv w)) fileID) with (lookupFile (drv w) fileID).
  change (hasLink (tick (drv w)) parentID fileID)
    with (hasLink (drv w) parentID fileID).
  destruct (lookupFile (drv w) fileID); [| reflexivity].
  destruct (hasLink (drv w) parentID fileID); reflexivity.
Qed.

Lemma Parents_Delete_spec (fileID parentID : string) (w : World) :
  Parents_Delete fileID parentID w =
  if faulty (drv w)
  then Ok (inl "service unavailable")
          (step w (tick (drv w)) (opsExecuted w)
                [Remote (ParentsDelete fileID parentID) false])
  else if hasLink (drv w) parentID fileID
       then Ok (inr tt)
               (step w (removeLink (tick (drv w)) parentID fileID)
                     (opsExecuted w)
                     [Remote (ParentsDelete fileID parentID) true])
       else Ok (inl ("Parent not found: " +:+ parentID))
               (step w (tick (drv w)) (opsExecuted w)
                     [Remote (ParentsDelete fileID parentID) false]).
Proof.
  unfold Parents_Delete. rewrite apiCall_spec.
  destruct (faulty (drv w)); [reflexivity |].
  change (hasLink (tick (drv w)) parentID fileID)
    with (hasLink (drv w) parentID fileID).
  destruct (hasLink (drv w) parentID fileID); reflexivity.
Qed.

Lemma createFolder_spec (title parentID : string) (w : World) :
  createFolder title parentID w =
  let n := wrap_int (opsExecuted w + 1) in
  let c := FilesInsert title folderMimeType parentID None in
  let pre := Tally n :: dbg w "createFolder" [title; parentID] in
  if Z.ltb (maxOps (flags w)) n
  then Fatal (tallyMsg n) (step w (drv w) n [Tally n; Log (tallyMsg n)])
  else if faulty (drv w)
  then Err "Problem creating new GDrive folder: service unavailable"
           (step w (tick (drv w)) n (pre ++ [Remote c false]))
  else Ok (id_of (nextId (drv w)))
          (step w
             (addFile (tick (drv w))
                (mkFile (id_of (nextId (drv w))) title folderMimeType)
                parentID)
             n (pre ++ [Remote c true])).
Proof.
  unfold createFolder, bind. rewrite tallyOp_spec. cbn zeta.
  destruct (Z.ltb _ _); [reflexivity |].
  rewrite debugf_spec, Files_Insert_spec. wsimpl.
  destruct (faulty (drv w)); unfold throw, ret; rewrite !step_step;
    reflexivity.
Qed.

Lemma relocateFile_spec (fileID oldParentID : string) (w : World) :
  relocateFile fileID oldParentID w =
  let n := wrap_int (opsExecuted w + 1) in
  let q := oldFilesDir (flags w) in
  let c1 := ParentsInsert fileID q in
  let c2 := ParentsDelete fileID oldParentID in
  let pre := Tally n :: dbg w "relocateFile" [fileID; oldParentID] in
  if Z.ltb (maxOps (flags w)) n
  then Fatal (tallyMsg n) (step w (drv w) n [Tally n; Log (tallyMsg n)])
  else if faulty (drv w)
  then Err "An Insert() error occurred: service unavailable"
           (step w (tick (drv w)) n (pre ++ [Remote c1 false]))
  else
    match lookupFile (drv w) fileID with
    | None =>
        Err ("An Insert() error occurred: " +:+ "File not found: " +:+ fileID)
            (step w (tick (drv w)) n (pre ++ [Remote c1 false]))
    | Some _ =>
        let d1 := if hasLink (drv w) q fileID then tick (drv w)
                  else addLink (tick (drv w)) q fileID in
        if faulty d1
        then Err "A Delete() error occurred: service unavailable"
                 (step w (tick d1) n
                       (pre ++ [Remote c1 true; Remote c2 false]))
        else if hasLink d1 oldParentID fileID
        then Ok tt (step w (removeLink (tick d1) oldParentID fileID) n
                         (pre ++ [Remote c1 true; Remote c2 true]))
        else Err ("A Delete() error occurred: " +:+ "Parent not found: " +:+
                  oldParentID)
                 (step w (tick d1) n
                       (pre ++ [Remote c1 true; Remote c2 false]))
    end.
Proof.
  unfold relocateFile, bind. rewrite tallyOp_spec. cbn zeta.
  destruct (Z.ltb _ _); [reflexivity |].
  rewrite debugf_spec. unfold getFlags. rewrite Parents_Insert_spec. wsimpl.
  destruct (faulty (drv w)); [unfold throw; rewrite !step_step; reflexivity |].
  destruct (lookupFile (drv w) fileID);
    [| unfold throw; rewrite !step_step; reflexivity].
  rewrite Parents_Delete_spec. wsimpl.
  match goal with |- context [faulty ?d] => destruct (faulty d) end;
    [unfold throw; rewrite ?step_step, <- ?app_assoc; reflexivity |].
  match goal with
  | |- context [if hasLink ?d ?p ?f then Ok _ _ else _] =>
      destruct (hasLink d p f)
  end; unfold throw, ret; rewrite ?step_step, <- ?app_assoc; reflexivity.
Qed.

Lemma createFile_spec (localFile : Node) (parentID : string) (w : World) :
  createFile localFile parentID w =
  let n := wrap_int (opsExecuted w + 1) in
  let path := FullPath localFile in
  let title := filepath.Base path in
  let mimeType := TypeByExtension (mimeTypes w) (filepath.Ext title) in
  let c := FilesInsert title mimeType parentID (Some path) in
  let pre := Tally n :: dbg w "createFile" [path; parentID] in
  if Z.ltb (maxOps (flags w)) n
  then Fatal (tallyMsg n) (step w (drv w) n [Tally n; Log (tallyMsg n)])
  else if existsb (String.eqb path) (unreadable w)
  then Fatal (openMsg path)
             (step w (drv w) n
                   (pre ++ [OsOpen path false; Log (openMsg path)]))
  else if faulty (drv w)
  then Err ("An error occurred uploading the file: " +:+
            "service unavailable" +:+ nl)
           (step w (tick (drv w)) n
                 (pre ++ [OsOpen path true; Remote c false]))
  else Ok (id_of (nextId (drv w)))
          (step w
             (addFile (tick (drv w))
                (mkFile (id_of (nextId (drv w))) title mimeType) parentID)
             n (pre ++ [OsOpen path true; Remote c true])).
Proof.
  unfold createFile, bind. rewrite tallyOp_spec. cbn zeta.
  destruct (Z.ltb _ _); [reflexivity |].
  rewrite debugf_spec. unfold os_Open, bind. rewrite emit_spec. wsimpl.
  unfold ret.
  destruct (existsb (String.eqb (FullPath localFile)) (unreadable w)); wsimpl.
  { rewrite fatal_spec, ?step_step, <- ?app_assoc. reflexivity. }
  rewrite Files_Insert_spec. wsimpl.
  destruct (faulty (drv w)); unfold throw; rewrite ?step_step, <- ?app_assoc;
    reflexivity.
Qed.

(** ** The protocol of the governor is compositional *)

Lemma govRun_app (m : Z) (s : Phase * Z) (e1 e2 : list Event) :
  govRun m s (e1 ++ e2) =
  match govRun m s e1 with
  | Some s' => govRun m s' e2
  | None => None
  end.
Proof.
  revert s. induction e1 as [| e e1 IH]; intros s; cbn; [reflexivity |].
  destruct (govStep m s e); [apply IH | reflexivity].
Qed.

Lemma govRun_quiet (m : Z) (ph : Phase) (c : Z) (evs : list Event) :
  ph = Idle \/ ph = Armed ->
  forallb quiet evs = true ->
  govRun m (ph, c) evs = Some (ph, c).
Proof.
  intros Hph. induction evs as [| e evs IH]; cbn; [reflexivity |].
  intros H. apply andb_prop in H as [He Hevs].
  destruct Hph; subst ph; destruct e; try discriminate; cbn; auto.
Qed.

Lemma governed_ret {A} (a : A) : governed (ret a).
Proof.
  intros w. cbn. split; [reflexivity |]. exists []. rewrite app_nil_r. auto.
Qed.

Lemma governed_bind {A B} (c : M A) (k : A -> M B) :
  governed c -> (forall a, governed (k a)) -> governed (bind c k).
Proof.
  intros Hc Hk w. unfold bind. specialize (Hc w).
  destruct (c w) as [a w1 | e w1 | msg w1 | msg w1]; cbn in *; try exact Hc.
  destruct Hc as [Hfl (evs & Htr & Hrun)].
  specialize (Hk a w1).
  destruct (k a w1) as [b w2 | e w2 | msg w2 | msg w2]; cbn in *;
    try exact Hk.
  all: destruct Hk as [Hfl' (evs' & Htr' & Hrun')].
  all: split; [congruence |].
  all: exists (evs ++ evs'); split;
    [rewrite Htr', Htr, app_assoc; reflexivity |].
  all: rewrite govRun_app, Hrun, <- Hfl; exact Hrun'.
Qed.

Lemma governed_wrapErr {A} (f : string -> string) (c : M A) :
  governed c -> governed (wrapErr f c).
Proof.
  intros Hc w. unfold wrapErr. specialize (Hc w).
  destruct (c w); cbn in *; exact Hc.
Qed.

Lemma governed_step_quiet {A} (c : M A) :
  (forall w, exists a evs,
      c w = Ok a (step w (drv w) (opsExecuted w) evs) /\
      forallb quiet evs = true) ->
  governed c.
Proof.
  intros H w. destruct (H w) as (a & evs & -> & Hq). cbn.
  split; [reflexivity |]. exists evs. split; [reflexivity |].
  apply govRun_quiet; auto.
Qed.

Lemma governed_emit (e : Event) : quiet e = true -> governed (emit e).
Proof.
  intros Hq. apply governed_step_quiet. intros w. exists tt, [e].
  split; [apply emit_spec |]. cbn. rewrite Hq. reflexivity.
Qed.

Lemma governed_debugf (fn : string) (args : list string) :
  governed (debugf fn args).
Proof.
  apply governed_step_quiet. intros w. exists tt, (dbg w fn args).
  split; [apply debugf_spec |]. unfold dbg.
  destruct (verbose (flags w)); reflexivity.
Qed.

Lemma governed_getFlags : governed getFlags.
Proof.
  apply governed_step_quiet. intros w. exists (flags w), [].
  split; [| reflexivity]. unfold getFlags. rewrite step_id. reflexivity.
Qed.

Lemma governed_throw {A} (e : string) : governed (@throw A e).
Proof.
  intros w. cbn. split; [reflexivity |]. exists []. rewrite app_nil_r. auto.
Qed.

Lemma governed_fatal {A} (msg : string) : governed (@fatal A msg).
Proof.
  intros w. cbn. split; [reflexivity |]. exists [Log msg]. auto.
Qed.

Lemma governed_ext {A} (c c' : M A) :
  (forall w, c w = c' w) -> governed c' -> governed c.
Proof. intros E H w. rewrite E. apply H. Qed.

Lemma governed_pointwise {A} (f : World -> M A) :
  (forall w0, governed (f w0)) -> governed (fun w => f w w).
Proof. intros H w. apply (H w). Qed.

Ltac tally_cases w :=
  let E := fresh "E" in
  cbn zeta;
  destruct (Z.ltb (maxOps (flags w)) (wrap_int (opsExecuted w + 1))) eqn:E.

Lemma governed_createFolder (title parentID : string) :
  governed (createFolder title parentID).
Proof.
  intros w. rewrite createFolder_spec. tally_cases w.
  - cbn. split; [reflexivity |]. eexists. split; [reflexivity |].
    cbn. rewrite Z.eqb_refl, E. reflexivity.
  - destruct (faulty (drv w)); cbn; (split; [reflexivity |]).
    all: eexists; split; [reflexivity |].
    all: cbn; rewrite Z.eqb_refl, E.
    all: rewrite govRun_app, govRun_quiet;
      [reflexivity | auto | unfold dbg; destruct (verbose _); reflexivity].
Qed.

Lemma governed_createFile (localFile : Node) (parentID : string) :
  governed (createFile localFile parentID).
Proof.
  intros w. rewrite createFile_spec. tally_cases w.
  - cbn. split; [reflexivity |]. eexists. split; [reflexivity |].
    cbn. rewrite Z.eqb_refl, E. reflexivity.
  - destruct (existsb _ (unreadable w)); [| destruct (faulty (drv w))]; cbn.
    all: split; [reflexivity |].
    all: eexists; split; [reflexivity |].
    all: cbn; rewrite Z.eqb_refl, E.
    all: rewrite govRun_app, govRun_quiet;
      [reflexivity | auto | unfold dbg; destruct (verbose _); reflexivity].
Qed.

Lemma governed_relocateFile (fileID oldParentID : string) :
  governed (relocateFile fileID oldParentID).
Proof.
  intros w. rewrite relocateFile_spec. tally_cases w.
  - cbn. split; [reflexivity |]. eexists. split; [reflexivity |].
    cbn. rewrite Z.eqb_refl, E. reflexivity.
  - destruct (faulty (drv w)); [| destruct (lookupFile (drv w) fileID)].
    2: match goal with |- context [faulty ?d] => destruct (faulty d) end.
    3: match goal with
       | |- context [if hasLink ?d ?p ?f then Ok _ _ else _] =>
           destruct (hasLink d p f)
       end.
    all: cbn; (split; [reflexivity |]).
    all: eexists; split; [reflexivity |].
    all: cbn; rewrite Z.eqb_refl, E.
    all: rewrite govRun_app, govRun_quiet;
      [reflexivity | auto | unfold dbg; destruct (verbose _); reflexivity].
Qed.

Lemma governed_Files_List (parentID : string) (page : nat)
  (items : list File) : governed (Files_List parentID page items).
Proof.
  intros w. unfold Files_List. rewrite apiCall_spec.
  destruct (faulty (drv w)); cbn; (split; [reflexivity |]).
  all: eexists; split; [reflexivity |]; reflexivity.
Qed.

Lemma governed_listPages (parentID : string) (pages : list (list File)) :
  forall page filesAcc, governed (listPages parentID page pages filesAcc).
Proof.
  induction pages as [| items rest IH]; intros page filesAcc; cbn.
  - apply governed_ret.
  - apply governed_bind; [apply governed_Files_List |].
    intros [e | got]; [apply governed_throw | apply IH].
Qed.

Lemma governed_listFolder (parentID : string) :
  governed (listFolder parentID).
Proof.
  unfold listFolder. apply governed_bind; [apply governed_debugf |].
  intros _. apply (governed_pointwise
    (fun w0 => listPages parentID 0
       (pagesOf (pageSize (drv w0)) (childrenOf (drv w0) parentID)) [])).
  intros w0. apply governed_listPages.
Qed.

Lemma governed_processItem (remoteItems : list File) (nodeID : string)
  (localItem : Node) (recur : string -> M Node) :
  (forall id, governed (recur id)) ->
  governed (processItem remoteItems nodeID localItem recur).
Proof.
  intros Hrec. unfold processItem.
  apply governed_bind; [apply governed_getFlags |]. intros fl.
  destruct (filepath.Rel _ _) as [relName |]; [| apply governed_fatal].
  unfold assign, printf.
  destruct (findRemote remoteItems (Name (Info localItem))) as [r |];
    destruct (IsDir (Info localItem)); cbn beta iota zeta delta [negb].
  all: repeat first
         [ apply governed_createFolder
         | apply governed_createFile
         | apply governed_relocateFile
         | apply Hrec
         | apply governed_emit; reflexivity
         | apply governed_ret
         | apply governed_wrapErr
         | apply governed_bind
         | intros _
         | intros newID ].
Qed.

Lemma governed_eachItem (body : Node -> M Node) (items : list Node) :
  Forall (fun c => governed (body c)) items ->
  governed (eachItem body items).
Proof.
  induction 1 as [| c items Hc _ IH]; cbn.
  - apply governed_ret.
  - apply governed_bind; [exact Hc |]. intros c'.
    apply governed_bind; [exact IH |]. intros rest'. apply governed_ret.
Qed.

Lemma processNode_eq (node : Node) (nodeID : string) :
  processNode node nodeID =
  (debugf "processNode" [FullPath node] ;;;
   remoteItems <- wrapErr
     (fun err => "Problem listing GDrive folder: " +:+ err)
     (listFolder nodeID) ;;
   children <- eachItem
     (fun localItem =>
        processItem remoteItems nodeID localItem (processNode localItem))
     (Children node) ;;
   ret (mkNode (FullPath node) (Info node) children nodeID)).
Proof. destruct node; reflexivity. Qed.

Lemma governed_processNode (node : Node) :
  forall nodeID, governed (processNode node nodeID).
Proof.
  induction node as [fp info cs id IH] using Node_ind'. intros nodeID.
  rewrite processNode_eq. cbn [FullPath Info Children].
  apply governed_bind; [apply governed_debugf |]. intros _.
  apply governed_bind; [apply governed_wrapErr, governed_listFolder |].
  intros remoteItems.
  apply governed_bind; [| intros; apply governed_ret].
  apply governed_eachItem.
  eapply Forall_impl; [exact IH |]. cbn. intros c Hc.
  apply governed_processItem. exact Hc.
Qed.

(** ** The store *)

Lemma hasLink_app (d : Drive) (extra : list (string * string)) p f :
  existsb (fun l : string * string =>
             String.eqb (fst l) p && String.eqb (snd l) f)
          (links d ++ extra) =
  hasLink d p f ||
  existsb (fun l : string * string =>
             String.eqb (fst l) p && String.eqb (snd l) f) extra.
Proof. unfold hasLink. apply existsb_app. Qed.

Lemma hasLink_addLink_same (d : Drive) p f :
  hasLink (addLink d p f) p f = true.
Proof.
  unfold hasLink at 1. cbn [links addLink]. rewrite hasLink_app. cbn.
  rewrite !String.eqb_refl. cbn. apply orb_true_r.
Qed.

Lemma hasLink_addLink_mono (d : Drive) p f p' f' :
  hasLink d p f = true -> hasLink (addLink d p' f') p f = true.
Proof.
  intros H. unfold hasLink at 1. cbn [links addLink].
  rewrite hasLink_app, H. reflexivity.
Qed.

Lemma hasLink_addFile_new (d : Drive) (file : File) p :
  hasLink (addFile d file p) p (Id file) = true.
Proof.
  unfold hasLink at 1. cbn [links addFile]. rewrite hasLink_app. cbn.
  rewrite !String.eqb_refl. cbn. apply orb_true_r.
Qed.

Lemma hasLink_addFile_mono (d : Drive) (file : File) p' p f :
  hasLink d p f = true -> hasLink (addFile d file p') p f = true.
Proof.
  intros H. unfold hasLink at 1. cbn [links addFile].
  rewrite hasLink_app, H. reflexivity.
Qed.

Lemma hasLink_tick (d : Drive) p f : hasLink (tick d) p f = hasLink d p f.
Proof. reflexivity. Qed.

Lemma hasLink_removeLink_other (d : Drive) p f p' f' :
  p <> p' \/ f <> f' ->
  hasLink (removeLink d p' f') p f = hasLink d p f.
Proof.
  intros Hne. unfold hasLink, removeLink. cbn [links].
  induction (links d) as [| [a b] l IH]; cbn; [reflexivity |].
  destruct (String.eqb a p' && String.eqb b f') eqn:E1; cbn.
  - rewrite IH.
    apply andb_prop in E1 as [Ea Eb].
    apply String.eqb_eq in Ea, Eb. subst a b.
    destruct (String.eqb p' p) eqn:Ep; cbn; [| reflexivity].
    destruct (String.eqb f' f) eqn:Ef; cbn; [| reflexivity].
    apply String.eqb_eq in Ep, Ef. subst. destruct Hne; congruence.
  - rewrite IH. reflexivity.
Qed.

Lemma lookupFile_tick (d : Drive) id : lookupFile (tick d) id = lookupFile d id.
Proof. reflexivity. Qed.

Lemma find_app_Some {A} (f : A -> bool) (l l' : list A) (x : A) :
  find f l = Some x -> find f (l ++ l') = Some x.
Proof.
  induction l as [| y l IH]; cbn; [discriminate |].
  destruct (f y); [auto | exact IH].
Qed.

Lemma lookupFile_addFile_mono (d : Drive) (file : File) p id x :
  lookupFile d id = Some x -> lookupFile (addFile d file p) id = Some x.
Proof. unfold lookupFile. cbn [files addFile]. apply find_app_Some. Qed.

(** Closes the branches of a loop body that end before the last call. *)
Ltac fin_prefix V :=
  cbn [final_world]; rewrite ?step_step; unfold dbg; wsimpl; rewrite ?V;
  eexists; (split; [reflexivity |]); cbn;
  (split; [eexists; reflexivity | discriminate]).

(** ** One entry of a successful run *)

Ltac case_tally :=
  match goal with
  | |- context [if Z.ltb ?a ?b then _ else _] => destruct (Z.ltb a b) eqn:?
  end.

Ltac case_faulty :=
  match goal with
  | |- context [if faulty ?d then _ else _] => destruct (faulty d) eqn:?
  end.

Lemma processItem_Ok_inv (remoteItems : list File) (nodeID : string)
  (localItem : Node) (recur : string -> M Node) (w : World)
  (localItem' : Node) (w' : World) :
  processItem remoteItems nodeID localItem recur w = Ok localItem' w' ->
  exists newID d1 n1 evs,
    denoise evs =
      ownEvents w nodeID localItem
                (findRemote remoteItems (Name (Info localItem))) newID /\
    (if IsDir (Info localItem)
     then recur newID (step w d1 n1 evs) = Ok localItem' w'
     else localItem' = withDriveID localItem newID /\
          w' = step w d1 n1 evs) /\
    newID = finalID localItem
              (findRemote remoteItems (Name (Info localItem)))
              (id_of (nextId (drv w))) /\
    filesKnown w d1 /\
    (verbose (flags w) = false -> List.filter isDebug evs = []).
Proof.
  unfold processItem, bind, getFlags, ownEvents, relNameOf, finalID.
  destruct (filepath.Rel (localDirToPush (flags w)) (FullPath localItem))
    as [relName |] eqn:Hrel; [| discriminate].
  unfold assign, printf, wrapErr, ret.
  assert (Hsame : filesKnown w (drv w)) by (intros f Hf; left; exact Hf).
  assert (Hadd : forall d file p,
             files d = files (drv w) ->
             filesKnown w (addFile d (mkFile (id_of (nextId d))
                                             (Title file) (MimeType file))
                                   p)).
  { intros d file p Hd f Hf. cbn [files addFile] in Hf.
    apply in_app_or in Hf as [Hf | [<- | []]].
    - left. rewrite <- Hd. exact Hf.
    - right. eexists. reflexivity. }
  destruct (findRemote remoteItems (Name (Info localItem))) as [r |] eqn:Hm;
    destruct (IsDir (Info localItem)) eqn:Hdir; cbn [negb isSome].
  - (* directory, remote match *)
    rewrite !emit_spec. wsimpl. rewrite ?step_step. intros H.
    eexists _, _, _, _.
    split; [| split; [exact H | split; [reflexivity | split]]];
      [reflexivity | exact Hsame | reflexivity].
  - (* file, remote match *)
    rewrite emit_spec, relocateFile_spec. wsimpl.
    rewrite ?step_step, ?dbg_step.
    case_tally; [discriminate |]. case_faulty; [discriminate |].
    destruct (lookupFile (drv w) (Id r)); [| discriminate].
    match goal with
    | |- context [faulty ?d] => remember d as d1 eqn:Hd1
    end.
    assert (Hn1 : nextId d1 = nextId (drv w))
      by (rewrite Hd1; destruct (hasLink (drv w) _ _); reflexivity).
    assert (Hf1 : files d1 = files (drv w))
      by (rewrite Hd1; destruct (hasLink (drv w) _ _); reflexivity).
    clear Hd1.
    case_faulty; [discriminate |].
    destruct (hasLink d1 nodeID (Id r)); [| discriminate].
    rewrite createFile_spec. wsimpl. rewrite ?step_step, ?dbg_step.
    case_tally; [discriminate |].
    destruct (existsb _ (unreadable w)); [discriminate |].
    case_faulty; [discriminate |].
    rewrite !emit_spec. wsimpl. rewrite ?step_step.
    intros H. inversion H; subst; clear H.
    eexists _, _, _, _.
    split; [| split; [split; reflexivity | split; [| split]]].
    + unfold dbg, denoise. destruct (verbose (flags w)); reflexivity.
    + rewrite Hn1. reflexivity.
    + apply (Hadd (tick (removeLink (tick d1) nodeID (Id r)))
                  (mkFile "" _ _)).
      exact Hf1.
    + intros V. unfold dbg. rewrite V. reflexivity.
  - (* directory, no remote match *)
    rewrite createFolder_spec. wsimpl.
    case_tally; [discriminate |]. case_faulty; [discriminate |].
    rewrite !emit_spec. wsimpl. rewrite ?step_step. intros H.
    eexists _, _, _, _.
    split; [| split; [exact H | split; [reflexivity | split]]].
    + unfold dbg, denoise. destruct (verbose (flags w)); reflexivity.
    + apply (Hadd (tick (drv w)) (mkFile "" _ _)). reflexivity.
    + intros V. unfold dbg. rewrite V. reflexivity.
  - (* file, no remote match *)
    rewrite createFile_spec. wsimpl.
    case_tally; [discriminate |].
    destruct (existsb _ (unreadable w)); [discriminate |].
    case_faulty; [discriminate |].
    rewrite !emit_spec. wsimpl. rewrite ?step_step.
    intros H. inversion H; subst; clear H.
    eexists _, _, _, _.
    split;
      [| split; [split; reflexivity | split; [reflexivity | split]]].
    + unfold dbg, denoise. destruct (verbose (flags w)); reflexivity.
    + apply (Hadd (tick (drv w)) (mkFile "" _ _)). reflexivity.
    + intros V. unfold dbg. rewrite V. reflexivity.
Qed.

(** ** Listings *)

Lemma chunk_go_concat {A} (size : nat) (l : list A) :
  forall room cur, concat (chunk_go size room cur l) = rev cur ++ l.
Proof.
  induction l as [| x l IH]; intros room cur; cbn.
  - rewrite !app_nil_r. reflexivity.
  - destruct room; cbn; rewrite IH; cbn; [reflexivity |].
    rewrite <- app_assoc. reflexivity.
Qed.

Lemma pagesOf_concat {A} (size : nat) (l : list A) :
  concat (pagesOf size l) = l.
Proof.
  unfold pagesOf. destruct size; cbn; [apply app_nil_r |].
  apply (chunk_go_concat (S size) l (S size) []).
Qed.

Lemma listPages_Ok_inv (parentID : string) (pages : list (list File)) :
  forall page filesAcc w items w',
    listPages parentID page pages filesAcc w = Ok items w' ->
    items = filesAcc ++ concat pages /\
    exists k evs,
      w' = step w (withCalls (drv w) (calls (drv w) + k)) (opsExecuted w) evs
      /\ forallb isNoise evs = true /\ failedCalls evs = [] /\
      List.filter isDebug evs = [].
Proof.
  induction pages as [| p rest IH]; intros page filesAcc w items w'; cbn.
  - unfold ret. intros H. inversion H; subst; clear H.
    split; [rewrite app_nil_r; reflexivity |].
    exists 0%nat, []. rewrite Nat.add_0_r. split; [| auto].
    unfold step. rewrite app_nil_r. destruct w' as [? ? [] ? ? ?]. reflexivity.
  - unfold bind, Files_List. rewrite apiCall_spec.
    destruct (faulty (drv w)); [discriminate |]. cbn [fst snd is_inr].
    intros H. apply IH in H as [-> (k & evs & -> & Hn & Hf & Hd)].
    split; [rewrite <- app_assoc; reflexivity |].
    exists (S k), (Remote (FilesList parentID page) true :: evs).
    rewrite step_step. wsimpl.
    split; [| split; [exact Hn | split; [exact Hf | exact Hd]]].
    f_equal. unfold withCalls. cbn. f_equal. lia.
Qed.

Lemma listFolder_Ok_inv (parentID : string) (w : World) (items : list File)
  (w' : World) :
  listFolder parentID w = Ok items w' ->
  items = childrenOf (drv w) parentID /\
  exists k evs,
    w' = step w (withCalls (drv w) (calls (drv w) + k)) (opsExecuted w) evs /\
    forallb isNoise evs = true /\ failedCalls evs = [] /\
    (verbose (flags w) = false -> List.filter isDebug evs = []).
Proof.
  unfold listFolder, bind. rewrite debugf_spec. wsimpl. intros H.
  apply listPages_Ok_inv in H as [-> (k & evs & -> & Hn & Hf & Hd)].
  cbn [app]. rewrite pagesOf_concat. split; [reflexivity |].
  exists k, (dbg w "listFolder" [parentID] ++ evs). rewrite step_step.
  split; [reflexivity |]. unfold dbg.
  destruct (verbose (flags w)); cbn; auto.
  repeat split; auto. discriminate.
Qed.

Lemma denoise_app (e1 e2 : list Event) :
  denoise (e1 ++ e2) = denoise e1 ++ denoise e2.
Proof. unfold denoise. apply List.filter_app. Qed.

Lemma denoise_noise (evs : list Event) :
  forallb isNoise evs = true -> denoise evs = [].
Proof.
  induction evs as [| e evs IH]; cbn; [reflexivity |].
  intros H. apply andb_prop in H as [He Hevs]. rewrite He. cbn. auto.
Qed.

(** ** The shape of a successful run *)

Lemma shaped_eq (d : Done) :
  shaped d <->
  if IsDir (Info (dItem d))
  then map dItem (dBelow d) = Children (dItem d) /\ Forall shaped (dBelow d)
  else dBelow d = [].
Proof.
  destruct d as [c m id below]. cbn.
  destruct (IsDir (Info c)); [| reflexivity].
  assert (H : (fix all (l : list Done) : Prop :=
                 match l with
                 | [] => True
                 | x :: l' => shaped x /\ all l'
                 end) below <-> Forall shaped below).
  { induction below as [| x l IH]; [split; auto |].
    rewrite Forall_cons, IH. reflexivity. }
  rewrite H. reflexivity.
Qed.

Lemma rebuild_eq (d : Done) :
  rebuild d =
  if IsDir (Info (dItem d))
  then mkNode (FullPath (dItem d)) (Info (dItem d))
              (map rebuild (dBelow d)) (dNewID d)
  else withDriveID (dItem d) (dNewID d).
Proof. destruct d; reflexivity. Qed.

Lemma runEvents_eq (w : World) (parentID : string) (d : Done) :
  runEvents w parentID d =
  ownEvents w parentID (dItem d) (dMatch d) (dNewID d) ++
  flat_map (runEvents w (dNewID d)) (dBelow d).
Proof. destruct d; reflexivity. Qed.

Lemma runEvents_step (w : World) d n evs (d0 : Done) :
  forall parentID,
    runEvents (step w d n evs) parentID d0 = runEvents w parentID d0.
Proof.
  induction d0 as [c m id below IH] using Done_ind'. intros parentID.
  rewrite !runEvents_eq. cbn [dItem dMatch dNewID dBelow]. f_equal.
  induction IH as [| x l Hx _ IHl]; cbn; [reflexivity |].
  rewrite Hx, IHl. reflexivity.
Qed.

Lemma flat_map_runEvents_step (w : World) d n evs parentID
  (ds : list Done) :
  flat_map (runEvents (step w d n evs) parentID) ds =
  flat_map (runEvents w parentID) ds.
Proof.
  induction ds as [| x l IH]; cbn; [reflexivity |].
  rewrite runEvents_step, IH. reflexivity.
Qed.

Lemma childrenOf_In (d : Drive) (parentID : string) (r : File) :
  In r (childrenOf d parentID) -> In r (files d).
Proof.
  unfold childrenOf. rewrite in_flat_map. intros ([p c] & _ & H). cbn in H.
  destruct (String.eqb p parentID); [| destruct H].
  destruct (lookupFile d c) as [f |] eqn:E; [| destruct H].
  destruct H as [<- | []]. unfold lookupFile in E.
  apply find_some in E. apply E.
Qed.

Lemma knownFile_trans (w0 w : World) (f : File) :
  filesKnown w0 (drv w) -> knownFile w f -> knownFile w0 f.
Proof. intros H [Hin | Hgen]; [apply H, Hin | right; exact Hgen]. Qed.

Lemma idKnown_trans (w0 w : World) (d : Done) :
  filesKnown w0 (drv w) -> idKnown w d -> idKnown w0 d.
Proof.
  intros H [Hm Hid]. split; [| exact Hid].
  intros r Hr. eapply knownFile_trans; [exact H | apply Hm, Hr].
Qed.

Lemma flatten_cons (d : Done) (ds : list Done) :
  flatten (d :: ds) = d :: flatten (dBelow d) ++ flatten ds.
Proof. destruct d; reflexivity. Qed.

Lemma eachItem_shape (remoteItems : list File) (nodeID : string)
  (cs : list Node) :
  Forall (fun c => forall id w c' w',
            processNode c id w = Ok c' w' ->
            exists ds, runShape c id w c' w' ds) cs ->
  forall w0 w cs' w',
    Forall (knownFile w0) remoteItems ->
    filesKnown w0 (drv w) ->
    eachItem (fun c => processItem remoteItems nodeID c (processNode c))
             cs w = Ok cs' w' ->
    exists ds d1 n1 evs,
      map dItem ds = cs /\
      Forall shaped ds /\
      cs' = map rebuild ds /\
      Forall (idKnown w0) (flatten ds) /\
      w' = step w d1 n1 evs /\
      filesKnown w0 d1 /\
      (verbose (flags w) = false -> List.filter isDebug evs = []) /\
      denoise evs = flat_map (runEvents w nodeID) ds.
Proof.
  induction 1 as [| c cs Hc _ IH]; intros w0 w cs' w' Hrem Hfiles; cbn.
  - unfold ret. intros H. inversion H; subst; clear H.
    exists [], (drv w'), (opsExecuted w'), [].
    rewrite step_id.
    split; [reflexivity |]. split; [constructor |]. split; [reflexivity |].
    split; [constructor |]. split; [reflexivity |].
    split; [exact Hfiles |]. split; reflexivity.
  - unfold bind at 1.
    destruct (processItem remoteItems nodeID c (processNode c) w)
      as [c1 w1 | | |] eqn:Hitem; try discriminate.
    unfold bind at 1.
    destruct (eachItem _ cs w1) as [cs1 w2 | | |] eqn:Hrest;
      try discriminate.
    unfold ret. intros H. inversion H; subst; clear H.
    apply processItem_Ok_inv in Hitem
      as (newID & d1 & n1 & evs1 & Hown & Hcont & Hid & Hk1 & Hdb1).
    set (m := findRemote remoteItems (Name (Info c))) in *.
    assert (Hk1' : filesKnown w0 d1).
    { intros f Hf. eapply knownFile_trans; [exact Hfiles | apply Hk1, Hf]. }
    assert (Hidk : forall below, idKnown w0 (mkDone c m newID below)).
    { intros below. split; cbn [dMatch dItem dNewID].
      - intros r Hr. unfold m, findRemote in Hr.
        apply find_some in Hr as [Hin _].
        rewrite List.Forall_forall in Hrem. apply Hrem, Hin.
      - eexists. exact Hid. }
    assert (exists below d2 n2 evs2,
               w1 = step w d2 n2 evs2 /\
               filesKnown w0 d2 /\
               (verbose (flags w) = false ->
                List.filter isDebug evs2 = []) /\
               Forall (idKnown w0) (flatten below) /\
               denoise evs2 = runEvents w nodeID (mkDone c m newID below) /\
               shaped (mkDone c m newID below) /\
               c1 = rebuild (mkDone c m newID below))
      as (below & d2 & n2 & evs2 & -> & Hk2 & Hdb2 & Hbelow & Hev & Hsh &
          ->).
    { destruct (IsDir (Info c)) eqn:Hdir.
      - apply Hc in Hcont
          as (below & Hitems & Hshaped & -> & Hidb &
              d2 & n2 & evs2 & -> & Hk2 & Hdb2 & Hev).
        exists below, d2, n2, (evs1 ++ evs2). rewrite step_step.
        split; [reflexivity |].
        split.
        { intros f Hf.
          apply (knownFile_trans w0 (step w d1 n1 evs1));
            [exact Hk1' | apply Hk2, Hf]. }
        split.
        { intros V. rewrite List.filter_app, Hdb1, Hdb2 by exact V.
          reflexivity. }
        split.
        { eapply Forall_impl; [exact Hidb |].
          intros d. apply (idKnown_trans w0 (step w d1 n1 evs1)).
          exact Hk1'. }
        rewrite runEvents_eq, shaped_eq, rebuild_eq. cbn [dItem dBelow].
        rewrite Hdir, denoise_app, Hown, Hev. cbn [dMatch dNewID dBelow].
        rewrite flat_map_runEvents_step. repeat split; auto.
      - destruct Hcont as [-> ->].
        exists [], d1, n1, evs1. split; [reflexivity |].
        split; [exact Hk1' |]. split; [exact Hdb1 |]. split; [constructor |].
        rewrite runEvents_eq, shaped_eq, rebuild_eq. cbn [dItem dBelow].
        rewrite Hdir, Hown. cbn. rewrite app_nil_r. auto. }
    apply (IH w0) in Hrest
      as (ds & d3 & n3 & evs3 & <- & Hshaped & -> & Hids & -> & Hk3 & Hdb3 &
          Hev3);
      [| exact Hrem | exact Hk2].
    exists (mkDone c m newID below :: ds), d3, n3, (evs2 ++ evs3).
    rewrite step_step.
    split; [reflexivity |]. split; [constructor; assumption |].
    split; [reflexivity |].
    split.
    { rewrite flatten_cons. cbn [dBelow]. constructor; [apply Hidk |].
      apply Forall_app. auto. }
    split; [reflexivity |]. split; [exact Hk3 |].
    split.
    { intros V. rewrite List.filter_app, Hdb2, Hdb3 by exact V.
      reflexivity. }
    rewrite denoise_app, Hev, Hev3, flat_map_runEvents_step. reflexivity.
Qed.

Lemma processNode_shape (n : Node) :
  forall nodeID w n' w',
    processNode n nodeID w = Ok n' w' ->
    exists ds, runShape n nodeID w n' w' ds.
Proof.
  induction n as [fp info cs id IH] using Node_ind'.
  intros nodeID w n' w'. rewrite processNode_eq. cbn [FullPath Info Children].
  unfold bind at 1. rewrite debugf_spec.
  unfold bind at 1, wrapErr.
  destruct (listFolder nodeID _) as [remoteItems w1 | | |] eqn:Hlist;
    try discriminate.
  apply listFolder_Ok_inv in Hlist
    as [-> (k & evs1 & -> & Hnoise & _ & Hdb1)].
  rewrite step_step. unfold bind at 1.
  destruct (eachItem _ cs _) as [cs' w2 | | |] eqn:Heach; try discriminate.
  unfold ret. intros H. inversion H; subst; clear H.
  apply (eachItem_shape _ _ _ IH w) in Heach
    as (ds & d2 & n2 & evs2 & <- & Hshaped & -> & Hids & -> & Hk & Hdb2 &
        Hev).
  - exists ds. unfold runShape. cbn [FullPath Info Children].
    repeat split; auto. eexists d2, n2, _. rewrite step_step.
    split; [reflexivity |]. split; [exact Hk |].
    split.
    { intros V. rewrite !List.filter_app, Hdb2 by exact V.
      rewrite Hdb1 by (unfold dbg; exact V).
      unfold dbg. rewrite V. reflexivity. }
    rewrite !denoise_app, (denoise_noise evs1 Hnoise), Hev.
    rewrite flat_map_runEvents_step.
    unfold dbg. destruct (verbose (flags w)); reflexivity.
  - rewrite List.Forall_forall. intros r Hr. left.
    apply childrenOf_In in Hr. exact Hr.
  - intros f Hf. left. exact Hf.
Qed.

(** ** Reading a run off its results *)

Lemma entries_eq (n : Node) :
  entries n =
  flat_map (fun c => c :: (if IsDir (Info c) then entries c else []))
           (Children n).
Proof. destruct n; reflexivity. Qed.

Lemma flat1_eq (d : Done) : flat1 d = d :: flatten (dBelow d).
Proof. destruct d; reflexivity. Qed.

Lemma flatten_entries_one (d : Done) :
  shaped d ->
  map dItem (flat1 d) =
  dItem d :: (if IsDir (Info (dItem d)) then entries (dItem d) else []).
Proof.
  induction d as [c m id below IH] using Done_ind'.
  rewrite shaped_eq, flat1_eq. cbn [dItem dBelow map]. intros Hsh. f_equal.
  destruct (IsDir (Info c)); [| subst below; reflexivity].
  destruct Hsh as [Hitems Hall]. rewrite entries_eq, <- Hitems. clear Hitems.
  induction below as [| x l IHl]; [reflexivity |].
  inversion IH as [| ? ? Hx Hl]; subst. inversion Hall as [| ? ? Sx Sl]; subst.
  unfold flatten in *. cbn [flat_map map]. rewrite map_app, (Hx Sx).
  rewrite (IHl Hl Sl). reflexivity.
Qed.

Lemma flatten_entries (n : Node) (ds : list Done) :
  map dItem ds = Children n -> Forall shaped ds ->
  map dItem (flatten ds) = entries n.
Proof.
  intros Hitems Hall. rewrite entries_eq, <- Hitems. clear Hitems.
  induction Hall as [| d l Hd _ IH]; [reflexivity |].
  unfold flatten in *. cbn [flat_map map].
  rewrite map_app, (flatten_entries_one d Hd), IH. reflexivity.
Qed.

Section Observations.

Context {B : Type}.
Variable g : Event -> list B.
Variable w : World.
Variable h : Done -> list B.

Hypothesis g_own :
  forall parentID d,
    flat_map g (ownEvents w parentID (dItem d) (dMatch d) (dNewID d)) = h d.

Lemma observe_one (d : Done) :
  forall parentID,
    flat_map g (runEvents w parentID d) = flat_map h (flat1 d).
Proof.
  induction d as [c m id below IH] using Done_ind'. intros parentID.
  rewrite runEvents_eq, flat1_eq, flat_map_app, g_own.
  cbn [flat_map dBelow dNewID]. f_equal.
  induction IH as [| x l Hx _ IHl]; [reflexivity |].
  unfold flatten in *. cbn [flat_map]. rewrite !flat_map_app, Hx, IHl.
  reflexivity.
Qed.

Lemma observe_run (parentID : string) (ds : list Done) :
  flat_map g (flat_map (runEvents w parentID) ds) = flat_map h (flatten ds).
Proof.
  induction ds as [| d l IH]; [reflexivity |].
  unfold flatten in *. cbn [flat_map].
  rewrite !flat_map_app, observe_one, IH. reflexivity.
Qed.

Hypothesis g_noise : forall e, isNoise e = true -> g e = [].

Lemma observe_denoise (evs : list Event) :
  flat_map g (denoise evs) = flat_map g evs.
Proof.
  unfold denoise. induction evs as [| e evs IH]; [reflexivity |].
  cbn [List.filter flat_map].
  destruct (isNoise e) eqn:E; cbn [negb flat_map]; rewrite IH;
    [rewrite (g_noise e E) |]; reflexivity.
Qed.

End Observations.

Lemma flat_map_singleton {A B} (f : A -> B) (l : list A) :
  flat_map (fun x => [f x]) l = map f l.
Proof. induction l; cbn; congruence. Qed.

Lemma zip_with_maps {A B C D} (f : B -> C -> D) (p : A -> B) (q : A -> C)
  (l : list A) :
  zip_with f (map p l) (map q l) = map (fun x => f (p x) (q x)) l.
Proof. induction l; cbn; congruence. Qed.

Lemma stdout_of_run (w : World) (parentID : string) (ds : list Done) :
  stdoutOf (flat_map (runEvents w parentID) ds) =
  map (fun d => lineOf w (dItem d) (dStatus d)) (flatten ds).
Proof.
  unfold stdoutOf.
  rewrite (observe_run _ w (fun d => [lineOf w (dItem d) (dStatus d)])).
  - apply flat_map_singleton.
  - intros pid [c m id below]. unfold ownEvents, lineOf, dStatus.
    cbn [dItem dMatch dNewID].
    destruct m, (IsDir (Info c)); reflexivity.
Qed.

Lemma writes_of_run (w : World) (parentID : string) (ds : list Done) :
  writeKinds (flat_map (runEvents w parentID) ds) =
  flat_map (fun d => writesOf (IsDir (Info (dItem d))) (dStatus d))
           (flatten ds).
Proof.
  unfold writeKinds. apply observe_run.
  intros pid [c m id below]. unfold ownEvents, dStatus, uploadCall.
  cbn [dItem dMatch dNewID].
  destruct m, (IsDir (Info c)); reflexivity.
Qed.


Lemma stdoutOf_denoise (evs : list Event) :
  stdoutOf (denoise evs) = stdoutOf evs.
Proof.
  apply observe_denoise. intros [] H; try discriminate; reflexivity.
Qed.

Lemma writeKinds_denoise (evs : list Event) :
  writeKinds (denoise evs) = writeKinds evs.
Proof.
  apply observe_denoise. intros [| | | | c ok | |] H; try discriminate;
    try reflexivity.
  destruct c; try discriminate. reflexivity.
Qed.


(** ** The local tree builder *)

Lemma linkedNode_nil (h : gmap string dt.Node) (q : string) (n : dt.Node) :
  linkedNode h [] q n = n.
Proof.
  unfold linkedNode. cbn. rewrite app_nil_r. destruct n; reflexivity.
Qed.

Lemma isSome_alter (f : dt.Node -> dt.Node) (i : string)
  (m : gmap string dt.Node) (x : string) :
  isSome (alter f i m !! x) = isSome (m !! x).
Proof.
  rewrite lookup_alter. case_decide; [subst; destruct (m !! x) |];
    reflexivity.
Qed.

Lemma lookup_linked (h : gmap string dt.Node) (p q : string) :
  alter (dt.addChild p) (filepath.Dir p)
        (alter (dt.setParent (filepath.Dir p)) p h) !! q =
  (fun n =>
     (if String.eqb (filepath.Dir p) q then dt.addChild p n else n)) <$>
  ((fun n =>
      (if String.eqb p q then dt.setParent (filepath.Dir p) n else n)) <$>
   h !! q).
Proof.
  rewrite !lookup_alter.
  destruct (String.eqb_spec (filepath.Dir p) q) as [Hd | Hd];
    destruct (String.eqb_spec p q) as [Hp | Hp].
  - subst q. rewrite <- !Hp. rewrite !decide_True by reflexivity.
    destruct (h !! p); reflexivity.
  - rewrite decide_True by exact Hd. subst q.
    rewrite decide_False by exact Hp.
    destruct (h !! filepath.Dir p); reflexivity.
  - rewrite decide_False by exact Hd. rewrite decide_True by exact Hp.
    subst q. destruct (h !! p); reflexivity.
  - rewrite !decide_False by assumption. destruct (h !! q); reflexivity.
Qed.

Lemma fold_link_lookup (done : list string) :
  forall (h : gmap string dt.Node) (r : option string) (q : string),
    fst (fold_left dt.link done (h, r)) !! q =
    linkedNode h done q <$> h !! q.
Proof.
  induction done as [| p done IH]; intros h r q.
  - cbn [fold_left fst]. destruct (h !! q) as [n |] eqn:E; cbn; [| done].
    rewrite linkedNode_nil. reflexivity.
  - cbn [fold_left]. unfold dt.link at 2. cbn [fst snd].
    destruct (h !! filepath.Dir p) as [par |] eqn:Hpar.
    + rewrite IH, lookup_linked.
      destruct (h !! q) as [n |] eqn:E; cbn; [| reflexivity].
      unfold linkedNode. rewrite !isSome_alter. cbn [existsb List.filter].
      rewrite (String.eqb_sym q p).
      destruct (String.eqb_spec p q) as [Hp | Hp];
        destruct (String.eqb_spec (filepath.Dir p) q) as [Hd | Hd]; cbn.
      * rewrite <- app_assoc. subst q. rewrite Hpar. cbn.
        destruct (existsb _ done); reflexivity.
      * subst q. rewrite Hpar. cbn. destruct (existsb _ done); reflexivity.
      * rewrite <- app_assoc. reflexivity.
      * reflexivity.
    + rewrite IH. destruct (h !! q) as [n |] eqn:E; cbn; [| reflexivity].
      unfold linkedNode. cbn [existsb List.filter]. f_equal. f_equal.
      * destruct (String.eqb_spec (filepath.Dir p) q) as [Hd | Hd];
          [| reflexivity].
        congruence.
      * destruct (String.eqb_spec q p) as [-> | Hqp]; [| reflexivity].
        rewrite Hpar. cbn. rewrite andb_false_r. reflexivity.
Qed.

Lemma fold_link_result (h0 : gmap string dt.Node) (done : list string) :
  forall (h : gmap string dt.Node) (r : option string),
    (forall x, isSome (h !! x) = isSome (h0 !! x)) ->
    snd (fold_left dt.link done (h, r)) = fold_left (noParent h0) done r.
Proof.
  induction done as [| p done IH]; intros h r Hdom; [reflexivity |].
  cbn [fold_left]. unfold dt.link at 2, noParent at 2. cbn [fst snd].
  rewrite <- Hdom.
  destruct (h !! filepath.Dir p) as [par |] eqn:Hpar; cbn [isSome].
  - apply IH. intros x. rewrite !isSome_alter. apply Hdom.
  - apply IH, Hdom.
Qed.

Lemma walk_fresh (visits : list Visit) :
  forall parents m,
    freshNodes parents -> dt.walk visits parents = inr m -> freshNodes m.
Proof.
  induction visits as [| v visits IH]; intros parents m Hfresh; cbn.
  - intros H. inversion H; subst. exact Hfresh.
  - destruct (vErr v); [discriminate |]. apply IH.
    intros p n. rewrite lookup_insert. case_decide.
    + intros Hn. inversion Hn; subst. reflexivity.
    + apply Hfresh.
Qed.

Lemma walk_dom (visits : list Visit) :
  forall parents m,
    dt.walk visits parents = inr m ->
    forall p, isSome (m !! p) = true <->
              In p (map vPath visits) \/ isSome (parents !! p) = true.
Proof.
  induction visits as [| v visits IH]; intros parents m; cbn.
  - intros H p. inversion H; subst. tauto.
  - destruct (vErr v); [discriminate |]. intros H p.
    rewrite (IH _ _ H p), lookup_insert. case_decide.
    + subst p. cbn. tauto.
    + split; [intros [?|?]; auto | intros [[?|?]|?]; auto; congruence].
Qed.

Lemma walk_error (visits : list Visit) :
  forall parents e,
    dt.walk visits parents = inl e ->
    exists v, In v visits /\ vErr v = Some e.
Proof.
  induction visits as [| v visits IH]; intros parents e; cbn; [discriminate |].
  destruct (vErr v) as [e' |] eqn:E.
  - intros H. inversion H; subst. exists v. auto.
  - intros H. apply IH in H as (v' & Hin & He). exists v'. auto.
Qed.

Lemma walk_ok (visits : list Visit) :
  forall parents,
    Forall (fun v => vErr v = None) visits ->
    exists m, dt.walk visits parents = inr m.
Proof.
  induction visits as [| v visits IH]; intros parents Hall; cbn.
  - eexists. reflexivity.
  - inversion Hall as [| ? ? Hv Hrest]; subst. rewrite Hv. apply IH, Hrest.
Qed.

Lemma rangeOrder_In (rank : string -> nat) (parents : gmap string dt.Node)
  (p : string) :
  In p (dt.rangeOrder rank parents) <-> isSome (parents !! p) = true.
Proof.
  unfold dt.rangeOrder. rewrite <- list_elem_of_In.
  rewrite merge_sort_Permutation. rewrite list_elem_of_fmap.
  split.
  - intros ([q n] & -> & Hin). apply elem_of_map_to_list in Hin.
    cbn. rewrite Hin. reflexivity.
  - destruct (parents !! p) as [n |] eqn:E; [| discriminate]. intros _.
    exists (p, n). split; [reflexivity |]. apply elem_of_map_to_list, E.
Qed.

Lemma rangeOrder_NoDup (rank : string -> nat)
  (parents : gmap string dt.Node) :
  List.NoDup (dt.rangeOrder rank parents).
Proof.
  unfold dt.rangeOrder. apply NoDup_ListNoDup.
  rewrite merge_sort_Permutation. apply NoDup_fst_map_to_list.
Qed.

Lemma fold_noParent_Some (h : gmap string dt.Node) (done : list string) :
  forall acc r,
    fold_left (noParent h) done acc = Some r ->
    (In r done /\ h !! filepath.Dir r = None) \/ acc = Some r.
Proof.
  induction done as [| p done IH]; intros acc r; cbn; [auto |].
  intros H. apply IH in H as [[Hin Hr] | H]; [left; auto |].
  unfold noParent in H. destruct (h !! filepath.Dir p) eqn:E; cbn in H.
  - right. exact H.
  - inversion H; subst. left. auto.
Qed.

Lemma fold_noParent_None (h : gmap string dt.Node) (done : list string) :
  forall acc,
    fold_left (noParent h) done acc = None ->
    acc = None /\
    forall p, In p done -> isSome (h !! filepath.Dir p) = true.
Proof.
  induction done as [| p done IH]; intros acc; cbn.
  - intros ->. split; [reflexivity | intros p []].
  - intros H. apply IH in H as [Hacc Hall]. unfold noParent in Hacc.
    destruct (isSome (h !! filepath.Dir p)) eqn:E; [| discriminate].
    split; [exact Hacc |]. intros q [<- | Hq]; auto.
Qed.

Lemma count_occ_filter_NoDup (f : string -> bool) (l : list string)
  (p : string) :
  List.NoDup l -> In p l -> f p = true ->
  count_occ string_dec (List.filter f l) p = 1%nat.
Proof.
  induction 1 as [| x l Hx Hnd IH]; intros Hin Hf; [destruct Hin |].
  cbn. destruct Hin as [-> | Hin].
  - rewrite Hf. cbn. destruct (string_dec p p); [| congruence]. f_equal.
    apply count_occ_not_In. intros Hc. apply filter_In in Hc. tauto.
  - destruct (f x); [cbn; destruct (string_dec x p); [subst; tauto |] |];
      apply IH; assumption.
Qed.

Lemma NewTree_ok (os : OS) (root absRoot : string)
  (parents : gmap string dt.Node) :
  os_Abs os root = inr absRoot ->
  dt.walk (os_Walk os absRoot) ∅ = inr parents ->
  let order := dt.rangeOrder (os_mapRank os) parents in
  dt.err (dt.NewTree os root) = None /\
  dt.result (dt.NewTree os root) = fold_left (noParent parents) order None /\
  forall q,
    dt.heap (dt.NewTree os root) !! q =
    linkedNode parents order q <$> parents !! q.
Proof.
  intros Habs Hwalk order. unfold dt.NewTree. rewrite Habs, Hwalk.
  cbn [dt.err dt.result dt.heap].
  split; [reflexivity |]. split.
  - apply fold_link_result. reflexivity.
  - intros q. apply fold_link_lookup.
Qed.


Lemma rebuild_IsDir (d : Done) :
  IsDir (Info (rebuild d)) = IsDir (Info (dItem d)).
Proof.
  rewrite rebuild_eq. destruct (IsDir (Info (dItem d))) eqn:E; cbn;
    [exact E | exact E].
Qed.


Lemma rebuild_entries_one (d : Done) :
  shaped d ->
  map rebuild (flat1 d) =
  rebuild d :: (if IsDir (Info (dItem d)) then entries (rebuild d) else []).
Proof.
  induction d as [c m id below IH] using Done_ind'.
  rewrite shaped_eq, flat1_eq. cbn [dItem dBelow map]. intros Hsh. f_equal.
  destruct (IsDir (Info c)) eqn:Hdir; [| subst below; reflexivity].
  destruct Hsh as [_ Hall]. rewrite rebuild_eq, entries_eq.
  cbn [dItem dBelow dNewID Children]. rewrite Hdir. cbn [Children].
  clear Hdir. induction below as [| x l IHl]; [reflexivity |].
  inversion IH as [| ? ? Hx Hl]; subst. inversion Hall as [| ? ? Sx Sl]; subst.
  unfold flatten in *. cbn [flat_map map]. rewrite map_app, (Hx Sx).
  rewrite (IHl Hl Sl), rebuild_IsDir. reflexivity.
Qed.

Lemma rebuild_entries (fp : string) (info : FileInfo) (id : string)
  (ds : list Done) :
  Forall shaped ds ->
  map rebuild (flatten ds) = entries (mkNode fp info (map rebuild ds) id).
Proof.
  intros Hall. rewrite entries_eq. cbn [Children].
  induction Hall as [| d l Hd _ IH]; [reflexivity |].
  unfold flatten in *. cbn [flat_map map].
  rewrite map_app, (rebuild_entries_one d Hd), IH, rebuild_IsDir.
  reflexivity.
Qed.





(** ** A first run against empty folders *)

Lemma observe_noise {B} (g : Event -> list B) (evs : list Event) :
  (forall e, isNoise e = true -> g e = []) ->
  forallb isNoise evs = true -> flat_map g evs = [].
Proof.
  intros Hg. induction evs as [| e evs IH]; cbn; [reflexivity |].
  intros H. apply andb_prop in H as [He Hevs].
  rewrite (Hg e He), (IH Hevs). reflexivity.
Qed.

Lemma stdoutOf_noise (evs : list Event) :
  forallb isNoise evs = true -> stdoutOf evs = [].
Proof.
  apply observe_noise. intros [] H; try discriminate; reflexivity.
Qed.

Lemma writeKinds_noise (evs : list Event) :
  forallb isNoise evs = true -> writeKinds evs = [].
Proof.
  apply observe_noise. intros [| | | | c ok | |] H; try discriminate;
    try reflexivity.
  destruct c; try discriminate. reflexivity.
Qed.

Lemma folderCreations_noise (evs : list Event) :
  forallb isNoise evs = true -> folderCreations evs = [].
Proof.
  apply observe_noise. intros [| | | | c ok | |] H; try discriminate;
    try reflexivity.
  destruct c; try discriminate. reflexivity.
Qed.

Lemma faulty_nil (d : Drive) : faults d = [] -> faulty d = false.
Proof. unfold faulty. intros ->. reflexivity. Qed.

Lemma listPages_ok (parentID : string) (pages : list (list File)) :
  forall page filesAcc w,
    faults (drv w) = [] ->
    exists k evs,
      listPages parentID page pages filesAcc w =
      Ok (filesAcc ++ concat pages)
         (step w (withCalls (drv w) k) (opsExecuted w) evs) /\
      forallb isNoise evs = true.
Proof.
  induction pages as [| p rest IH]; intros page filesAcc w Hf; cbn.
  - exists (calls (drv w)), []. rewrite app_nil_r. split; [| reflexivity].
    unfold ret, step. rewrite app_nil_r. destruct w as [? ? [] ? ? ?].
    reflexivity.
  - unfold bind, Files_List. rewrite apiCall_spec, (faulty_nil _ Hf).
    cbn [fst snd is_inr].
    destruct (IH (S page) (filesAcc ++ p)
                 (step w (tick (drv w)) (opsExecuted w)
                       [Remote (FilesList parentID page) true]) Hf)
      as (k & evs & -> & Hn).
    exists k, (Remote (FilesList parentID page) true :: evs).
    rewrite step_step, <- app_assoc. split; [reflexivity | exact Hn].
Qed.

Lemma listFolder_ok (parentID : string) (w : World) :
  faults (drv w) = [] ->
  exists k evs,
    listFolder parentID w =
    Ok (childrenOf (drv w) parentID)
       (step w (withCalls (drv w) k) (opsExecuted w) evs) /\
    forallb isNoise evs = true.
Proof.
  intros Hf. unfold listFolder, bind. rewrite debugf_spec.
  destruct (listPages_ok parentID
              (pagesOf (pageSize (drv w)) (childrenOf (drv w) parentID))
              0 [] (step w (drv w) (opsExecuted w)
                         (dbg w "listFolder" [parentID])) Hf)
    as (k & evs & E & Hn).
  wsimpl. rewrite E. cbn [app]. rewrite pagesOf_concat, step_step.
  exists k, (dbg w "listFolder" [parentID] ++ evs).
  split; [reflexivity |]. unfold dbg.
  destruct (verbose (flags w)); exact Hn.
Qed.

Lemma id_of_inj (j k : nat) : id_of j = id_of k -> j = k.
Proof.
  unfold id_of. intros H. inversion H as [H']. apply pretty_nat_inj in H'.
  exact H'.
Qed.

Lemma entries_length (n : Node) :
  length (entries n) = list_sum (map span (Children n)).
Proof.
  rewrite entries_eq. induction (Children n) as [| c cs IH]; [reflexivity |].
  cbn [flat_map map list_sum]. rewrite length_app, IH. reflexivity.
Qed.

Lemma annotate_eq (k : nat) (c : Node) :
  annotate k c =
  mkNode (FullPath c) (Info c)
         (if IsDir (Info c) then annotateList (S k) (Children c)
          else Children c)
         (id_of k).
Proof.
  destruct c as [fp info cs id]. reflexivity.
Qed.

Lemma firstRun_refl (w : World) :
  faults (drv w) = [] -> firstRun w w [] [].
Proof.
  intros Hf. exists (drv w), []. cbn. rewrite Z.add_0_r, !app_nil_r.
  rewrite Nat.add_0_r. repeat split; auto.
  unfold step. rewrite app_nil_r. destruct w; reflexivity.
Qed.

Lemma firstRun_trans (w w1 w2 : World) a1 l1 a2 l2 :
  firstRun w w1 a1 l1 -> firstRun w1 w2 a2 l2 ->
  firstRun w w2 (a1 ++ a2) (l1 ++ l2).
Proof.
  intros (d1 & evs1 & -> & Hf1 & Hl1 & Hn1 & Hfa1 & Hp1 & Ho1 & Hc1 & Hk1)
         (d2 & evs2 & -> & Hf2 & Hl2 & Hn2 & Hfa2 & Hp2 & Ho2 & Hc2 & Hk2).
  wsimpl. exists d2, (evs1 ++ evs2). rewrite step_step.
  split; [f_equal; rewrite length_app; lia |].
  split; [rewrite Hf2, Hf1, map_app, <- app_assoc; reflexivity |].
  split; [rewrite Hl2, Hl1, <- app_assoc; reflexivity |].
  split; [rewrite Hn2, Hn1, length_app; lia |].
  split; [exact Hfa2 |]. split; [congruence |].
  unfold stdoutOf, folderCreations, writeKinds in *.
  rewrite !flat_map_app, List.filter_app, !map_app.
  rewrite Ho1, Ho2, Hc1, Hc2, Hk1, Hk2. repeat split; reflexivity.
Qed.

Lemma firstRun_noise (w : World) (k : nat) (evs : list Event) :
  faults (drv w) = [] -> forallb isNoise evs = true ->
  firstRun w (step w (withCalls (drv w) k) (opsExecuted w) evs) [] [].
Proof.
  intros Hf Hn. exists (withCalls (drv w) k), evs. cbn.
  rewrite Z.add_0_r, !app_nil_r, Nat.add_0_r.
  rewrite (stdoutOf_noise _ Hn), (folderCreations_noise _ Hn),
    (writeKinds_noise _ Hn).
  repeat split; auto.
Qed.

Lemma span_annotate (c : Node) : forall k, span (annotate k c) = span c.
Proof.
  induction c as [fp info cs id IH] using Node_ind'. intros k.
  rewrite annotate_eq. unfold span, selfAndBelow. cbn [Info IsDir length].
  f_equal. destruct (IsDir info); [| reflexivity].
  rewrite !entries_length. cbn [Children FullPath Info].
  generalize (S k). induction IH as [| x rest Hx _ IHrest]; intros j;
    [reflexivity |].
  cbn [annotateList map]. rewrite Hx. unfold list_sum. cbn [fold_right].
  f_equal. apply IHrest.
Qed.

Lemma treeOK_eq (base : string) (u : list string) (n : Node) :
  treeOK base u n =
  nodupb (map (fun c => Name (Info c)) (Children n)) &&
  forallb (fun c => itemOK base u c &&
                    (if IsDir (Info c) then treeOK base u c else true))
          (Children n).
Proof. destruct n; reflexivity. Qed.

Lemma ready_tally (size : nat) (w : World) :
  ready (S size) w ->
  wrap_int (opsExecuted w + 1) = (opsExecuted w + 1)%Z /\
  Z.ltb (maxOps (flags w)) (opsExecuted w + 1) = false.
Proof.
  intros (_ & H0 & Hle & Hmax). split.
  - apply wrap_int_small. unfold int_min, int_max in *. lia.
  - apply Z.ltb_ge. lia.
Qed.

Lemma itemOK_inv (base : string) (u : list string) (c : Node) :
  itemOK base u c = true ->
  (exists relName, filepath.Rel base (FullPath c) = Some relName) /\
  (IsDir (Info c) = false ->
   filepath.Base (FullPath c) = Name (Info c) /\
   existsb (String.eqb (FullPath c)) u = false).
Proof.
  unfold itemOK. intros H. apply andb_prop in H as [Hrel Hrest]. split.
  - destruct (filepath.Rel base (FullPath c)); [eauto | discriminate].
  - intros Hdir. rewrite Hdir in Hrest. cbn in Hrest.
    apply andb_prop in Hrest as [Hb Hu]. apply String.eqb_eq in Hb.
    apply negb_true_iff in Hu. auto.
Qed.

Lemma freshStore_addFile (d : Drive) (title mime parentID : string) :
  freshStore d -> notFuture d parentID ->
  freshStore (addFile (tick d) (mkFile (id_of (nextId d)) title mime)
                      parentID).
Proof.
  intros Hfresh Hparent k Hk. cbn [nextId addFile tick withCalls] in Hk.
  destruct (Hfresh k ltac:(lia)) as [Hl Hf].
  assert (Hne : id_of (nextId d) <> id_of k).
  { intros E. apply id_of_inj in E. lia. }
  split.
  - intros l Hin. cbn [links addFile tick withCalls] in Hin.
    apply in_app_or in Hin as [Hin | [<- | []]]; [apply Hl, Hin |].
    cbn. split; [apply Hparent; lia | exact Hne].
  - intros f Hin. cbn [files addFile tick withCalls] in Hin.
    apply in_app_or in Hin as [Hin | [<- | []]]; [apply Hf, Hin |].
    exact Hne.
Qed.

Lemma run1_item (c : Node) (id : string) (w : World) :
  firstRunOK c ->
  ready (span c) w ->
  itemOK (localDirToPush (flags w)) (unreadable w) c = true ->
  (IsDir (Info c) = true ->
   treeOK (localDirToPush (flags w)) (unreadable w) c = true) ->
  freshStore (drv w) ->
  notFuture (drv w) id ->
  exists w',
    processItem [] id c (processNode c) w =
    Ok (annotate (nextId (drv w)) c) w' /\
    firstRun w w' (selfAndBelow (annotate (nextId (drv w)) c))
             (newLinks id (annotate (nextId (drv w)) c)) /\
    freshStore (drv w').
Proof.
  intros IH Hready Hitem Htree Hfresh Hid.
  destruct (itemOK_inv _ _ _ Hitem) as [(relName & Hrel) Hfile].
  pose proof Hready as (Hf & H0 & Hle & Hmax).
  destruct (ready_tally _ w Hready) as [Hwrap Hlt].
  unfold processItem, bind, getFlags. rewrite Hrel. cbn [findRemote find].
  unfold assign, printf, wrapErr, ret.
  rewrite annotate_eq. unfold selfAndBelow. cbn [Info IsDir].
  destruct (IsDir (Info c)) eqn:Hdir; cbn [negb].
  - (* a directory: created, then walked *)
    rewrite createFolder_spec. cbn zeta. rewrite Hwrap, Hlt.
    rewrite (faulty_nil _ Hf), !emit_spec. wsimpl. rewrite ?step_step.
    set (d1 := addFile (tick (drv w))
                 (mkFile (id_of (nextId (drv w))) (Name (Info c))
                         folderMimeType) id).
    match goal with
    | |- context [processNode c _ ?x] => set (w1 := x)
    end.
    assert (Hfresh1 : freshStore d1)
      by (apply freshStore_addFile; assumption).
    destruct (IH (id_of (nextId (drv w))) w1) as (w2 & Hrun & Hfirst & Hfr2).
    { unfold ready, span, selfAndBelow in *. subst w1. wsimpl.
      rewrite Hdir in Hle. cbn [length] in Hle.
      repeat split; auto; lia. }
    { apply Htree. reflexivity. }
    { exact Hfresh1. }
    { intros k Hk E. apply id_of_inj in E. subst w1 d1. cbn in Hk. lia. }
    { intros l Hin. subst w1 d1. cbn in Hin.
      apply in_app_or in Hin as [Hin | [<- | []]].
      - apply (Hfresh (nextId (drv w)) ltac:(lia)), Hin.
      - cbn. apply Hid. lia. }
    exists w2. subst w1 d1. wsimpl. rewrite Hrun.
    split; [reflexivity |]. split; [| exact Hfr2].
    cbn [newLinks Info IsDir DriveID Children]. rewrite Hdir.
    rewrite entries_eq. cbn [Children].
    refine (firstRun_trans w _ w2 [_] [_] _ _ _ Hfirst).
    eexists _, _. split; [cbn [length]; reflexivity |].
    wsimpl. unfold entryFile, mimeOf, lineOf, statusLine, relNameOf, dbg.
    destruct (verbose (flags w));
      cbn -[filepath.Rel humanize_Bytes uint64 Z.of_nat Z.add];
      unfold isDirectory; cbn [Info];
      rewrite ?Hdir, ?Hrel; repeat split; auto; lia.
  - (* a file: uploaded *)
    destruct (Hfile eq_refl) as [Hbase Hopen].
    rewrite createFile_spec. cbn zeta. rewrite Hwrap, Hlt, Hopen.
    rewrite (faulty_nil _ Hf), !emit_spec. wsimpl. rewrite ?step_step.
    eexists. split; [reflexivity |]. split.
    + cbn [newLinks Info IsDir DriveID]. rewrite Hdir.
      eexists _, _. split; [cbn [length]; reflexivity |].
      wsimpl. unfold entryFile, mimeOf, lineOf, statusLine, relNameOf, dbg.
      destruct (verbose (flags w));
        cbn -[filepath.Rel filepath.Ext filepath.Base TypeByExtension
              humanize_Bytes uint64 Z.of_nat Z.add];
        unfold isDirectory; cbn [Info];
        rewrite ?Hdir, ?Hrel, ?Hbase; repeat split; auto; lia.
    + wsimpl. apply freshStore_addFile; assumption.
Qed.

Lemma firstRun_ready (w w' : World) (added : list Node) linked
  (size : nat) :
  firstRun w w' added linked ->
  ready (length added + size) w -> ready size w'.
Proof.
  intros (d' & evs & -> & _ & _ & _ & Hfa & _) (_ & H0 & Hle & Hmax).
  unfold ready. wsimpl. repeat split; auto; lia.
Qed.

Lemma firstRun_notFuture (w w' : World) added linked (id : string) :
  firstRun w w' added linked ->
  notFuture (drv w) id -> notFuture (drv w') id.
Proof.
  intros (d' & evs & -> & _ & _ & Hn & _) Hid k Hk. wsimpl.
  apply Hid. lia.
Qed.

Lemma firstRun_world (w w' : World) added linked :
  firstRun w w' added linked ->
  flags w' = flags w /\ unreadable w' = unreadable w /\
  nextId (drv w') = (nextId (drv w) + length added)%nat.
Proof.
  intros (d' & evs & -> & _ & _ & Hn & _). wsimpl. auto.
Qed.

Lemma selfAndBelow_length (k : nat) (c : Node) :
  length (selfAndBelow (annotate k c)) = span c.
Proof. apply span_annotate. Qed.

Lemma run1_loop (id : string) (cs : list Node) :
  Forall firstRunOK cs ->
  forall w,
    ready (list_sum (map span cs)) w ->
    forallb (fun c => itemOK (localDirToPush (flags w)) (unreadable w) c &&
                      (if IsDir (Info c)
                       then treeOK (localDirToPush (flags w)) (unreadable w) c
                       else true)) cs = true ->
    freshStore (drv w) ->
    notFuture (drv w) id ->
    exists w',
      eachItem (fun c => processItem [] id c (processNode c)) cs w =
      Ok (annotateList (nextId (drv w)) cs) w' /\
      firstRun w w'
        (flat_map selfAndBelow (annotateList (nextId (drv w)) cs))
        (flat_map (newLinks id) (annotateList (nextId (drv w)) cs)) /\
      freshStore (drv w').
Proof.
  induction 1 as [| c cs Hc _ IH]; intros w Hready Hall Hfresh Hid.
  - exists w. split; [reflexivity |]. split; [| exact Hfresh].
    apply firstRun_refl, Hready.
  - cbn [forallb] in Hall. apply andb_prop in Hall as [Hitem Hrest].
    apply andb_prop in Hitem as [Hitem Htree].
    cbn [map list_sum] in Hready.
    destruct (run1_item c id w Hc) as (w1 & Hrun & Hfirst & Hfr1); auto.
    { destruct Hready as (? & ? & ? & ?). unfold ready.
      repeat split; auto. change (list_sum (span c :: map span cs))
        with (span c + list_sum (map span cs))%nat in *. lia. }
    { intros Hdir. rewrite Hdir in Htree. exact Htree. }
    destruct (firstRun_world _ _ _ _ Hfirst) as (Hfl & Hun & Hnext).
    rewrite selfAndBelow_length in Hnext.
    destruct (IH w1) as (w2 & Hrun2 & Hfirst2 & Hfr2).
    { apply (firstRun_ready w w1 _ _ _ Hfirst).
      rewrite selfAndBelow_length. exact Hready. }
    { rewrite Hfl, Hun. exact Hrest. }
    { exact Hfr1. }
    { apply (firstRun_notFuture w w1 _ _ id Hfirst Hid). }
    exists w2. cbn [eachItem annotateList flat_map]. unfold bind.
    rewrite Hrun. fold (eachItem (fun c0 => processItem [] id c0
                                              (processNode c0))).
    rewrite Hrun2. rewrite Hnext. unfold ret.
    split; [reflexivity |]. split; [| exact Hfr2].
    apply (firstRun_trans w w1 w2); [exact Hfirst |].
    rewrite <- Hnext. exact Hfirst2.
Qed.

Lemma childrenOf_nil (d : Drive) (id : string) :
  (forall l, In l (links d) -> fst l <> id) -> childrenOf d id = [].
Proof.
  unfold childrenOf. induction (links d) as [| l ls IH]; intros H;
    [reflexivity |].
  cbn [flat_map].
  destruct (String.eqb_spec (fst l) id) as [E | E].
  - exfalso. apply (H l); [left; reflexivity | exact E].
  - cbn. apply IH. intros l' Hl'. apply H. right. exact Hl'.
Qed.

Lemma firstRunOK_all (n : Node) : firstRunOK n.
Proof.
  induction n as [fp info cs id0 IH] using Node_ind'.
  intros id w Hready Htree Hfresh Hid Hlinks.
  rewrite processNode_eq. cbn [FullPath Info Children].
  rewrite treeOK_eq in Htree. cbn [Children] in Htree.
  apply andb_prop in Htree as [_ Hall].
  pose proof Hready as (Hf & _).
  unfold bind at 1. rewrite debugf_spec. unfold bind at 1, wrapErr.
  destruct (listFolder_ok id
              (step w (drv w) (opsExecuted w) (dbg w "processNode" [fp])) Hf)
    as (k & evs & Hlist & Hnoise).
  rewrite Hlist. wsimpl. rewrite (childrenOf_nil _ _ Hlinks), step_step.
  set (w1 := step w (withCalls (drv w) k) (opsExecuted w)
                  (dbg w "processNode" [fp] ++ evs)).
  assert (Hfirst0 : firstRun w w1 [] []).
  { apply firstRun_noise; [exact Hf |]. unfold dbg.
    destruct (verbose (flags w)); exact Hnoise. }
  destruct (run1_loop id cs IH w1) as (w2 & Hrun & Hfirst & Hfr2).
  - rewrite entries_length in Hready. exact Hready.
  - exact Hall.
  - exact Hfresh.
  - exact Hid.
  - exists w2. unfold bind. rewrite Hrun. unfold ret.
    split; [reflexivity |]. split; [| exact Hfr2].
    apply (firstRun_trans w w1 w2 [] [] _ _ Hfirst0 Hfirst).
Qed.

Lemma mirrored_eq (w : World) (d : Drive) (x : Node) :
  mirrored w d x <->
  childrenOf d (DriveID x) = map (entryFile w) (Children x) /\
  Forall (fun c => IsDir (Info c) = true -> mirrored w d c) (Children x).
Proof.
  destruct x as [fp info cs id]. cbn [mirrored DriveID Children].
  apply and_iff_compat_l.
  induction cs as [| c cs IH]; [split; auto |].
  split.
  - intros [Hc Hrest]. constructor; [exact Hc | apply IH, Hrest].
  - intros H. inversion H; subst. split; [assumption | apply IH; assumption].
Qed.

Lemma childrenOf_under (d : Drive) (x : string) :
  childrenOf d x =
  flat_map (fun l : string * string =>
              match lookupFile d (snd l) with
              | Some f => [f]
              | None => []
              end)
           (linksUnder x (links d)).
Proof.
  unfold childrenOf, linksUnder.
  induction (links d) as [| l ls IH]; [reflexivity |].
  cbn [flat_map List.filter].
  destruct (String.eqb (fst l) x); cbn [flat_map app]; rewrite IH;
    reflexivity.
Qed.

Lemma linksUnder_app (x : string) (l1 l2 : list (string * string)) :
  linksUnder x (l1 ++ l2) = linksUnder x l1 ++ linksUnder x l2.
Proof. apply List.filter_app. Qed.

Lemma linksUnder_cons (x : string) (l : string * string) ls :
  linksUnder x (l :: ls) =
  if String.eqb (fst l) x then l :: linksUnder x ls else linksUnder x ls.
Proof. reflexivity. Qed.

Lemma minted_split (a n m : nat) (x : string) :
  minted a (n + m) x <-> minted a n x \/ minted (a + n) m x.
Proof.
  unfold minted. split.
  - intros (j & Hj & ->).
    destruct (Nat.lt_ge_cases j (a + n)); [left | right]; exists j;
      split; auto; lia.
  - intros [(j & Hj & ->) | (j & Hj & ->)]; exists j; split; auto; lia.
Qed.

Lemma minted_S (a n : nat) (x : string) :
  minted a (S n) x <-> x = id_of a \/ minted (S a) n x.
Proof.
  unfold minted. split.
  - intros (j & Hj & ->).
    destruct (Nat.eq_dec j a) as [-> | Hne]; [left; reflexivity |].
    right. exists j. split; [lia | reflexivity].
  - intros [-> | (j & Hj & ->)]; [exists a | exists j]; split; auto; lia.
Qed.

Lemma span_eq (c : Node) :
  span c = S (if IsDir (Info c) then length (entries c) else 0).
Proof.
  unfold span, selfAndBelow. cbn [length].
  destruct (IsDir (Info c)); reflexivity.
Qed.

Lemma newLinks_eq (p : string) (c : Node) :
  newLinks p c =
  (p, DriveID c) ::
  (if IsDir (Info c) then flat_map (newLinks (DriveID c)) (Children c)
   else []).
Proof. destruct c; reflexivity. Qed.

(** No link of a subtree hangs below an identifier from elsewhere. *)
Lemma linksUnder_elsewhere (c : Node) :
  forall k p x,
    x <> p -> ~ minted k (span c) x ->
    linksUnder x (newLinks p (annotate k c)) = [].
Proof.
  induction c as [fp info cs id IH] using Node_ind'. intros k p x Hp Hx.
  rewrite newLinks_eq, annotate_eq. cbn [DriveID Info IsDir Children].
  cbn [FullPath Info] in *.
  rewrite linksUnder_cons. cbn [fst].
  destruct (String.eqb_spec p x) as [E | _]; [congruence |].
  rewrite span_eq in Hx. cbn [Info] in Hx.
  destruct (IsDir info); [| reflexivity].
  rewrite entries_length in Hx. cbn [Children] in Hx.
  assert (Hk : x <> id_of k) by (intros ->; apply Hx, minted_S; auto).
  assert (Hr : ~ minted (S k) (list_sum (map span cs)) x)
    by (intros H; apply Hx, minted_S; auto).
  clear Hx. revert Hr. generalize (S k).
  induction IH as [| c cs Hc _ IHcs]; intros j Hr; [reflexivity |].
  cbn [annotateList flat_map]. rewrite linksUnder_app.
  cbn [map list_sum] in Hr.
  change (list_sum (span c :: map span cs))
    with (span c + list_sum (map span cs))%nat in Hr.
  rewrite Hc, IHcs; auto.
  - intros H. apply Hr, minted_split. right. exact H.
  - intros H. apply Hr, minted_split. left. exact H.
Qed.

Lemma linksUnder_elsewhere_list (cs : list Node) :
  forall k p x,
    x <> p -> ~ minted k (list_sum (map span cs)) x ->
    linksUnder x (flat_map (newLinks p) (annotateList k cs)) = [].
Proof.
  induction cs as [| c cs IH]; intros k p x Hp Hx; [reflexivity |].
  cbn [annotateList flat_map]. rewrite linksUnder_app.
  cbn [map] in Hx.
  change (list_sum (span c :: map span cs))
    with (span c + list_sum (map span cs))%nat in Hx.
  rewrite linksUnder_elsewhere, IH; auto.
  - intros H. apply Hx, minted_split. right. exact H.
  - intros H. apply Hx, minted_split. left. exact H.
Qed.

(** The links below the folder of a directory are those of its children. *)
Lemma linksUnder_parent (cs : list Node) :
  forall k p,
    ~ minted k (list_sum (map span cs)) p ->
    linksUnder p (flat_map (newLinks p) (annotateList k cs)) =
    map (fun c => (p, DriveID c)) (annotateList k cs).
Proof.
  induction cs as [| c cs IH]; intros k p Hp; [reflexivity |].
  cbn [annotateList flat_map map]. rewrite linksUnder_app.
  cbn [map] in Hp.
  change (list_sum (span c :: map span cs))
    with (span c + list_sum (map span cs))%nat in Hp.
  rewrite IH by (intros H; apply Hp, minted_split; right; exact H).
  rewrite newLinks_eq, linksUnder_cons. cbn [fst].
  rewrite String.eqb_refl. cbn [app]. f_equal.
  assert (Hc : ~ minted k (span c) p)
    by (intros H; apply Hp, minted_split; left; exact H).
  rewrite annotate_eq. cbn [DriveID Info IsDir Children].
  rewrite span_eq, entries_length in Hc.
  destruct (IsDir (Info c)); [| reflexivity].
  rewrite linksUnder_elsewhere_list; [reflexivity | |].
  - intros ->. apply Hc, minted_S. auto.
  - intros H. apply Hc, minted_S. auto.
Qed.

Lemma DriveID_annotate (k : nat) (c : Node) : DriveID (annotate k c) = id_of k.
Proof. rewrite annotate_eq. reflexivity. Qed.

Lemma Info_annotate (k : nat) (c : Node) : Info (annotate k c) = Info c.
Proof. rewrite annotate_eq. reflexivity. Qed.

Lemma FullPath_annotate (k : nat) (c : Node) :
  FullPath (annotate k c) = FullPath c.
Proof. rewrite annotate_eq. reflexivity. Qed.

Lemma Children_annotate (k : nat) (c : Node) :
  Children (annotate k c) =
  if IsDir (Info c) then annotateList (S k) (Children c) else Children c.
Proof. rewrite annotate_eq. reflexivity. Qed.

Lemma selfAndBelow_annotate (k : nat) (c : Node) :
  selfAndBelow (annotate k c) =
  annotate k c ::
  (if IsDir (Info c)
   then flat_map selfAndBelow (annotateList (S k) (Children c)) else []).
Proof.
  unfold selfAndBelow at 1. rewrite Info_annotate.
  destruct (IsDir (Info c)) eqn:Hdir; [| reflexivity].
  rewrite entries_eq, Children_annotate, Hdir. reflexivity.
Qed.

Lemma list_sum_cons (n : nat) (l : list nat) :
  list_sum (n :: l) = (n + list_sum l)%nat.
Proof. reflexivity. Qed.

(** The first run hands out the identifiers in the order of the walk. *)
Lemma ids_annotate (c : Node) :
  forall k,
    map DriveID (selfAndBelow (annotate k c)) = map id_of (seq k (span c)).
Proof.
  induction c as [fp info cs id IH] using Node_ind'. intros k.
  rewrite selfAndBelow_annotate, span_eq. cbn [Info Children map seq].
  rewrite DriveID_annotate. f_equal.
  destruct (IsDir info); [| reflexivity].
  rewrite entries_length. cbn [Children].
  generalize (S k).
  induction IH as [| c cs Hc _ IHcs]; intros j; [reflexivity |].
  cbn [annotateList flat_map map]. rewrite list_sum_cons, seq_app, !map_app.
  rewrite Hc, IHcs. reflexivity.
Qed.

Lemma ids_annotateList (cs : list Node) :
  forall k,
    map DriveID (flat_map selfAndBelow (annotateList k cs)) =
    map id_of (seq k (list_sum (map span cs))).
Proof.
  induction cs as [| c cs IH]; intros k; [reflexivity |].
  cbn [annotateList flat_map map]. rewrite list_sum_cons, seq_app, !map_app.
  rewrite ids_annotate, IH. reflexivity.
Qed.

Lemma minted_annotateList (cs : list Node) (k : nat) (x : Node) :
  In x (flat_map selfAndBelow (annotateList k cs)) ->
  minted k (list_sum (map span cs)) (DriveID x).
Proof.
  intros H. apply (in_map DriveID) in H. rewrite ids_annotateList in H.
  apply in_map_iff in H as (j & <- & Hj). apply in_seq in Hj.
  exists j. split; [lia | reflexivity].
Qed.

Lemma NoDup_ids_annotateList (cs : list Node) (k : nat) :
  List.NoDup (map DriveID (flat_map selfAndBelow (annotateList k cs))).
Proof.
  rewrite ids_annotateList.
  apply Finite.Injective_map_NoDup; [| apply seq_NoDup].
  intros i j. apply id_of_inj.
Qed.

Lemma find_none_app {A} (f : A -> bool) (l l' : list A) :
  (forall x, In x l -> f x = false) -> find f (l ++ l') = find f l'.
Proof.
  induction l as [| y l IH]; intros H; [reflexivity |].
  cbn. rewrite (H y) by (left; reflexivity).
  apply IH. intros x Hx. apply H. right. exact Hx.
Qed.

(** Every entry the first run added is registered under its identifier. *)
Lemma lookup_added (w : World) (d : Drive) (old : list File)
  (added : list Node) :
  files d = old ++ map (entryFile w) added ->
  (forall f x, In f old -> In x added -> Id f <> DriveID x) ->
  List.NoDup (map DriveID added) ->
  forall x, In x added -> lookupFile d (DriveID x) = Some (entryFile w x).
Proof.
  intros Hfiles Hold Hnd x Hx. unfold lookupFile. rewrite Hfiles.
  rewrite find_none_app.
  2:{ intros f Hf. apply String.eqb_neq. apply Hold; assumption. }
  clear Hfiles Hold. induction added as [| y ys IH]; [destruct Hx |].
  cbn [map] in Hnd. inversion Hnd as [| ? ? Hy Hys]; subst.
  cbn [map find entryFile Id].
  destruct (String.eqb_spec (DriveID y) (DriveID x)) as [E | E].
  - destruct Hx as [-> | Hx]; [reflexivity |].
    exfalso. apply Hy. rewrite E. apply in_map. exact Hx.
  - destruct Hx as [-> | Hx]; [congruence |]. apply IH; assumption.
Qed.

Lemma resolve_children (w : World) (d : Drive) (p : string)
  (cs : list Node) :
  (forall x, In x cs -> lookupFile d (DriveID x) = Some (entryFile w x)) ->
  flat_map (fun l : string * string =>
              match lookupFile d (snd l) with
              | Some f => [f]
              | None => []
              end)
           (map (fun c => (p, DriveID c)) cs) =
  map (entryFile w) cs.
Proof.
  induction cs as [| c cs IH]; intros H; [reflexivity |].
  cbn [map flat_map snd]. rewrite (H c) by (left; reflexivity).
  cbn [app]. f_equal. apply IH. intros x Hx. apply H. right. exact Hx.
Qed.

Lemma id_of_not_minted (k a n : nat) :
  (k < a \/ a + n <= k)%nat -> ~ minted a n (id_of k).
Proof.
  intros Hk (j & Hj & E). apply id_of_inj in E. lia.
Qed.

(** The folders of the directories among some siblings mirror them, once
    the store holds the links and the files of their first run. *)
Lemma mirrored_siblings (w : World) (d : Drive) (cs : list Node) :
  Forall (fun c => forall k p,
            (forall x, In x (selfAndBelow (annotate k c)) ->
                       lookupFile d (DriveID x) = Some (entryFile w x)) ->
            (forall j, (k <= j < k + span c)%nat ->
                       linksUnder (id_of j) (links d) =
                       linksUnder (id_of j) (newLinks p (annotate k c))) ->
            ~ minted k (span c) p ->
            IsDir (Info c) = true ->
            mirrored w d (annotate k c)) cs ->
  forall k p,
    (forall x, In x (flat_map selfAndBelow (annotateList k cs)) ->
               lookupFile d (DriveID x) = Some (entryFile w x)) ->
    (forall j, (k <= j < k + list_sum (map span cs))%nat ->
               linksUnder (id_of j) (links d) =
               linksUnder (id_of j)
                 (flat_map (newLinks p) (annotateList k cs))) ->
    ~ minted k (list_sum (map span cs)) p ->
    Forall (fun c => IsDir (Info c) = true -> mirrored w d c)
           (annotateList k cs).
Proof.
  induction 1 as [| c cs Hc _ IH]; intros k p Hlook Hlinks Hp;
    [constructor |].
  cbn [annotateList]. cbn [map] in Hlinks, Hp.
  rewrite list_sum_cons in Hlinks, Hp.
  cbn [annotateList flat_map] in Hlook, Hlinks.
  assert (Hp1 : ~ minted k (span c) p)
    by (intros H; apply Hp, minted_split; left; exact H).
  assert (Hp2 : ~ minted (k + span c) (list_sum (map span cs)) p)
    by (intros H; apply Hp, minted_split; right; exact H).
  constructor.
  - rewrite Info_annotate. apply (Hc k p); auto.
    + intros x Hx. apply Hlook, in_or_app. left. exact Hx.
    + intros j Hj. rewrite Hlinks by lia. rewrite linksUnder_app.
      rewrite (linksUnder_elsewhere_list cs), app_nil_r; [reflexivity | |].
      * intros E. apply Hp1. exists j. split; [lia | auto].
      * apply id_of_not_minted. lia.
  - apply (IH (k + span c)%nat p); auto.
    + intros x Hx. apply Hlook, in_or_app. right. exact Hx.
    + intros j Hj. rewrite Hlinks by lia. rewrite linksUnder_app.
      rewrite (linksUnder_elsewhere c); [reflexivity | |].
      * intros E. apply Hp2. exists j. split; [lia | auto].
      * apply id_of_not_minted. lia.
Qed.

Lemma mirrored_subtree (w : World) (d : Drive) (c : Node) :
  forall k p,
    (forall x, In x (selfAndBelow (annotate k c)) ->
               lookupFile d (DriveID x) = Some (entryFile w x)) ->
    (forall j, (k <= j < k + span c)%nat ->
               linksUnder (id_of j) (links d) =
               linksUnder (id_of j) (newLinks p (annotate k c))) ->
    ~ minted k (span c) p ->
    IsDir (Info c) = true ->
    mirrored w d (annotate k c).
Proof.
  induction c as [fp info cs id IH] using Node_ind'.
  intros k p Hlook Hlinks Hp Hdir. cbn [Info] in Hdir.
  rewrite span_eq in Hlinks, Hp. cbn [Info] in Hlinks, Hp.
  rewrite Hdir, entries_length in Hlinks, Hp. cbn [Children] in Hlinks, Hp.
  rewrite selfAndBelow_annotate in Hlook. cbn [Info Children] in Hlook.
  rewrite Hdir in Hlook.
  assert (Hpk : id_of k <> p)
    by (intros <-; apply Hp, minted_S; left; reflexivity).
  assert (Hunder : forall j, (k <= j < k + S (list_sum (map span cs)))%nat ->
            linksUnder (id_of j) (links d) =
            linksUnder (id_of j)
              (flat_map (newLinks (id_of k)) (annotateList (S k) cs))).
  { intros j Hj. rewrite (Hlinks j Hj), newLinks_eq, linksUnder_cons.
    cbn [fst]. rewrite DriveID_annotate, Info_annotate. cbn [Info].
    rewrite Hdir, annotate_eq. cbn [Info Children]. rewrite Hdir.
    destruct (String.eqb_spec p (id_of j)) as [E | _]; [| reflexivity].
    exfalso. apply Hp. exists j. split; [lia | exact E]. }
  apply mirrored_eq. rewrite DriveID_annotate.
  rewrite annotate_eq. cbn [Children Info]. rewrite Hdir. split.
  - rewrite childrenOf_under, (Hunder k) by lia.
    rewrite linksUnder_parent by (apply id_of_not_minted; lia).
    apply resolve_children. intros x Hx. apply Hlook. right.
    apply in_flat_map. exists x. split; [exact Hx |].
    unfold selfAndBelow. left. reflexivity.
  - apply (mirrored_siblings w d cs IH (S k) (id_of k)).
    + intros x Hx. apply Hlook. right. exact Hx.
    + intros j Hj. apply Hunder. lia.
    + apply id_of_not_minted. lia.
Qed.

Lemma linksUnder_none (x : string) (l : list (string * string)) :
  (forall p, In p l -> fst p <> x) -> linksUnder x l = [].
Proof.
  induction l as [| p l IH]; intros H; [reflexivity |].
  rewrite linksUnder_cons.
  destruct (String.eqb_spec (fst p) x) as [E | _].
  - exfalso. apply (H p); [left; reflexivity | exact E].
  - apply IH. intros q Hq. apply H. right. exact Hq.
Qed.

(** After a first run into an empty folder, the remote folders mirror the
    local tree. *)
Lemma mirrored_firstRun (w w' : World) (fp : string) (info : FileInfo)
  (cs : list Node) (id : string) :
  firstRun w w'
    (flat_map selfAndBelow (annotateList (nextId (drv w)) cs))
    (flat_map (newLinks id) (annotateList (nextId (drv w)) cs)) ->
  freshStore (drv w) ->
  notFuture (drv w) id ->
  (forall l, In l (links (drv w)) -> fst l <> id) ->
  mirrored w (drv w')
           (mkNode fp info (annotateList (nextId (drv w)) cs) id).
Proof.
  intros (d' & evs & -> & Hfiles & Hlinks & _) Hfresh Hid Hroot. wsimpl.
  set (k := nextId (drv w)) in *.
  assert (Hp : ~ minted k (list_sum (map span cs)) id).
  { intros (j & Hj & E). apply (Hid j); [lia | exact E]. }
  assert (Hlook : forall x,
            In x (flat_map selfAndBelow (annotateList k cs)) ->
            lookupFile d' (DriveID x) = Some (entryFile w x)).
  { apply (lookup_added w d' (files (drv w))); [exact Hfiles | |].
    - intros f x Hf Hx. apply minted_annotateList in Hx as (j & Hj & ->).
      apply (Hfresh j); [lia | exact Hf].
    - apply NoDup_ids_annotateList. }
  apply mirrored_eq. cbn [DriveID Children]. split.
  - rewrite childrenOf_under, Hlinks, linksUnder_app.
    rewrite (linksUnder_none id (links (drv w)) Hroot). cbn [app].
    rewrite linksUnder_parent by exact Hp.
    apply resolve_children. intros x Hx. apply Hlook.
    apply in_flat_map. exists x. split; [exact Hx |]. left. reflexivity.
  - apply (mirrored_siblings w d' cs) with (p := id); auto.
    + apply List.Forall_forall. intros c _ j p. apply mirrored_subtree.
    + intros j Hj. rewrite Hlinks, linksUnder_app.
      rewrite (linksUnder_none (id_of j) (links (drv w))); [reflexivity |].
      intros l Hl. apply (Hfresh j); [lia | exact Hl].
Qed.

(** ** The store during the second run *)

Lemma childrenOf_addLink_other (d : Drive) (p f x : string) :
  x <> p -> childrenOf (addLink d p f) x = childrenOf d x.
Proof.
  intros Hx. rewrite !childrenOf_under. cbn [links addLink].
  rewrite linksUnder_app, linksUnder_cons. cbn [fst].
  destruct (String.eqb_spec p x) as [E | _]; [congruence |].
  cbn [linksUnder List.filter]. rewrite app_nil_r. reflexivity.
Qed.

Lemma linksUnder_removed (x p f : string) (l : list (string * string)) :
  x <> p ->
  linksUnder x
    (List.filter (fun l : string * string =>
                    negb (String.eqb (fst l) p && String.eqb (snd l) f)) l) =
  linksUnder x l.
Proof.
  intros Hx. induction l as [| q l IH]; [reflexivity |].
  cbn [List.filter]. rewrite linksUnder_cons.
  destruct (String.eqb_spec (fst q) p) as [E | E]; cbn [andb negb].
  - destruct (String.eqb_spec (fst q) x) as [E' | _]; [congruence |].
    destruct (String.eqb (snd q) f); cbn [negb]; [exact IH |].
    rewrite linksUnder_cons.
    destruct (String.eqb_spec (fst q) x) as [E' | _]; [congruence |].
    exact IH.
  - rewrite linksUnder_cons, IH. reflexivity.
Qed.

Lemma childrenOf_removeLink_other (d : Drive) (p f x : string) :
  x <> p -> childrenOf (removeLink d p f) x = childrenOf d x.
Proof.
  intros Hx. rewrite !childrenOf_under. cbn [links removeLink].
  rewrite linksUnder_removed by exact Hx. reflexivity.
Qed.

Lemma lookupFile_addFile_other (d : Drive) (file : File) (p y : string) :
  y <> Id file -> lookupFile (addFile d file p) y = lookupFile d y.
Proof.
  intros Hy. unfold lookupFile. cbn [files addFile].
  induction (files d) as [| g gs IH]; cbn [app find].
  - destruct (String.eqb_spec (Id file) y) as [E | _]; [congruence |].
    reflexivity.
  - destruct (String.eqb (Id g) y); [reflexivity | exact IH].
Qed.

Lemma childrenOf_addFile_other (d : Drive) (file : File) (p x : string) :
  (forall l, In l (links d) -> snd l <> Id file) ->
  x <> p -> childrenOf (addFile d file p) x = childrenOf d x.
Proof.
  intros Hnew Hx. rewrite !childrenOf_under. cbn [links addFile].
  rewrite linksUnder_app, linksUnder_cons. cbn [fst].
  destruct (String.eqb_spec p x) as [E | _]; [congruence |].
  cbn [linksUnder List.filter]. rewrite app_nil_r.
  assert (H : forall l, In l (linksUnder x (links d)) -> snd l <> Id file).
  { intros l Hl. apply Hnew. unfold linksUnder in Hl.
    apply filter_In in Hl. apply Hl. }
  induction (linksUnder x (links d)) as [| l ls IH]; [reflexivity |].
  cbn [flat_map]. rewrite lookupFile_addFile_other
    by (apply H; left; reflexivity).
  f_equal. apply IH. intros q Hq. apply H. right. exact Hq.
Qed.

Lemma freshStore_addLink (d : Drive) (p f : string) :
  freshStore d -> notFuture d p -> notFuture d f ->
  freshStore (addLink d p f).
Proof.
  intros Hfresh Hp Hf k Hk. cbn [nextId addLink] in Hk.
  destruct (Hfresh k Hk) as [Hl Hfi]. split; [| exact Hfi].
  intros l Hin. cbn [links addLink] in Hin.
  apply in_app_or in Hin as [Hin | [<- | []]]; [apply Hl, Hin |].
  cbn. split; [apply Hp | apply Hf]; exact Hk.
Qed.

Lemma freshStore_removeLink (d : Drive) (p f : string) :
  freshStore d -> freshStore (removeLink d p f).
Proof.
  intros Hfresh k Hk. cbn [nextId removeLink] in Hk.
  destruct (Hfresh k Hk) as [Hl Hfi]. split; [| exact Hfi].
  intros l Hin. cbn [links removeLink] in Hin.
  apply filter_In in Hin. apply Hl, Hin.
Qed.

Lemma generated_id_of (k : nat) : generated (id_of k) = true.
Proof. reflexivity. Qed.

Lemma not_generated_notFuture (d : Drive) (x : string) :
  generated x = false -> notFuture d x.
Proof.
  intros H k _ ->. rewrite generated_id_of in H. discriminate.
Qed.

Lemma not_generated_not_minted (a n : nat) (x : string) :
  generated x = false -> ~ minted a n x.
Proof.
  intros H (j & _ & ->). rewrite generated_id_of in H. discriminate.
Qed.

Lemma childrenOf_In_link (d : Drive) (p : string) (r : File) :
  In r (childrenOf d p) ->
  hasLink d p (Id r) = true /\ lookupFile d (Id r) = Some r.
Proof.
  unfold childrenOf. rewrite in_flat_map. intros ([q c] & Hin & H).
  cbn [fst snd] in H.
  destruct (String.eqb_spec q p) as [-> | _]; [| destruct H].
  destruct (lookupFile d c) as [f |] eqn:E; [| destruct H].
  destruct H as [<- | []].
  assert (Hc : Id f = c).
  { unfold lookupFile in E. apply find_some in E as [_ E].
    apply String.eqb_eq in E. exact E. }
  subst c. split; [| exact E].
  unfold hasLink. apply existsb_exists. exists (p, Id f).
  split; [exact Hin |]. cbn. rewrite !String.eqb_refl. reflexivity.
Qed.

(** ** Frames *)

Lemma frame_refl (d : Drive) (id old : string) (a n : nat) :
  frame d d id old a n.
Proof. repeat split; auto. Qed.

Lemma frame_calls (d : Drive) (k : nat) (id old : string) (a n : nat) :
  frame d (withCalls d k) id old a n.
Proof. repeat split; auto. Qed.

Lemma frame_trans (d d1 d2 : Drive) (id old : string) (a n : nat) :
  frame d d1 id old a n -> frame d1 d2 id old a n -> frame d d2 id old a n.
Proof.
  intros (H1 & H2 & H3) (K1 & K2 & K3). split; [| split].
  - intros x Hx Ho Hm. rewrite K1, H1; auto.
  - intros x f Hx Hf H. apply K2, H2; auto.
  - intros y f H. apply K3, H3, H.
Qed.

Lemma frame_wider (d d' : Drive) (id old : string) (a n a' n' : nat) :
  (forall x, minted a n x -> minted a' n' x) ->
  frame d d' id old a n -> frame d d' id old a' n'.
Proof.
  intros Hsub (H1 & H2 & H3). split; [| split].
  - intros x Hx Ho Hm. apply H1; auto.
  - intros x f Hx Hf. apply H2; [auto |].
    destruct Hf as [Hf | Hf]; [left; exact Hf | right; auto].
  - exact H3.
Qed.

(** The frame of the run below a child is a frame of the run below its
    directory. *)
Lemma frame_child (d d' : Drive) (p old : string) (k n : nat) :
  frame d d' (id_of k) old (S k) n -> frame d d' p old k (S n).
Proof.
  intros (H1 & H2 & H3). split; [| split].
  - intros x Hx Ho Hm. apply H1; auto.
    + intros ->. apply Hm, minted_S. left. reflexivity.
    + intros H. apply Hm, minted_S. right. exact H.
  - intros x f Hx _. apply H2.
    + intros H. apply Hx, minted_S. right. exact H.
    + left. intros ->. apply Hx, minted_S. left. reflexivity.
  - exact H3.
Qed.

Lemma entryFile_ext (w w' : World) (c : Node) :
  mimeTypes w' = mimeTypes w -> entryFile w' c = entryFile w c.
Proof. intros H. unfold entryFile, mimeOf. rewrite H. reflexivity. Qed.

(** A folder still mirrors its directory when the listings of the folders
    below it are what they were. *)
Lemma mirrored_frame (w w' : World) (d d' : Drive) (x : Node) :
  mimeTypes w' = mimeTypes w ->
  (forall y, In y (x :: entries x) ->
             childrenOf d' (DriveID y) = childrenOf d (DriveID y)) ->
  mirrored w d x -> mirrored w' d' x.
Proof.
  intros Hm. induction x as [fp info cs id IH] using Node_ind'.
  intros Hsame H. apply mirrored_eq in H as [Hlist Hall].
  apply mirrored_eq. split.
  - rewrite Hsame by (left; reflexivity). rewrite Hlist.
    apply map_ext. intros c. symmetry. apply entryFile_ext, Hm.
  - cbn [Children] in *. rewrite entries_eq in Hsame. cbn [Children] in Hsame.
    apply List.Forall_forall. intros c Hc Hdir.
    rewrite List.Forall_forall in IH, Hall.
    apply IH; [exact Hc | | apply Hall; assumption].
    intros y Hy. apply Hsame. right. apply in_flat_map.
    exists c. split; [exact Hc |]. rewrite Hdir. exact Hy.
Qed.

Lemma minted_annotate (c : Node) (k : nat) (x : Node) :
  In x (selfAndBelow (annotate k c)) -> minted k (span c) (DriveID x).
Proof.
  intros H. apply (in_map DriveID) in H. rewrite ids_annotate in H.
  apply in_map_iff in H as (j & <- & Hj). apply in_seq in Hj.
  exists j. split; [lia | reflexivity].
Qed.

Lemma pendingItem_frame (w w' : World) (d d' : Drive) (id old : string)
  (a n k : nat) (c : Node) :
  mimeTypes w' = mimeTypes w ->
  frame d d' id old a n ->
  (a + n <= k)%nat ->
  ~ minted a n id -> ~ minted k (span c) id ->
  generated old = false ->
  pendingItem w d id k c -> pendingItem w' d' id k c.
Proof.
  intros Hm (H1 & H2 & H3) Hk Hid Hid' Hold. unfold pendingItem.
  destruct (IsDir (Info c)) eqn:Hdir.
  - apply mirrored_frame; [exact Hm |].
    intros y Hy.
    assert (Hy' : minted k (span c) (DriveID y)).
    { apply minted_annotate. unfold selfAndBelow.
      rewrite Info_annotate, Hdir. exact Hy. }
    apply H1.
    + intros E. apply Hid'. rewrite <- E. exact Hy'.
    + intros E. destruct Hy' as (j & _ & Ej). rewrite Ej in E.
      rewrite <- E, generated_id_of in Hold. discriminate.
    + destruct Hy' as (j & Hj & ->). apply id_of_not_minted. lia.
  - intros [Hlink Hfile]. split.
    + apply H2; [exact Hid | | exact Hlink].
      right. apply id_of_not_minted. lia.
    + destruct (lookupFile d (id_of k)) as [f |] eqn:E; [| discriminate].
      rewrite (H3 _ _ E). reflexivity.
Qed.

Lemma pending_frame (w w' : World) (d d' : Drive) (id old : string)
  (a n : nat) (cs : list Node) :
  mimeTypes w' = mimeTypes w ->
  frame d d' id old a n ->
  ~ minted a n id ->
  generated old = false ->
  forall k,
    (a + n <= k)%nat ->
    ~ minted k (list_sum (map span cs)) id ->
    pending w d id k cs -> pending w' d' id k cs.
Proof.
  intros Hm Hfr Hid Hold.
  induction cs as [| c cs IH]; intros k Hk Hid' H; [exact I |].
  cbn [pending] in *. cbn [map] in Hid'. rewrite list_sum_cons in Hid'.
  destruct H as [Hc Hrest]. split.
  - apply (pendingItem_frame w w' d d' id old a n); auto.
    intros Hx. apply Hid', minted_split. left. exact Hx.
  - apply IH; [lia | | exact Hrest].
    intros Hx. apply Hid', minted_split. right. exact Hx.
Qed.

(** Children with different names each match their own remote item. *)
Lemma matches_names (w : World) (cs : list Node) :
  forall pre k,
    (forall f c, In f pre -> In c cs -> Title f <> Name (Info c)) ->
    nodupb (map (fun c => Name (Info c)) cs) = true ->
    matches (pre ++ map (entryFile w) (annotateList k cs)) k cs.
Proof.
  induction cs as [| c cs IH]; intros pre k Hpre Hnd; [exact I |].
  cbn [map nodupb] in Hnd. apply andb_prop in Hnd as [Hc Hnd].
  apply negb_true_iff in Hc.
  cbn [matches annotateList map]. split.
  - exists (entryFile w (annotate k c)). split.
    + unfold findRemote. rewrite find_none_app.
      * cbn [find entryFile Title]. rewrite Info_annotate, String.eqb_refl.
        reflexivity.
      * intros f Hf. apply String.eqb_neq. apply Hpre; [exact Hf |].
        left. reflexivity.
    + cbn [entryFile Id]. apply DriveID_annotate.
  - change (pre ++ entryFile w (annotate k c) ::
                   map (entryFile w) (annotateList (k + span c) cs))
      with (pre ++ [entryFile w (annotate k c)] ++
                   map (entryFile w) (annotateList (k + span c) cs)).
    rewrite app_assoc. apply IH; [| exact Hnd].
    intros f c' Hf Hc'. apply in_app_or in Hf as [Hf | [<- | []]].
    + apply Hpre; [exact Hf | right; exact Hc'].
    + cbn [entryFile Title]. rewrite Info_annotate. intros E.
      assert (existsb (String.eqb (Name (Info c)))
                      (map (fun c => Name (Info c)) cs) = true);
        [| congruence].
      apply existsb_exists. exists (Name (Info c')).
      split; [apply (in_map (fun c => Name (Info c))), Hc' |].
      apply String.eqb_eq, E.
Qed.

Lemma filter_isFile_app (l1 l2 : list Node) :
  Z.of_nat (length (List.filter isFile (l1 ++ l2))) =
  (Z.of_nat (length (List.filter isFile l1)) +
   Z.of_nat (length (List.filter isFile l2)))%Z.
Proof. rewrite List.filter_app, length_app. lia. Qed.

Lemma secondRun_refl (w : World) (id : string) (a : nat) :
  faults (drv w) = [] -> freshStore (drv w) -> secondRun w w id a [].
Proof.
  intros Hf Hfresh. exists (drv w), []. cbn.
  rewrite Z.add_0_r.
  split; [unfold step; rewrite app_nil_r; destruct w; reflexivity |].
  split; [exact Hf |]. split; [lia |]. split; [exact Hfresh |].
  split; [apply frame_refl |]. auto.
Qed.

Lemma secondRun_noise (w : World) (k : nat) (evs : list Event)
  (id : string) (a : nat) :
  faults (drv w) = [] -> freshStore (drv w) ->
  forallb isNoise evs = true ->
  secondRun w (step w (withCalls (drv w) k) (opsExecuted w) evs) id a [].
Proof.
  intros Hf Hfresh Hn. exists (withCalls (drv w) k), evs. cbn.
  rewrite Z.add_0_r.
  rewrite (stdoutOf_noise _ Hn), (folderCreations_noise _ Hn),
    (writeKinds_noise _ Hn).
  split; [reflexivity |].
  split; [exact Hf |]. split; [lia |]. split; [exact Hfresh |].
  split; [apply frame_calls |]. auto.
Qed.

Lemma secondRun_trans (w w1 w2 : World) (id : string) (a : nat)
  (es1 es2 : list Node) :
  secondRun w w1 id a es1 ->
  secondRun w1 w2 id (a + length es1) es2 ->
  secondRun w w2 id a (es1 ++ es2).
Proof.
  intros (d1 & evs1 & -> & Hfa1 & Hn1 & Hfr1 & Hframe1 & Ho1 & Hc1 & Hk1)
         (d2 & evs2 & -> & Hfa2 & Hn2 & Hfr2 & Hframe2 & Ho2 & Hc2 & Hk2).
  wsimpl. exists d2, (evs1 ++ evs2). rewrite step_step.
  split; [f_equal; rewrite filter_isFile_app; lia |].
  split; [exact Hfa2 |]. split; [lia |]. split; [exact Hfr2 |].
  split.
  { rewrite length_app.
    apply (frame_trans _ d1).
    - revert Hframe1. apply frame_wider. intros x H.
      apply minted_split. left. exact H.
    - revert Hframe2. apply frame_wider. intros x H.
      apply minted_split. right. exact H. }
  unfold stdoutOf, folderCreations, writeKinds in *.
  rewrite !flat_map_app, !map_app.
  rewrite Ho1, Ho2, Hc1, Hc2, Hk1, Hk2. repeat split; reflexivity.
Qed.

Lemma frame_addLink (d : Drive) (id old f : string) (a n : nat) :
  frame d (addLink d old f) id old a n.
Proof.
  split; [| split].
  - intros x _ Hx _. apply childrenOf_addLink_other, Hx.
  - intros x g _ _. apply hasLink_addLink_mono.
  - auto.
Qed.

Lemma frame_removeLink (d : Drive) (id old f : string) (a n : nat) :
  minted a n f -> frame d (removeLink d id f) id old a n.
Proof.
  intros Hf. split; [| split].
  - intros x Hx _ _. apply childrenOf_removeLink_other, Hx.
  - intros x g _ Hxg H. rewrite hasLink_removeLink_other; [exact H |].
    destruct Hxg as [Hx | Hg]; [left; exact Hx | right].
    intros ->. apply Hg, Hf.
  - auto.
Qed.

Lemma frame_addFile (d : Drive) (file : File) (id old : string) (a n : nat) :
  (forall l, In l (links d) -> snd l <> Id file) ->
  frame d (addFile d file id) id old a n.
Proof.
  intros Hnew. split; [| split].
  - intros x Hx _ _. apply childrenOf_addFile_other; assumption.
  - intros x g _ _. apply hasLink_addFile_mono.
  - intros y g. apply lookupFile_addFile_mono.
Qed.

Lemma ready2_tally (w : World) (m : Z) :
  (0 <= opsExecuted w)%Z -> (0 <= m)%Z ->
  (opsExecuted w + m + 1 <= maxOps (flags w))%Z ->
  (maxOps (flags w) <= int_max)%Z ->
  wrap_int (opsExecuted w + m + 1) = (opsExecuted w + m + 1)%Z /\
  Z.ltb (maxOps (flags w)) (opsExecuted w + m + 1) = false.
Proof.
  intros H0 Hm Hle Hmax. split.
  - apply wrap_int_small. unfold int_min, int_max in *. lia.
  - apply Z.ltb_ge. lia.
Qed.

Lemma mirrored_step (w : World) (d' : Drive) (n : Z) (evs : list Event)
  (d : Drive) (x : Node) :
  mirrored w d x -> mirrored (step w d' n evs) d x.
Proof. apply mirrored_frame; [reflexivity | auto]. Qed.

Lemma run2_item (items : list File) (c : Node) (id : string) (k : nat)
  (w : World) :
  secondRunOK c ->
  ready2 (selfAndBelow c) w ->
  itemOK (localDirToPush (flags w)) (unreadable w) c = true ->
  (IsDir (Info c) = true ->
   treeOK (localDirToPush (flags w)) (unreadable w) c = true) ->
  matchesItem items k c ->
  pendingItem w (drv w) id k c ->
  ~ minted k (span c) id ->
  generated (oldFilesDir (flags w)) = false ->
  freshStore (drv w) ->
  notFuture (drv w) id ->
  (k + span c <= nextId (drv w))%nat ->
  exists n' w',
    processItem items id c (processNode c) w = Ok n' w' /\
    secondRun w w' id k (selfAndBelow c).
Proof.
  intros IH Hready Hitem Htree (f & Hfind & Hidf) Hpend Hid Hold Hfresh
         Hnf Hk.
  destruct (itemOK_inv _ _ _ Hitem) as [(relName & Hrel) Hfile].
  pose proof Hready as (Hf & H0 & Hle & Hmax).
  unfold processItem, bind, getFlags. rewrite Hrel, Hfind, Hidf.
  unfold assign, printf, wrapErr, ret. rewrite emit_spec.
  unfold pendingItem in Hpend. rewrite span_eq in Hk, Hid.
  unfold selfAndBelow in *.
  destruct (IsDir (Info c)) eqn:Hdir; cbn [negb].
  - (* a directory: left as it is, then walked *)
    rewrite emit_spec, step_step. wsimpl.
    cbn [List.filter] in Hle. unfold isFile at 1 in Hle.
    rewrite Hdir in Hle. cbn [negb] in Hle.
    match goal with
    | |- context [processNode c _ ?x] => set (w1 := x)
    end.
    rewrite annotate_eq, Hdir in Hpend.
    destruct (IH (S k) (id_of k) w1) as (n' & w2 & Hrun & Hsecond).
    { unfold ready2. subst w1. wsimpl. auto. }
    { apply Htree. reflexivity. }
    { subst w1. apply mirrored_step. exact Hpend. }
    { apply id_of_not_minted. lia. }
    { exact Hold. }
    { exact Hfresh. }
    { intros j Hj E. apply id_of_inj in E. subst w1. wsimpl. lia. }
    { subst w1. wsimpl. lia. }
    exists n', w2. split; [exact Hrun |].
    destruct Hsecond
      as (d' & evs & -> & Hfa & Hn & Hfr & Hframe & Ho & Hc & Hw).
    subst w1. wsimpl. rewrite step_step.
    eexists d', _. split.
    { cbn [List.filter]. change (isFile c) with (negb (IsDir (Info c))).
      rewrite Hdir. cbn [negb]. reflexivity. }
    split; [exact Hfa |]. split; [exact Hn |]. split; [exact Hfr |].
    split; [cbn [length]; apply frame_child, Hframe |].
    unfold stdoutOf, folderCreations, writeKinds in *.
    cbn [flat_map map app]. rewrite Ho, Hc, Hw.
    unfold lineOf, secondStatus, statusLine, relNameOf, statusOf.
    wsimpl. rewrite Hdir, Hrel. cbn [marker writesOf app].
    split; [reflexivity |]. split; reflexivity.
  - (* a file: moved away, then uploaded *)
    destruct (Hfile eq_refl) as [Hbase Hopen].
    destruct Hpend as [Hlink Hreg].
    destruct (lookupFile (drv w) (id_of k)) as [g |] eqn:Hg; [| discriminate].
    cbn [List.filter isFile] in Hle. unfold isFile in Hle.
    rewrite Hdir in Hle. cbn [negb length List.filter] in Hle.
    destruct (ready2_tally w 0 H0 ltac:(lia) ltac:(lia) Hmax)
      as [Hwrap1 Hlt1].
    destruct (ready2_tally w 1 H0 ltac:(lia) ltac:(lia) Hmax)
      as [Hwrap2 Hlt2].
    rewrite Z.add_0_r in Hwrap1, Hlt1.
    rewrite relocateFile_spec. cbn zeta. wsimpl.
    rewrite Hwrap1, Hlt1, (faulty_nil _ Hf), Hg.
    set (old := oldFilesDir (flags w)) in *.
    assert (Hmk : minted k 1 (id_of k)) by (exists k; split; [lia | auto]).
    remember (if hasLink (drv w) old (id_of k) then tick (drv w)
              else addLink (tick (drv w)) old (id_of k)) as d1 eqn:Heqd1.
    assert (Hd1 : faults d1 = [] /\ hasLink d1 id (id_of k) = true /\
                  frame (drv w) d1 id old k 1 /\ freshStore d1 /\
                  nextId d1 = nextId (drv w)).
    { subst d1. destruct (hasLink (drv w) old (id_of k)).
      - split; [exact Hf |]. split; [exact Hlink |].
        split; [apply frame_calls |]. split; [exact Hfresh | reflexivity].
      - split; [exact Hf |].
        split; [apply hasLink_addLink_mono; exact Hlink |].
        split; [apply (frame_addLink (tick (drv w))) |].
        split; [| reflexivity].
        apply (freshStore_addLink (tick (drv w))); [exact Hfresh | |].
        + apply not_generated_notFuture, Hold.
        + intros j Hj E. apply id_of_inj in E. cbn in Hj. lia. }
    clear Heqd1.
    destruct Hd1 as (Hd1f & Hd1l & Hd1frame & Hd1fresh & Hd1n).
    rewrite (faulty_nil _ Hd1f), Hd1l, step_step.
    set (d2 := removeLink (tick d1) id (id_of k)).
    assert (Hd2fresh : freshStore d2)
      by (apply (freshStore_removeLink (tick d1)); exact Hd1fresh).
    rewrite createFile_spec. cbn zeta. wsimpl.
    rewrite Hwrap2, Hlt2, Hopen.
    rewrite (faulty_nil d2) by exact Hd1f.
    rewrite !emit_spec. wsimpl. rewrite ?step_step.
    replace (opsExecuted w + 1 + 1)%Z
      with (opsExecuted w +
            2 * Z.of_nat (length (List.filter isFile [c])))%Z.
    2:{ cbn [List.filter]. unfold isFile. rewrite Hdir. cbn [negb length].
        lia. }
    eexists _, _. split; [reflexivity |].
    eexists _, _. split; [reflexivity |].
    split; [exact Hd1f |].
    split; [cbn [nextId addFile tick withCalls d2 removeLink]; lia |].
    split.
    { apply (freshStore_addFile d2); [exact Hd2fresh |].
      intros j Hj. apply Hnf. subst d2. cbn in Hj. lia. }
    split.
    { cbn [length].
      apply (frame_trans _ d1); [exact Hd1frame |].
      apply (frame_trans _ d2);
        [apply (frame_removeLink (tick d1)); exact Hmk |].
      apply (frame_addFile (tick d2)).
      intros l Hl. cbn [Id]. apply (Hd2fresh (nextId d2)); [lia | exact Hl]. }
    unfold lineOf, secondStatus, statusLine, relNameOf, statusOf, dbg.
    wsimpl.
    destruct (verbose (flags w));
      cbn -[filepath.Rel filepath.Ext filepath.Base TypeByExtension
            humanize_Bytes uint64 Z.of_nat Z.add Z.mul];
      rewrite ?Hdir, ?Hrel; repeat split; reflexivity.
Qed.

Lemma minted_none (a : nat) (x : string) : ~ minted a 0 x.
Proof. intros (j & Hj & _). lia. Qed.

Lemma run2_loop (items : list File) (id : string) (cs : list Node) :
  Forall secondRunOK cs ->
  forall k w,
    ready2 (flat_map selfAndBelow cs) w ->
    forallb (fun c => itemOK (localDirToPush (flags w)) (unreadable w) c &&
                      (if IsDir (Info c)
                       then treeOK (localDirToPush (flags w)) (unreadable w) c
                       else true)) cs = true ->
    matches items k cs ->
    pending w (drv w) id k cs ->
    ~ minted k (list_sum (map span cs)) id ->
    generated (oldFilesDir (flags w)) = false ->
    freshStore (drv w) ->
    notFuture (drv w) id ->
    (k + list_sum (map span cs) <= nextId (drv w))%nat ->
    exists ns w',
      eachItem (fun c => processItem items id c (processNode c)) cs w =
      Ok ns w' /\
      secondRun w w' id k (flat_map selfAndBelow cs).
Proof.
  induction 1 as [| c cs Hc _ IH];
    intros k w Hready Hall Hmatch Hpend Hid Hold Hfresh Hnf Hk.
  - exists [], w. split; [reflexivity |].
    apply secondRun_refl; [apply Hready | exact Hfresh].
  - cbn [forallb] in Hall. apply andb_prop in Hall as [Hitem Hrest].
    apply andb_prop in Hitem as [Hitem Htree].
    cbn [map] in Hid, Hk. rewrite list_sum_cons in Hid, Hk.
    cbn [matches pending flat_map] in *.
    destruct Hmatch as [Hm Hmatch]. destruct Hpend as [Hp Hpend].
    pose proof Hready as (Hf & H0 & Hle & Hmax).
    rewrite filter_isFile_app in Hle.
    assert (Hid1 : ~ minted k (span c) id)
      by (intros H; apply Hid, minted_split; left; exact H).
    assert (Hid2 : ~ minted (k + span c) (list_sum (map span cs)) id)
      by (intros H; apply Hid, minted_split; right; exact H).
    destruct (run2_item items c id k w Hc) as (n1 & w1 & Hrun & Hsecond);
      auto.
    { unfold ready2. repeat split; auto. lia. }
    { intros Hdir. rewrite Hdir in Htree. exact Htree. }
    { lia. }
    pose proof Hsecond
      as (d1 & evs1 & Hw1 & Hfa1 & Hn1 & Hfr1 & Hframe1 & _).
    destruct (IH (k + span c)%nat w1) as (ns & w2 & Hrun2 & Hsecond2).
    { subst w1. unfold ready2. wsimpl. repeat split; auto; lia. }
    { subst w1. wsimpl. exact Hrest. }
    { exact Hmatch. }
    { subst w1. wsimpl.
      apply (pending_frame w _ (drv w) d1 id (oldFilesDir (flags w)) k
                           (span c)); auto. }
    { exact Hid2. }
    { subst w1. exact Hold. }
    { subst w1. exact Hfr1. }
    { subst w1. wsimpl. intros j Hj. apply Hnf. lia. }
    { subst w1. wsimpl. lia. }
    exists (n1 :: ns), w2. cbn [eachItem]. unfold bind. rewrite Hrun.
    fold (eachItem (fun c0 => processItem items id c0 (processNode c0))).
    rewrite Hrun2. unfold ret. split; [reflexivity |].
    apply (secondRun_trans w w1 w2); [exact Hsecond | exact Hsecond2].
Qed.

Lemma pending_of_listing (w : World) (d : Drive) (id : string)
  (cs : list Node) :
  forall k,
    (forall c, In c (annotateList k cs) ->
               In (entryFile w c) (childrenOf d id)) ->
    Forall (fun c => IsDir (Info c) = true -> mirrored w d c)
           (annotateList k cs) ->
    pending w d id k cs.
Proof.
  induction cs as [| c cs IH]; intros k Hin Hall; [exact I |].
  cbn [annotateList pending] in *. inversion Hall as [| ? ? Hc Hrest]; subst.
  split.
  - unfold pendingItem. destruct (IsDir (Info c)) eqn:Hdir.
    + apply Hc. rewrite Info_annotate. exact Hdir.
    + destruct (childrenOf_In_link d id (entryFile w (annotate k c)))
        as [Hl Hf]; [apply Hin; left; reflexivity |].
      cbn [entryFile Id] in Hl, Hf. rewrite DriveID_annotate in Hl, Hf.
      rewrite Hl, Hf. split; reflexivity.
  - apply IH; [| exact Hrest].
    intros x Hx. apply Hin. right. exact Hx.
Qed.

Lemma secondRunOK_all (n : Node) : secondRunOK n.
Proof.
  induction n as [fp info cs id0 IH] using Node_ind'.
  intros k id w Hready Htree Hmirror Hid Hold Hfresh Hnf Hk.
  rewrite processNode_eq. cbn [FullPath Info Children] in *.
  rewrite treeOK_eq in Htree. cbn [Children] in Htree.
  apply andb_prop in Htree as [Hnames Hall].
  apply mirrored_eq in Hmirror as [Hlisting Hbelow].
  cbn [DriveID Children] in Hlisting, Hbelow.
  rewrite entries_length in Hid, Hk. cbn [Children] in Hid, Hk.
  pose proof Hready as (Hf & H0 & Hle & Hmax).
  unfold bind at 1. rewrite debugf_spec. unfold bind at 1, wrapErr.
  destruct (listFolder_ok id
              (step w (drv w) (opsExecuted w) (dbg w "processNode" [fp])) Hf)
    as (calls' & evs & Hlist & Hnoise).
  rewrite Hlist. wsimpl. rewrite Hlisting, step_step.
  set (w1 := step w (withCalls (drv w) calls') (opsExecuted w)
                  (dbg w "processNode" [fp] ++ evs)).
  assert (Hnoise0 : secondRun w w1 id k []).
  { apply secondRun_noise; [exact Hf | exact Hfresh |]. unfold dbg.
    destruct (verbose (flags w)); exact Hnoise. }
  destruct (run2_loop (map (entryFile w) (annotateList k cs)) id cs IH k w1)
    as (ns & w2 & Hrun & Hsecond).
  - rewrite entries_eq in Hready. exact Hready.
  - exact Hall.
  - apply (matches_names w cs []); [intros f c [] | exact Hnames].
  - apply (pending_frame w w1 (drv w) (withCalls (drv w) calls') id
                         (oldFilesDir (flags w)) 0 0 cs eq_refl
                         (frame_calls _ _ _ _ _ _) (minted_none 0 id) Hold k);
      [lia | exact Hid |].
    apply pending_of_listing; [| exact Hbelow].
    intros c Hc. rewrite Hlisting. apply in_map. exact Hc.
  - exact Hid.
  - exact Hold.
  - exact Hfresh.
  - exact Hnf.
  - exact Hk.
  - exists (mkNode fp info ns id), w2. unfold bind. rewrite Hrun. unfold ret.
    split; [reflexivity |].
    pose proof (secondRun_trans w w1 w2 id k [] (flat_map selfAndBelow cs)
                  Hnoise0) as H.
    cbn [length app] in H. rewrite Nat.add_0_r in H.
    rewrite entries_eq. apply H. exact Hsecond.
Qed.

(** ** What the entries of the first run look like from outside *)

Lemma observe_annotate {B} (g : Node -> list B) :
  (forall k c, g (annotate k c) = g c) ->
  forall c k,
    flat_map g (selfAndBelow (annotate k c)) = flat_map g (selfAndBelow c).
Proof.
  intros Hg. induction c as [fp info cs id IH] using Node_ind'. intros k.
  rewrite selfAndBelow_annotate. unfold selfAndBelow at 2.
  cbn [Info Children flat_map]. rewrite Hg. f_equal.
  destruct (IsDir info); [| reflexivity].
  rewrite entries_eq. cbn [Children]. generalize (S k).
  induction IH as [| c cs Hc _ IHcs]; intros j; [reflexivity |].
  cbn [annotateList flat_map]. rewrite !flat_map_app. f_equal.
  - apply Hc.
  - apply IHcs.
Qed.

Lemma observe_annotateList {B} (g : Node -> list B) :
  (forall k c, g (annotate k c) = g c) ->
  forall cs k,
    flat_map g (flat_map selfAndBelow (annotateList k cs)) =
    flat_map g (flat_map selfAndBelow cs).
Proof.
  intros Hg. induction cs as [| c cs IH]; intros k; [reflexivity |].
  cbn [annotateList flat_map]. rewrite !flat_map_app. f_equal.
  - apply observe_annotate, Hg.
  - apply IH.
Qed.

Lemma map_filter_flat_map {A B} (f : A -> B) (p : A -> bool) (l : list A) :
  map f (List.filter p l) = flat_map (fun x => if p x then [f x] else []) l.
Proof.
  induction l as [| x l IH]; [reflexivity |].
  cbn [List.filter flat_map]. destruct (p x); cbn; rewrite IH; reflexivity.
Qed.

(** ** The store along a run *)






















(** ** Start-up checks ([main]) *)

(** C8. If the remote root folder identifier, the local directory path or
    the folder for old files is empty, the process refuses to start: [main]
    ends in [log.Fatalf] (exit status 1, not 0) at once.  The only step
    taken is the log line: no call to the Drive service has been made, the
    store is as it was, and the operation counter is still zero. *)
Theorem main_refuses_empty_input (os : OS) (fl : Flags) (d : Drive)
  (unreadablePaths : list string) (table : list (string * string)) :
  gDriveRootID fl = "" \/ localDirToPush fl = "" \/ oldFilesDir fl = "" ->
  exists msg w',
    main os (startWorld fl d unreadablePaths table) = Fatal msg w' /\
    exitStatus (main os (startWorld fl d unreadablePaths table)) <> 0%Z /\
    trace w' = [Log msg] /\
    drv w' = d /\
    opsExecuted w' = 0%Z.
Proof.
  intros H. unfold main, bind, getFlags, startWorld. cbn.
  destruct (String.eqb (gDriveRootID fl) "") eqn:E1.
  { eexists _, _. repeat split; cbn; try reflexivity. discriminate. }
  destruct (String.eqb (localDirToPush fl) "") eqn:E2.
  { eexists _, _. repeat split; cbn; try reflexivity. discriminate. }
  destruct (String.eqb (oldFilesDir fl) "") eqn:E3.
  { eexists _, _. repeat split; cbn; try reflexivity. discriminate. }
  exfalso. destruct H as [H | [H | H]]; rewrite H in *; discriminate.
Qed.

Lemma main_refuses_empty_input_witness :
  exists msg w',
    main (mkOS (fun p => inr p) (fun _ => []) (fun _ => 0%nat) None "" "")
         (startWorld (mkFlags "root" "/home/u" "" 20 false)
                     (mkDrive [] [] 0 0 [] 0) [] [])
    = Fatal msg w' /\
    exitStatus
      (main (mkOS (fun p => inr p) (fun _ => []) (fun _ => 0%nat) None "" "")
            (startWorld (mkFlags "root" "/home/u" "" 20 false)
                        (mkDrive [] [] 0 0 [] 0) [] [])) <> 0%Z /\
    trace w' = [Log msg] /\
    drv w' = mkDrive [] [] 0 0 [] 0 /\
    opsExecuted w' = 0%Z.
Proof.
  apply (main_refuses_empty_input
           (mkOS (fun p => inr p) (fun _ => []) (fun _ => 0%nat) None "" "")
           (mkFlags "root" "/home/u" "" 20 false)).
  right. right. reflexivity.
Defined.


(** ** Uploads ([createFile]) *)

(** C10. When the local file cannot be opened, [createFile] never hands an
    error (nor an identifier) back to the reconciler: it ends the process
    through [log.Fatal].  By then the operation counter has been incremented
    for this upload, and no call to the Drive service has been made.  Unless
    the increment itself went over the ceiling, the process got as far as
    the failed [os.Open] and the fatal message is the error of that call. *)
Theorem createFile_open_failure_is_fatal (localFile : Node)
  (parentID : string) (w : World) :
  existsb (String.eqb (FullPath localFile)) (unreadable w) = true ->
  exists msg w' evs,
    createFile localFile parentID w = Fatal msg w' /\
    opsExecuted w' = wrap_int (opsExecuted w + 1) /\
    trace w' = trace w ++ Tally (wrap_int (opsExecuted w + 1)) :: evs /\
    List.filter isRemote evs = [] /\
    drv w' = drv w /\
    ((wrap_int (opsExecuted w + 1) <= maxOps (flags w))%Z ->
     msg = "open " +:+ FullPath localFile +:+ ": cannot open" /\
     evs = dbg w "createFile" [FullPath localFile; parentID] ++
           [OsOpen (FullPath localFile) false; Log msg]).
Proof.
  intros Hopen. rewrite createFile_spec. cbn zeta. rewrite Hopen.
  destruct (Z.ltb (maxOps (flags w)) (wrap_int (opsExecuted w + 1))) eqn:E.
  - eexists _, _, _. do 5 (split; [reflexivity |]).
    intros Hle. apply Z.ltb_lt in E. lia.
  - eexists _, _, _. do 3 (split; [reflexivity |]).
    split; [unfold dbg; destruct (verbose (flags w)); reflexivity |].
    split; [reflexivity |]. intros _. split; reflexivity.
Qed.

Lemma createFile_open_failure_is_fatal_witness :
  exists msg w' evs,
    createFile (mkNode "/home/u/x.txt" (mkFileInfo "x.txt" 10 420 0 false)
                       [] "")
               "root"
               (mkWorld (mkFlags "root" "/home/u" "old" 20 false) 0
                        (mkDrive [] [] 0 0 [] 0) ["/home/u/x.txt"] [] [])
    = Fatal msg w' /\
    opsExecuted w' = 1%Z /\
    trace w' = [] ++ Tally 1 :: evs /\
    List.filter isRemote evs = [] /\
    drv w' = mkDrive [] [] 0 0 [] 0 /\
    ((1 <= 20)%Z ->
     msg = "open /home/u/x.txt: cannot open" /\
     evs = [OsOpen "/home/u/x.txt" false; Log msg]).
Proof.
  apply (createFile_open_failure_is_fatal
           (mkNode "/home/u/x.txt" (mkFileInfo "x.txt" 10 420 0 false) [] "")
           "root"
           (mkWorld (mkFlags "root" "/home/u" "old" 20 false) 0
                    (mkDrive [] [] 0 0 [] 0) ["/home/u/x.txt"] [] [])).
  reflexivity.
Defined.

(** ** Relocation ([relocateFile]) *)

(** C3, as the code has it.  A relocation that succeeds makes exactly two
    calls that change the store, in this order: [Parents.Insert] into the
    folder for old files, then [Parents.Delete] from the old parent.  It goes
    through [tallyOp] once, before the first call: the operation counter
    advances by one, not by two, and the second call is not counted. *)
Theorem relocateFile_two_calls_one_tally (fileID oldParentID : string)
  (w w' : World) :
  relocateFile fileID oldParentID w = Ok tt w' ->
  exists evs,
    trace w' = trace w ++ evs /\
    evs = Tally (wrap_int (opsExecuted w + 1)) ::
          dbg w "relocateFile" [fileID; oldParentID] ++
          [Remote (ParentsInsert fileID (oldFilesDir (flags w))) true;
           Remote (ParentsDelete fileID oldParentID) true] /\
    length (mutations evs) = 2%nat /\
    length (tallies evs) = 1%nat /\
    opsExecuted w' = wrap_int (opsExecuted w + 1) /\
    (opsExecuted w' <= maxOps (flags w))%Z.
Proof.
  rewrite relocateFile_spec. cbn zeta.
  destruct (Z.ltb (maxOps (flags w)) (wrap_int (opsExecuted w + 1))) eqn:E;
    [discriminate |].
  apply Z.ltb_ge in E.
  destruct (faulty (drv w)); [discriminate |].
  destruct (lookupFile (drv w) fileID); [| discriminate].
  match goal with |- context [faulty ?d] => destruct (faulty d) end;
    [discriminate |].
  match goal with
  | |- context [if hasLink ?d ?p ?f then Ok _ _ else _] =>
      destruct (hasLink d p f)
  end; [| discriminate].
  intros H. inversion H; subst; clear H.
  eexists. split; [reflexivity |]. split; [reflexivity |].
  unfold dbg, mutations, tallies. destruct (verbose (flags w)); cbn.
  all: repeat split; try reflexivity; exact E.
Qed.

Lemma relocateFile_two_calls_one_tally_witness :
  exists evs,
    trace (mkWorld (mkFlags "root" "/home/u" "old" 20 false) 1
             (mkDrive [mkFile "#0" "x.txt" ""] [("old", "#0")] 1 2 [] 0)
             [] []
             [Tally 1;
              Remote (ParentsInsert "#0" "old") true;
              Remote (ParentsDelete "#0" "root") true])
    = trace (mkWorld (mkFlags "root" "/home/u" "old" 20 false) 0
               (mkDrive [mkFile "#0" "x.txt" ""] [("root", "#0")] 1 0 [] 0)
               [] [] []) ++ evs /\
    evs = Tally 1 ::
          [] ++
          [Remote (ParentsInsert "#0" "old") true;
           Remote (ParentsDelete "#0" "root") true] /\
    length (mutations evs) = 2%nat /\
    length (tallies evs) = 1%nat /\
    1%Z = 1%Z /\
    (1 <= 20)%Z.
Proof.
  apply (relocateFile_two_calls_one_tally "#0" "root"
           (mkWorld (mkFlags "root" "/home/u" "old" 20 false) 0
              (mkDrive [mkFile "#0" "x.txt" ""] [("root", "#0")] 1 0 [] 0)
              [] [] [])).
  reflexivity.
Defined.

(** C3 as stated fails: there is a relocation, with both of its calls made,
    after which the counter stands at 1 and not at 2. *)
Lemma relocateFile_does_not_add_two :
  exists w',
    relocateFile "#0" "root"
      (mkWorld (mkFlags "root" "/home/u" "old" 20 false) 0
         (mkDrive [mkFile "#0" "x.txt" ""] [("root", "#0")] 1 0 [] 0)
         [] [] [])
    = Ok tt w' /\
    mutations (trace w') =
      [Remote (ParentsInsert "#0" "old") true;
       Remote (ParentsDelete "#0" "root") true] /\
    opsExecuted w' = 1%Z /\
    opsExecuted w' <> (0 + 2)%Z.
Proof.
  eexists. split; [reflexivity |]. cbn. repeat split. discriminate.
Qed.

(** ** The operation governor ([tallyOp]) *)

(** C2, as the code has it.  Each of the three write operations of the
    adapter (folder creation, relocation, upload) increments the counter
    once, before its first call to the service; a relocation then makes its
    second call without a further increment.  Every run of an operation and
    every run of the reconciler keeps to the protocol [governed]: a call
    that changes the store is only issued by an operation whose increment
    stayed within the ceiling.  The increment that takes the counter over
    the ceiling ends the process at once: the only further step is the fatal
    log line, and the store is as it was.  With ceiling 1 and the local tree
    [a/], [b/] the process exits with status 1 after the creation of [a];
    [b] is never created. *)
Theorem governor_halts_over_ceiling :
  (forall op, governed (runOp op)) /\
  (forall node nodeID, governed (processNode node nodeID)) /\
  (forall op w,
     (maxOps (flags w) < wrap_int (opsExecuted w + 1))%Z ->
     runOp op w =
     Fatal (tallyMsg (wrap_int (opsExecuted w + 1)))
           (step w (drv w) (wrap_int (opsExecuted w + 1))
                 [Tally (wrap_int (opsExecuted w + 1));
                  Log (tallyMsg (wrap_int (opsExecuted w + 1)))])) /\
  (exists w',
     main (osWith twoFolders) (startWorld (flagsWith 1) emptyDrive [] [])
     = Fatal (tallyMsg 2) w' /\
     exitStatus (@Fatal unit (tallyMsg 2) w') = 1%Z /\
     mutations (trace w') =
       [Remote (FilesInsert "a" folderMimeType "root" None) true] /\
     files (drv w') = [mkFile "#0" "a" folderMimeType] /\
     opsExecuted w' = 2%Z).
Proof.
  split; [| split; [| split]].
  - intros [title parentID | fileID oldParentID | localFile parentID]; cbn.
    + apply governed_bind; [apply governed_createFolder |].
      intros _. apply governed_ret.
    + apply governed_relocateFile.
    + apply governed_bind; [apply governed_createFile |].
      intros _. apply governed_ret.
  - intros node nodeID. apply governed_processNode.
  - intros op w H. apply Z.ltb_lt in H.
    destruct op as [title parentID | fileID oldParentID | localFile parentID];
      cbn; unfold bind.
    + rewrite createFolder_spec. cbn zeta. rewrite H. reflexivity.
    + rewrite relocateFile_spec. cbn zeta. rewrite H. reflexivity.
    + rewrite createFile_spec. cbn zeta. rewrite H. reflexivity.
  - eexists. split; [vm_compute; reflexivity |].
    vm_compute. repeat split.
Qed.

Lemma governor_halts_over_ceiling_witness :
  runOp (OpCreateFolder "b" "root")
        (mkWorld (flagsWith 1) 1 emptyDrive [] [] [])
  = Fatal (tallyMsg 2)
          (mkWorld (flagsWith 1) 2 emptyDrive [] []
                   [Tally 2; Log (tallyMsg 2)]).
Proof.
  apply (proj1 (proj2 (proj2 governor_halts_over_ceiling))
           (OpCreateFolder "b" "root")
           (mkWorld (flagsWith 1) 1 emptyDrive [] [] [])).
  vm_compute. reflexivity.
Defined.

(** C2 as stated fails on the second leg of a relocation.  With ceiling 2, a
    local file [x.txt] that has a remote match is replaced by three calls
    that change the store, while the counter is incremented twice: the
    [Parents.Delete] call runs without an increment of its own, and the
    third write is issued although the ceiling is 2. *)
Lemma second_leg_is_not_counted :
  exists node' w',
    processNode (mkNode "/home/u" (dirInfo "u")
                   [mkNode "/home/u/x.txt" (fileInfo "x.txt" 10) [] ""] "")
                "root"
                (mkWorld (flagsWith 2) 0
                   (mkDrive [mkFile "#0" "x.txt" ""] [("root", "#0")]
                            1 0 [] 0)
                   [] [] [])
    = Ok node' w' /\
    mutations (trace w') =
      [Remote (ParentsInsert "#0" "old") true;
       Remote (ParentsDelete "#0" "root") true;
       Remote (FilesInsert "x.txt" "" "root" (Some "/home/u/x.txt")) true] /\
    tallies (trace w') = [Tally 1; Tally 2] /\
    opsExecuted w' = 2%Z /\
    ~ (length (mutations (trace w')) <= length (tallies (trace w')))%nat /\
    ~ (Z.of_nat (length (mutations (trace w'))) <= maxOps (flags w'))%Z.
Proof.
  eexists _, _. split; [vm_compute; reflexivity |].
  vm_compute. repeat split; try lia. intros H. apply H. reflexivity.
Qed.


(** ** Files with a remote match *)

(** C4 fails when the folder that is being pushed into is the folder for
    old files itself.  [relocateFile] adds the matched file to the folder
    for old files, where it already is, and then removes it from its old
    parent, the same folder: the file is still registered, but it hangs
    below no folder at all, and the folder for old files holds the new
    upload only.  The process reports [M] and ends with status 0. *)
Theorem relocation_within_the_old_files_folder_unlinks :
  let w := startWorld flagsOldIsRoot rootWithFile [] [] in
  exists w',
    main (osWith dirWithFile) w = Ok tt w' /\
    exitStatus (main (osWith dirWithFile) w) = 0%Z /\
    In ("M /x.txt (10 B)" +:+ nl) (stdoutOf (trace w')) /\
    remoteCalls (trace w') =
      [FilesList "root" 0;
       ParentsInsert "#0" "root"; ParentsDelete "#0" "root";
       FilesInsert "x.txt" "" "root" (Some "/home/u/x.txt")] /\
    failedCalls (trace w') = [] /\
    lookupFile (drv w') "#0" = Some (mkFile "#0" "x.txt" "") /\
    hasLink (drv w') (oldFilesDir (flags w')) "#0" = false /\
    links (drv w') = [("root", "#1")] /\
    childrenOf (drv w') (oldFilesDir (flags w')) = [mkFile "#1" "x.txt" ""].
Proof.
  cbn zeta. eexists. split; [vm_compute; reflexivity |].
  split; [vm_compute; reflexivity |].
  split; [vm_compute; right; right; left; reflexivity |].
  repeat split; vm_compute; reflexivity.
Qed.

(** ** The output of a run *)

(** C6. In a run of the reconciler that succeeds, every entry below the
    node (each child, and below a directory its entries, in the order of the
    walk) yields exactly one printed line, and nothing else is printed
    unless [--verbose] is set.  Each entry has a status that fits its kind;
    its line is the marker of the status ([+] created, [M] modified, blank
    unchanged), a space, a slash and the relative path, then a slash for a
    directory or the human-readable size in brackets for a file.  The writes
    of the run are those of the statuses, entry by entry: one insertion for
    created, relocation and upload for modified, none for unchanged.
    Pushing [a/], [a/x.txt] (10 bytes) into an empty remote root prints
    [+ /a/] and then [+ /a/x.txt (10 B)], with two writes. *)
Theorem one_status_line_per_entry :
  (forall node nodeID w node' w',
     processNode node nodeID w = Ok node' w' ->
     exists sts,
       length sts = length (entries node) /\
       Forall2 (fun c st => statusFits (IsDir (Info c)) st = true)
               (entries node) sts /\
       stdoutOf (delta w w') = zip_with (lineOf w) (entries node) sts /\
       writeKinds (delta w w') =
         concat (zip_with (fun c st => writesOf (IsDir (Info c)) st)
                          (entries node) sts) /\
       (verbose (flags w) = false ->
        List.filter isDebug (delta w w') = [])) /\
  (exists node' w',
     processNode uFolder "root" (startWorld (flagsWith 20) emptyDrive [] [])
     = Ok node' w' /\
     stdoutOf (trace w') = ["+ /a/" +:+ nl; "+ /a/x.txt (10 B)" +:+ nl] /\
     writeKinds (trace w') = [FolderInsert; Upload]).
Proof.
  split.
  - intros node nodeID w node' w' Hrun.
    apply processNode_shape in Hrun
      as (ds & Hitems & Hshaped & _ & _ & d1 & n1 & evs & -> & _ & Hdb & Hev).
    rewrite delta_step.
    pose proof (flatten_entries node ds Hitems Hshaped) as Hent.
    exists (map dStatus (flatten ds)). rewrite <- Hent.
    split; [rewrite !length_map; reflexivity |].
    split.
    { generalize (flatten ds). clear. intros l.
      induction l as [| d l IH]; cbn; constructor; [| exact IH].
      unfold dStatus, statusOf.
      destruct (IsDir (Info (dItem d))), (isSome (dMatch d)); reflexivity. }
    split.
    { rewrite <- stdoutOf_denoise, Hev, stdout_of_run, zip_with_maps.
      reflexivity. }
    split; [| exact Hdb].
    rewrite <- writeKinds_denoise, Hev, writes_of_run, zip_with_maps.
    rewrite flat_map_concat_map. reflexivity.
  - eexists _, _. split; [vm_compute; reflexivity |].
    split; vm_compute; reflexivity.
Qed.

Lemma one_status_line_per_entry_witness :
  exists sts,
    length sts = length (entries uFolder) /\
    stdoutOf (delta (startWorld (flagsWith 20) driveWithFile [] [])
                    (final_world
                       (processNode uFolder "root"
                          (startWorld (flagsWith 20) driveWithFile [] []))))
    = zip_with (lineOf (startWorld (flagsWith 20) driveWithFile [] []))
               (entries uFolder) sts.
Proof.
  destruct (proj1 one_status_line_per_entry uFolder "root"
              (startWorld (flagsWith 20) driveWithFile [] [])
              (mkNode "/home/u" (dirInfo "u")
                 [mkNode "/home/u/a" (dirInfo "a")
                    [mkNode "/home/u/a/x.txt" (fileInfo "x.txt" 10) [] "#2"]
                    "#0"]
                 "root")
              (final_world
                 (processNode uFolder "root"
                    (startWorld (flagsWith 20) driveWithFile [] []))))
    as (sts & Hlen & _ & Hout & _).
  - vm_compute. reflexivity.
  - exists sts. split; [exact Hlen | exact Hout].
Defined.

(** ** The tree that [NewTree] returns *)

(** C9. Take a scan in which every visited path other than the scan root
    has its directory visited as well (the walk reaches a path through its
    directory).  In every tree [NewTree] returns, the node returned is the
    node of the scan root, and it is the only node without a parent.  Every
    node is stored under its own full path.  Every other node has as parent
    the node whose full path is the directory part of its own full path, and
    it occurs exactly once in the child sequence of that parent. *)
Theorem NewTree_parent_links (os : OS) (root absRoot r : string) :
  os_Abs os root = inr absRoot ->
  (forall v, In v (os_Walk os absRoot) -> vPath v <> absRoot ->
             In (filepath.Dir (vPath v)) (map vPath (os_Walk os absRoot))) ->
  dt.result (dt.NewTree os root) = Some r ->
  let h := dt.heap (dt.NewTree os root) in
  r = absRoot /\
  (exists n, h !! r = Some n /\ dt.Parent n = None) /\
  (forall p n, h !! p = Some n ->
               dt.FullPath n = p /\ (dt.Parent n = None <-> p = r)) /\
  (forall p n, h !! p = Some n -> p <> r ->
     exists par,
       dt.Parent n = Some (filepath.Dir p) /\
       h !! filepath.Dir p = Some par /\
       dt.FullPath par = filepath.Dir p /\
       count_occ string_dec (dt.Children par) p = 1%nat).
Proof.
  intros Habs Hclosed Hres h.
  destruct (dt.walk (os_Walk os absRoot) ∅) as [e | parents] eqn:Hwalk.
  { unfold dt.NewTree in Hres. rewrite Habs, Hwalk in Hres. discriminate. }
  destruct (NewTree_ok os root absRoot parents Habs Hwalk)
    as (_ & Hresult & Hheap).
  set (order := dt.rangeOrder (os_mapRank os) parents) in *.
  assert (Hfresh : freshNodes parents).
  { apply (walk_fresh (os_Walk os absRoot) ∅ parents); [| exact Hwalk].
    intros p n Hn. rewrite lookup_empty in Hn. discriminate. }
  assert (Hdom : forall p, isSome (parents !! p) = true <->
                           In p (map vPath (os_Walk os absRoot))).
  { intros p.
    rewrite (walk_dom (os_Walk os absRoot) ∅ parents Hwalk p), lookup_empty.
    cbn.
    split; [intros [? | ?]; [assumption | discriminate] | auto]. }
  assert (Hparent : forall p, isSome (parents !! p) = true -> p <> absRoot ->
                              isSome (parents !! filepath.Dir p) = true).
  { intros p Hp Hne. apply Hdom. apply Hdom in Hp.
    apply in_map_iff in Hp as (v & <- & Hv). apply Hclosed; assumption. }
  rewrite Hresult in Hres.
  apply fold_noParent_Some in Hres as [[Hin Hnone] | Hres];
    [| discriminate].
  apply rangeOrder_In in Hin.
  assert (Hr : r = absRoot).
  { destruct (string_dec r absRoot) as [E | E]; [exact E |].
    apply Hparent in E; [| exact Hin]. rewrite Hnone in E. discriminate. }
  assert (Hnode : forall p n,
             h !! p = Some n ->
             exists n0,
               parents !! p = Some n0 /\
               n = dt.mkNode p (dt.Info n0)
                     (List.filter (fun c => String.eqb (filepath.Dir c) p)
                                  order)
                     (if isSome (parents !! filepath.Dir p)
                      then Some (filepath.Dir p) else None) "").
  { intros p n Hn. unfold h in Hn. rewrite Hheap in Hn.
    destruct (parents !! p) as [n0 |] eqn:E; [| discriminate].
    exists n0. split; [reflexivity |].
    cbn in Hn. inversion Hn; subst n. clear Hn.
    unfold linkedNode. rewrite (Hfresh p n0 E). cbn.
    assert (Hp : existsb (String.eqb p) order = true).
    { apply existsb_exists. exists p. split; [| apply String.eqb_refl].
      apply rangeOrder_In. rewrite E. reflexivity. }
    rewrite Hp. reflexivity. }
  split; [exact Hr |]. split; [| split].
  - destruct (parents !! r) as [n0 |] eqn:E; [| discriminate].
    eexists. split.
    + unfold h. rewrite Hheap, E. reflexivity.
    + unfold linkedNode. cbn. rewrite Hnone. cbn.
      rewrite andb_false_r. rewrite (Hfresh r n0 E). reflexivity.
  - intros p n Hn. apply Hnode in Hn as (n0 & Hp & ->). cbn.
    split; [reflexivity |]. split.
    + destruct (isSome (parents !! filepath.Dir p)) eqn:E; [discriminate |].
      intros _. destruct (string_dec p r) as [Hpr | Hpr]; [exact Hpr |].
      exfalso. rewrite Hr in Hpr. apply Hparent in Hpr.
      * rewrite Hpr in E. discriminate.
      * rewrite Hp. reflexivity.
    + intros ->. rewrite Hnone. reflexivity.
  - intros p n Hn Hne. apply Hnode in Hn as (n0 & Hp & ->). cbn.
    assert (Hdir : isSome (parents !! filepath.Dir p) = true).
    { apply Hparent; [rewrite Hp; reflexivity | congruence]. }
    rewrite Hdir.
    destruct (parents !! filepath.Dir p) as [par0 |] eqn:E; [| discriminate].
    eexists. split; [reflexivity |]. split.
    + unfold h. rewrite Hheap, E. reflexivity.
    + unfold linkedNode. cbn. rewrite (Hfresh _ par0 E). cbn.
      split; [reflexivity |].
      apply count_occ_filter_NoDup.
      * apply rangeOrder_NoDup.
      * apply rangeOrder_In. rewrite Hp. reflexivity.
      * apply String.eqb_refl.
Qed.

Lemma NewTree_parent_links_witness :
  "/home/u" = "/home/u" /\
  exists n,
    dt.heap (dt.NewTree (osWith folderWithFile) "/home/u") !! "/home/u"
    = Some n /\
    dt.Parent n = None.
Proof.
  destruct (NewTree_parent_links (osWith folderWithFile) "/home/u" "/home/u"
              "/home/u" eq_refl) as (Hr & Hroot & _).
  - intros v Hv Hne. cbn in Hv.
    destruct Hv as [<- | [<- | [<- | []]]]; cbn in *;
      [congruence | vm_compute; tauto | vm_compute; tauto].
  - vm_compute. reflexivity.
  - split; [exact Hr | exact Hroot].
Defined.

(** ** The [DriveID] field *)




(** ** Scan roots without a directory above them *)

(** C7 fails when the scan root is the root of the file system: the
    directory of [/] is [/] itself, so the node of the scan root has a
    parent in the map (itself), no node is taken for the root, and [NewTree]
    returns neither a tree nor an error.  [main] then panics on the nil
    tree (exit status 2). *)
Theorem NewTree_of_filesystem_root_returns_nothing :
  let os := osWith [mkVisit "/" (dirInfo "/") None;
                    mkVisit "/a" (dirInfo "a") None] in
  dt.result (dt.NewTree os "/") = None /\
  dt.err (dt.NewTree os "/") = None /\
  (exists n, dt.heap (dt.NewTree os "/") !! "/" = Some n /\
             dt.Parent n = Some "/" /\ dt.Children n = ["/"; "/a"]) /\
  exists msg w',
    main os (startWorld (mkFlags "root" "/" "old" 20 false) emptyDrive [] [])
    = Panic msg w' /\
    exitStatus (@Panic unit msg w') = 2%Z.
Proof.
  cbn zeta. split; [vm_compute; reflexivity |].
  split; [vm_compute; reflexivity |]. split.
  - eexists. split; [vm_compute; reflexivity |]. split; reflexivity.
  - eexists _, _. split; [vm_compute; reflexivity |]. reflexivity.
Qed.

(** ** Two runs against an empty remote folder *)

(** C1. Take a local tree as a directory scan yields it (the children of a
    directory have different names, every entry has a relative name, a
    file is named after its path and can be opened), a remote folder with
    nothing in it, a service that answers every call, an old-files folder
    that is not one the service creates, and a ceiling that leaves room for
    both runs.  The first run succeeds and creates one folder for each
    directory of the tree, in the order of the walk, with one write per
    entry.  The second run, a new process against the store the first one
    left, succeeds as well: it prints the blank [unchanged] marker for
    every directory and [M] for every file, creates no folder, and its
    writes are the relocation and the upload of each file. *)
Theorem second_run_matches_first
  (t : Node) (fl : Flags) (d0 : Drive) (u : list string)
  (table : list (string * string)) :
  faults d0 = [] ->
  freshStore d0 ->
  notFuture d0 (gDriveRootID fl) ->
  (forall l, In l (links d0) -> fst l <> gDriveRootID fl) ->
  generated (oldFilesDir fl) = false ->
  treeOK (localDirToPush fl) u t = true ->
  (Z.of_nat (length (entries t)) <= maxOps fl)%Z ->
  (2 * Z.of_nat (length (List.filter isFile (entries t))) <= maxOps fl)%Z ->
  (maxOps fl <= int_max)%Z ->
  exists t1 w1 t2 w2,
    processNode t (gDriveRootID fl) (startWorld fl d0 u table) = Ok t1 w1 /\
    folderCreations (trace w1) =
      map (fun c => Name (Info c)) (List.filter isDirectory (entries t)) /\
    writeKinds (trace w1) =
      map (fun c => if IsDir (Info c) then FolderInsert else Upload)
          (entries t) /\
    processNode t (gDriveRootID fl) (startWorld fl (drv w1) u table)
    = Ok t2 w2 /\
    stdoutOf (trace w2) =
      map (fun c => lineOf (startWorld fl d0 u table) c
                      (if IsDir (Info c) then Unchanged else Modified))
          (entries t) /\
    folderCreations (trace w2) = [] /\
    writeKinds (trace w2) =
      flat_map (fun c => if IsDir (Info c) then []
                         else [ParentAdd; ParentRemove; Upload])
               (entries t).
Proof.
  intros Hf Hfresh Hroot Hempty Hold Htree Hmax1 Hmax2 Hint.
  set (w0 := startWorld fl d0 u table).
  destruct (firstRunOK_all t (gDriveRootID fl) w0)
    as (w1 & Hrun1 & Hfirst & Hfresh1).
  { unfold ready, w0, startWorld. wsimpl.
    split; [exact Hf |]. split; [lia |]. split; [lia | exact Hint]. }
  { exact Htree. }
  { exact Hfresh. }
  { exact Hroot. }
  { exact Hempty. }
  pose proof (mirrored_firstRun w0 w1 (FullPath t) (Info t) (Children t)
                (gDriveRootID fl) Hfirst Hfresh Hroot Hempty) as Hmirror.
  pose proof Hfirst
    as (d1 & evs1 & Hw1 & _ & _ & Hn1 & Hfa1 & _ & _ & Hc1 & Hk1).
  assert (Hlen : length (flat_map selfAndBelow
                           (annotateList (nextId d0) (Children t))) =
                 length (entries t)).
  { rewrite <- (length_map DriveID), ids_annotateList, length_map,
      length_seq, entries_length. reflexivity. }
  subst w0. unfold startWorld in Hn1. cbn [drv nextId] in Hn1.
  rewrite Hlen in Hn1.
  destruct (secondRunOK_all t (nextId d0) (gDriveRootID fl)
              (startWorld fl (drv w1) u table))
    as (t2 & w2 & Hrun2 & d2 & evs2 & Hw2 & _ & _ & _ & _ & Ho2 & Hc2 & Hk2).
  { unfold ready2, startWorld. rewrite Hw1. wsimpl.
    split; [exact Hfa1 |]. split; [lia |]. split; [lia | exact Hint]. }
  { exact Htree. }
  { revert Hmirror. apply mirrored_frame; [reflexivity | auto]. }
  { intros (j & Hj & E). apply (Hroot j); [lia | exact E]. }
  { exact Hold. }
  { exact Hfresh1. }
  { rewrite Hw1. unfold startWorld. wsimpl. intros j Hj. apply Hroot. lia. }
  { rewrite Hw1. unfold startWorld. wsimpl. lia. }
  eexists _, w1, t2, w2.
  split; [exact Hrun1 |].
  assert (Ht1 : trace w1 = evs1) by (rewrite Hw1; reflexivity).
  assert (Ht2 : trace w2 = evs2) by (rewrite Hw2; reflexivity).
  rewrite Ht1, Ht2.
  split.
  { rewrite Hc1, !map_filter_flat_map, entries_eq.
    apply observe_annotateList.
    intros k c. unfold isDirectory. rewrite Info_annotate. reflexivity. }
  split.
  { rewrite Hk1, <- !flat_map_singleton, entries_eq.
    apply observe_annotateList.
    intros k c. rewrite Info_annotate. reflexivity. }
  split; [exact Hrun2 |].
  split; [rewrite Ho2; reflexivity |].
  split; [exact Hc2 |].
  rewrite Hk2. apply flat_map_ext. intros c.
  unfold secondStatus, statusOf. destruct (IsDir (Info c)); reflexivity.
Qed.

Lemma second_run_matches_first_witness :
  exists t1 w1 t2 w2,
    processNode uFolder "root" (startWorld (flagsWith 20) emptyDrive [] [])
    = Ok t1 w1 /\
    processNode uFolder "root" (startWorld (flagsWith 20) (drv w1) [] [])
    = Ok t2 w2 /\
    stdoutOf (trace w2) = ["  /a/" +:+ nl; "M /a/x.txt (10 B)" +:+ nl] /\
    folderCreations (trace w2) = [].
Proof.
  destruct (second_run_matches_first uFolder (flagsWith 20) emptyDrive [] [])
    as (t1 & w1 & t2 & w2 & H1 & _ & _ & H2 & Hout & Hnone & _).
  - reflexivity.
  - intros k _. split; intros ? [].
  - intros k _ E. discriminate E.
  - intros l [].
  - reflexivity.
  - reflexivity.
  - vm_compute. discriminate.
  - vm_compute. discriminate.
  - vm_compute. discriminate.
  - exists t1, w1, t2, w2. split; [exact H1 |]. split; [exact H2 |].
    split; [| exact Hnone]. rewrite Hout. vm_compute. reflexivity.
Defined.

(** * Further properties of the adapter, the reconciler, [main] and
      [NewTree] *)

(** ** Listings ([listFolder]) *)

Lemma listPages_run (parentID : string) (pages : list (list File)) :
  forall page filesAcc w,
    match listPages parentID page pages filesAcc w with
    | Ok items w' =>
        items = filesAcc ++ concat pages /\
        w' = step w (withCalls (drv w) (calls (drv w) + length pages))
               (opsExecuted w)
               (map (fun p => Remote (FilesList parentID p) true)
                    (seq page (length pages)))
    | Err e w' =>
        e = "Unable to list files: " +:+ "service unavailable" /\
        exists j,
          (j < length pages)%nat /\
          w' = step w (withCalls (drv w) (calls (drv w) + S j))
                 (opsExecuted w)
                 (map (fun p => Remote (FilesList parentID p) true)
                      (seq page j) ++
                  [Remote (FilesList parentID (page + j)) false])
    | _ => False
    end.
Proof.
  induction pages as [| p rest IH]; intros page filesAcc w.
  - cbn. rewrite app_nil_r, Nat.add_0_r. split; [reflexivity |].
    unfold step. rewrite app_nil_r. destruct w as [? ? [] ? ? ?]. reflexivity.
  - cbn [listPages]. unfold bind, Files_List. rewrite apiCall_spec.
    destruct (faulty (drv w)) eqn:Hfault.
    + unfold throw. split; [reflexivity |]. exists 0%nat.
      split; [cbn; lia |]. cbn [seq map app]. rewrite Nat.add_0_r.
      unfold tick, withCalls. cbn. repeat f_equal. lia.
    + cbn [fst snd is_inr].
      specialize (IH (S page) (filesAcc ++ p)
                     (step w (tick (drv w)) (opsExecuted w)
                           [Remote (FilesList parentID page) true])).
      destruct (listPages parentID (S page) rest (filesAcc ++ p) _)
        as [items w' | e w' | |]; [| | exact IH | exact IH].
      * destruct IH as [-> ->]. cbn [concat length seq map].
        rewrite <- app_assoc, step_step. split; [reflexivity |].
        wsimpl. unfold withCalls. cbn. repeat f_equal. lia.
      * destruct IH as [-> (j & Hj & ->)]. split; [reflexivity |].
        exists (S j). split; [cbn; lia |].
        rewrite step_step. wsimpl. cbn [seq map app].
        unfold withCalls. cbn. repeat f_equal; lia.
Qed.

Lemma remoteCalls_app (e1 e2 : list Event) :
  remoteCalls (e1 ++ e2) = remoteCalls e1 ++ remoteCalls e2.
Proof. apply flat_map_app. Qed.

Lemma failedCalls_app (e1 e2 : list Event) :
  failedCalls (e1 ++ e2) = failedCalls e1 ++ failedCalls e2.
Proof. apply flat_map_app. Qed.

Lemma remoteCalls_dbg (w : World) (fn : string) (args : list string) :
  remoteCalls (dbg w fn args) = [].
Proof. unfold dbg. destruct (verbose (flags w)); reflexivity. Qed.

Lemma failedCalls_dbg (w : World) (fn : string) (args : list string) :
  failedCalls (dbg w fn args) = [].
Proof. unfold dbg. destruct (verbose (flags w)); reflexivity. Qed.

Lemma remoteCalls_pages (parentID : string) (l : list nat) :
  remoteCalls (map (fun p => Remote (FilesList parentID p) true) l) =
  map (FilesList parentID) l.
Proof.
  unfold remoteCalls. induction l as [| x l IH]; [reflexivity |].
  cbn [map flat_map app]. rewrite IH. reflexivity.
Qed.

Lemma failedCalls_pages (parentID : string) (l : list nat) :
  failedCalls (map (fun p => Remote (FilesList parentID p) true) l) = [].
Proof.
  unfold failedCalls. induction l as [| x l IH]; [reflexivity |].
  cbn [map flat_map app]. exact IH.
Qed.

Lemma pagesOf_nonempty {A} (size : nat) (l : list A) : pagesOf size l <> [].
Proof.
  unfold pagesOf. destruct size; [discriminate |].
  generalize (S size) at 2. generalize (@nil A).
  induction l as [| x l IH]; intros cur room; cbn; [discriminate |].
  destruct room; [discriminate | apply IH].
Qed.

(** What a listing leaves alone: the counter, the files and the links. *)
Lemma listFolder_run (parentID : string) (w : World) :
  let pages := pagesOf (pageSize (drv w)) (childrenOf (drv w) parentID) in
  match listFolder parentID w with
  | Ok items w' =>
      items = concat pages /\
      w' = step w (withCalls (drv w) (calls (drv w) + length pages))
             (opsExecuted w)
             (dbg w "listFolder" [parentID] ++
              map (fun p => Remote (FilesList parentID p) true)
                  (seq 0 (length pages)))
  | Err e w' =>
      e = "Unable to list files: " +:+ "service unavailable" /\
      exists j,
        (j < length pages)%nat /\
        w' = step w (withCalls (drv w) (calls (drv w) + S j))
               (opsExecuted w)
               (dbg w "listFolder" [parentID] ++
                map (fun p => Remote (FilesList parentID p) true) (seq 0 j) ++
                [Remote (FilesList parentID j) false])
  | _ => False
  end.
Proof.
  cbn zeta. unfold listFolder, bind. rewrite debugf_spec. wsimpl.
  pose proof (listPages_run parentID
                (pagesOf (pageSize (drv w)) (childrenOf (drv w) parentID))
                0 [] (step w (drv w) (opsExecuted w)
                           (dbg w "listFolder" [parentID]))) as H.
  wsimpl.
  destruct (listPages parentID 0 _ [] _) as [items w' | e w' | |];
    [| | exact H | exact H].
  - destruct H as [-> ->]. rewrite step_step. split; reflexivity.
  - destruct H as [-> (j & Hj & ->)]. rewrite step_step.
    split; [reflexivity |]. exists j. split; [exact Hj | reflexivity].
Qed.

(** X1. A listing that succeeds returns the items of all the pages the
    service hands out, in order: the whole content of the folder, whatever
    the page size.  It makes one call per page, numbered from the first
    page on, and at least one call; every call went through.  A listing is
    no write: the counter, the files and the links are as they were. *)
Theorem listFolder_returns_every_page (parentID : string) (w : World)
  (items : list File) (w' : World) :
  listFolder parentID w = Ok items w' ->
  let pages := pagesOf (pageSize (drv w)) (childrenOf (drv w) parentID) in
  items = concat pages /\
  items = childrenOf (drv w) parentID /\
  (1 <= length pages)%nat /\
  remoteCalls (delta w w') =
    map (FilesList parentID) (seq 0 (length pages)) /\
  failedCalls (delta w w') = [] /\
  opsExecuted w' = opsExecuted w /\
  files (drv w') = files (drv w) /\
  links (drv w') = links (drv w).
Proof.
  intros Hrun pages. pose proof (listFolder_run parentID w) as H.
  cbn zeta in H. rewrite Hrun in H. destruct H as [-> ->]. fold pages.
  split; [reflexivity |].
  split; [apply pagesOf_concat |].
  split.
  { pose proof (pagesOf_nonempty (pageSize (drv w))
                  (childrenOf (drv w) parentID)) as Hne.
    fold pages in Hne. destruct pages; [congruence | cbn; lia]. }
  rewrite delta_step, remoteCalls_app, failedCalls_app, remoteCalls_dbg,
    failedCalls_dbg, remoteCalls_pages, failedCalls_pages.
  repeat split; reflexivity.
Qed.

Lemma listFolder_returns_every_page_witness :
  let d := mkDrive [mkFile "#0" "a" folderMimeType; mkFile "#1" "x.txt" "";
                    mkFile "#2" "y.txt" ""]
                   [("root", "#0"); ("root", "#1"); ("root", "#2")]
                   3 0 [] 2 in
  let w := startWorld (flagsWith 20) d [] [] in
  let w' := final_world (listFolder "root" w) in
  remoteCalls (delta w w') = [FilesList "root" 0; FilesList "root" 1] /\
  opsExecuted w' = 0%Z.
Proof.
  cbn zeta.
  destruct (listFolder_returns_every_page "root"
              (startWorld (flagsWith 20)
                 (mkDrive [mkFile "#0" "a" folderMimeType;
                           mkFile "#1" "x.txt" ""; mkFile "#2" "y.txt" ""]
                          [("root", "#0"); ("root", "#1"); ("root", "#2")]
                          3 0 [] 2) [] [])
              [mkFile "#0" "a" folderMimeType; mkFile "#1" "x.txt" "";
               mkFile "#2" "y.txt" ""]
              (final_world
                 (listFolder "root"
                    (startWorld (flagsWith 20)
                       (mkDrive [mkFile "#0" "a" folderMimeType;
                                 mkFile "#1" "x.txt" "";
                                 mkFile "#2" "y.txt" ""]
                                [("root", "#0"); ("root", "#1");
                                 ("root", "#2")]
                                3 0 [] 2) [] []))))
    as (_ & _ & _ & Hcalls & _ & Hops & _).
  - vm_compute. reflexivity.
  - split; [exact Hcalls | exact Hops].
Defined.

(** Which page fails: the first one that the service is set to fail. *)
Lemma listPages_faults (parentID : string) (pages : list (list File)) :
  forall page filesAcc w,
    let fails j := faulty (withCalls (drv w) (calls (drv w) + j)) in
    match listPages parentID page pages filesAcc w with
    | Ok _ _ => forall j, (j < length pages)%nat -> fails j = false
    | Err _ w' =>
        exists j,
          (j < length pages)%nat /\
          calls (drv w') = (calls (drv w) + S j)%nat /\
          fails j = true /\
          forall i, (i < j)%nat -> fails i = false
    | _ => True
    end.
Proof.
  induction pages as [| p rest IH]; intros page filesAcc w; cbn zeta.
  - cbn. intros j Hj. lia.
  - cbn [listPages]. unfold bind, Files_List. rewrite apiCall_spec.
    destruct (faulty (drv w)) eqn:Hfault.
    + unfold throw. exists 0%nat. cbn [length].
      split; [lia |]. split; [wsimpl; cbn; rewrite Nat.add_1_r; reflexivity |].
      split; [| intros i Hi; lia].
      unfold faulty in *. cbn. rewrite Nat.add_0_r. exact Hfault.
    + cbn [fst snd is_inr].
      specialize (IH (S page) (filesAcc ++ p)
                     (step w (tick (drv w)) (opsExecuted w)
                           [Remote (FilesList parentID page) true])).
      cbn zeta in IH.
      assert (Hshift : forall j,
                 faulty (withCalls (tick (drv w)) (calls (tick (drv w)) + j))
                 = faulty (withCalls (drv w) (calls (drv w) + S j))).
      { intros j. unfold faulty. cbn. rewrite Nat.add_succ_r. reflexivity. }
      assert (Hzero : faulty (withCalls (drv w) (calls (drv w) + 0)) = false).
      { unfold faulty in *. cbn. rewrite Nat.add_0_r. exact Hfault. }
      destruct (listPages parentID (S page) rest (filesAcc ++ p) _)
        as [items w' | e w' | |]; [| | exact I | exact I].
      * intros [| j] Hj; [exact Hzero |].
        rewrite <- Hshift. apply IH. cbn in Hj. lia.
      * destruct IH as (j & Hj & Hcalls & Hfail & Hbefore).
        exists (S j). split; [cbn; lia |].
        split; [rewrite Hcalls; cbn; lia |].
        split; [rewrite <- Hshift; exact Hfail |].
        intros [| i] Hi; [exact Hzero |].
        rewrite <- Hshift. apply Hbefore. lia.
Qed.

(** X2. A listing never ends the process, and whether it succeeds is up
    to the service alone.  It succeeds only when the service answers every
    page: then no call failed.  Otherwise it returns an error that starts
    with [Unable to list files: ] at the first page the service fails: that
    call is the last call, the pages before it all went through, and the
    items read so far are not handed back.  The counter, the files and the
    links are as they were. *)
Theorem listFolder_gives_up_at_the_failed_page (parentID : string)
  (w : World) :
  let pages := pagesOf (pageSize (drv w)) (childrenOf (drv w) parentID) in
  let fails j := faulty (withCalls (drv w) (calls (drv w) + j)) in
  match listFolder parentID w with
  | Ok items w' =>
      (forall j, (j < length pages)%nat -> fails j = false) /\
      failedCalls (delta w w') = [] /\
      items = concat pages
  | Err e w' =>
      (exists err, e = "Unable to list files: " +:+ err) /\
      (exists j,
         (j < length pages)%nat /\
         fails j = true /\
         (forall i, (i < j)%nat -> fails i = false) /\
         remoteCalls (delta w w') = map (FilesList parentID) (seq 0 (S j)) /\
         failedCalls (delta w w') = [FilesList parentID j]) /\
      opsExecuted w' = opsExecuted w /\
      files (drv w') = files (drv w) /\
      links (drv w') = links (drv w)
  | Fatal _ _ | Panic _ _ => False
  end.
Proof.
  cbn zeta.
  pose proof (listFolder_run parentID w) as H. cbn zeta in H.
  assert (Hf := listPages_faults parentID
                  (pagesOf (pageSize (drv w)) (childrenOf (drv w) parentID))
                  0 [] (step w (drv w) (opsExecuted w)
                             (dbg w "listFolder" [parentID]))).
  cbn zeta in Hf.
  assert (Heq : listFolder parentID w =
                listPages parentID 0
                  (pagesOf (pageSize (drv w)) (childrenOf (drv w) parentID))
                  [] (step w (drv w) (opsExecuted w)
                           (dbg w "listFolder" [parentID]))).
  { unfold listFolder, bind. rewrite debugf_spec. reflexivity. }
  rewrite <- Heq in Hf. clear Heq. cbn [step drv] in Hf.
  destruct (listFolder parentID w) as [items w' | e w' | |];
    [| | exact H | exact H].
  - destruct H as [-> ->]. split; [exact Hf |].
    split; [| reflexivity].
    rewrite delta_step, failedCalls_app, failedCalls_dbg, failedCalls_pages.
    reflexivity.
  - destruct H as [-> (j & Hj & ->)].
    destruct Hf as (j' & _ & Hcalls & Hfail & Hbefore).
    assert (j' = j) by (cbn in Hcalls; lia). subst j'.
    split; [eexists; reflexivity |].
    split; [| repeat split; reflexivity].
    exists j. split; [exact Hj |]. split; [exact Hfail |].
    split; [exact Hbefore |].
    rewrite delta_step, !remoteCalls_app, !failedCalls_app, remoteCalls_dbg,
      failedCalls_dbg, remoteCalls_pages, failedCalls_pages.
    cbn [app]. split; [| reflexivity].
    rewrite seq_S, map_app. reflexivity.
Qed.

(** ** The first step of [processNode] *)

Lemma assignsOf_noise (evs : list Event) :
  forallb isNoise evs = true -> assignsOf evs = [].
Proof.
  apply observe_noise. intros [] H; try discriminate; reflexivity.
Qed.

Lemma mutations_noise (evs : list Event) :
  forallb isNoise evs = true -> mutations evs = [].
Proof.
  unfold mutations. induction evs as [| x evs IH]; [reflexivity |].
  cbn [forallb List.filter]. intros H. apply andb_prop in H as [Hx Hevs].
  rewrite (IH Hevs).
  destruct x as [| | | | [] ok | |]; try discriminate; reflexivity.
Qed.

Lemma pages_noise (parentID : string) (l : list nat) :
  forallb isNoise (map (fun p => Remote (FilesList parentID p) true) l) = true.
Proof.
  apply forallb_forall. intros x Hx.
  apply in_map_iff in Hx as (p & <- & _). reflexivity.
Qed.

Lemma dbg_noise (w : World) (fn : string) (args : list string) :
  forallb isNoise (dbg w fn args) = true.
Proof. unfold dbg. destruct (verbose (flags w)); reflexivity. Qed.


(** X3. [processNode] lists the remote folder of the node before it looks
    at any child.  When that listing fails, [processNode] hands back the
    error of the listing behind [Problem listing GDrive folder: ], and
    nothing has been done for the children: nothing printed, no [DriveID]
    written, no write issued, nothing counted, the files and the links as
    they were. *)
Theorem processNode_stops_when_listing_fails (node : Node)
  (nodeID : string) (w : World) (e : string) (w' : World) :
  listFolder nodeID
    (step w (drv w) (opsExecuted w) (dbg w "processNode" [FullPath node]))
  = Err e w' ->
  processNode node nodeID w =
    Err ("Problem listing GDrive folder: " +:+ e) w' /\
  stdoutOf (delta w w') = [] /\
  assignsOf (delta w w') = [] /\
  mutations (delta w w') = [] /\
  opsExecuted w' = opsExecuted w /\
  files (drv w') = files (drv w) /\
  links (drv w') = links (drv w).
Proof.
  intros Hlist. split.
  { rewrite processNode_eq. unfold bind at 1. rewrite debugf_spec.
    unfold bind at 1, wrapErr. rewrite Hlist. reflexivity. }
  pose proof (listFolder_run nodeID
                (step w (drv w) (opsExecuted w)
                      (dbg w "processNode" [FullPath node]))) as H.
  cbn zeta in H. rewrite Hlist in H. destruct H as [_ (j & _ & ->)].
  rewrite step_step, delta_step. wsimpl.
  assert (Hnoise : forallb isNoise
            (dbg w "processNode" [FullPath node] ++
             dbg (step w (drv w) (opsExecuted w)
                       (dbg w "processNode" [FullPath node]))
                 "listFolder" [nodeID] ++
             map (fun p => Remote (FilesList nodeID p) true) (seq 0 j) ++
             [Remote (FilesList nodeID j) false]) = true).
  { rewrite !forallb_app, !dbg_noise, pages_noise. reflexivity. }
  split; [apply stdoutOf_noise, Hnoise |].
  split; [apply assignsOf_noise, Hnoise |].
  split; [apply mutations_noise, Hnoise |].
  repeat split; reflexivity.
Qed.

Lemma processNode_stops_when_listing_fails_witness :
  exists w',
    processNode uFolder "root"
      (startWorld (flagsWith 20) (mkDrive [] [] 0 0 [0%nat] 0) [] [])
    = Err ("Problem listing GDrive folder: " +:+
           "Unable to list files: service unavailable") w' /\
    mutations (delta (startWorld (flagsWith 20)
                        (mkDrive [] [] 0 0 [0%nat] 0) [] []) w') = [].
Proof.
  eexists.
  destruct (processNode_stops_when_listing_fails uFolder "root"
              (startWorld (flagsWith 20) (mkDrive [] [] 0 0 [0%nat] 0) [] [])
              "Unable to list files: service unavailable"
              (final_world
                 (listFolder "root"
                    (startWorld (flagsWith 20)
                       (mkDrive [] [] 0 0 [0%nat] 0) [] []))))
    as (Hrun & _ & _ & Hmut & _).
  - vm_compute. reflexivity.
  - split; [exact Hrun | exact Hmut].
Defined.

(** X4. For a node without children (an empty directory, or a file given
    as the root) [processNode] only lists the remote folder: it writes
    nothing, prints nothing, counts nothing and never ends the process.
    What the remote folder holds is left as it is.  When the listing
    succeeds, the node comes back with the identifier of the folder. *)
Theorem processNode_of_childless_node (node : Node) (nodeID : string)
  (w : World) :
  Children node = [] ->
  let o := processNode node nodeID w in
  let w' := final_world o in
  match o with
  | Ok node' _ => node' = mkNode (FullPath node) (Info node) [] nodeID
  | Err e _ =>
      exists err,
        e = "Problem listing GDrive folder: " +:+
            "Unable to list files: " +:+ err
  | Fatal _ _ | Panic _ _ => False
  end /\
  stdoutOf (delta w w') = [] /\
  mutations (delta w w') = [] /\
  (forall c, In c (remoteCalls (delta w w')) ->
             exists page, c = FilesList nodeID page) /\
  opsExecuted w' = opsExecuted w /\
  files (drv w') = files (drv w) /\
  links (drv w') = links (drv w).
Proof.
  intros Hnone. cbn zeta.
  assert (Ho : processNode node nodeID w =
               match listFolder nodeID
                       (step w (drv w) (opsExecuted w)
                             (dbg w "processNode" [FullPath node])) with
               | Ok _ w1 =>
                   Ok (mkNode (FullPath node) (Info node) [] nodeID) w1
               | Err e w1 => Err ("Problem listing GDrive folder: " +:+ e) w1
               | Fatal msg w1 => Fatal msg w1
               | Panic msg w1 => Panic msg w1
               end).
  { rewrite processNode_eq, Hnone. unfold bind, wrapErr.
    rewrite debugf_spec. destruct (listFolder nodeID _); reflexivity. }
  rewrite Ho. clear Ho.
  pose proof (listFolder_run nodeID
                (step w (drv w) (opsExecuted w)
                      (dbg w "processNode" [FullPath node]))) as H.
  cbn zeta in H.
  destruct (listFolder nodeID _) as [items w1 | e w1 | |];
    [| | destruct H | destruct H].
  - destruct H as [_ ->].
    cbn [final_world]. rewrite step_step, delta_step. wsimpl.
    split; [reflexivity |].
    match goal with
    | |- stdoutOf ?evs = [] /\ _ =>
        assert (Hnoise : forallb isNoise evs = true)
          by (rewrite !forallb_app, !dbg_noise, pages_noise; reflexivity)
    end.
    split; [apply stdoutOf_noise, Hnoise |].
    split; [apply mutations_noise, Hnoise |].
    split; [| repeat split; reflexivity].
    intros c. rewrite !remoteCalls_app, !remoteCalls_dbg, remoteCalls_pages.
    cbn [app]. intros Hc. apply in_map_iff in Hc as (p & <- & _).
    exists p. reflexivity.
  - destruct H as [-> (j & _ & ->)].
    cbn [final_world]. rewrite step_step, delta_step. wsimpl.
    split; [eexists; reflexivity |].
    match goal with
    | |- stdoutOf ?evs = [] /\ _ =>
        assert (Hnoise : forallb isNoise evs = true)
          by (rewrite !forallb_app, !dbg_noise, pages_noise; reflexivity)
    end.
    split; [apply stdoutOf_noise, Hnoise |].
    split; [apply mutations_noise, Hnoise |].
    split; [| repeat split; reflexivity].
    intros c. rewrite !remoteCalls_app, !remoteCalls_dbg, remoteCalls_pages.
    cbn [app]. intros Hc.
    apply in_app_or in Hc as [Hc | [<- | []]]; [| eexists; reflexivity].
    apply in_map_iff in Hc as (p & <- & _). exists p. reflexivity.
Qed.

Lemma processNode_of_childless_node_witness :
  let w := startWorld (flagsWith 0) driveWithFile [] [] in
  let w' := final_world (processNode xFile "root" w) in
  mutations (delta w w') = [] /\ links (drv w') = links (drv w).
Proof.
  cbn zeta.
  destruct (processNode_of_childless_node xFile "root"
              (startWorld (flagsWith 0) driveWithFile [] []) eq_refl)
    as (_ & _ & Hmut & _ & _ & _ & Hlinks).
  split; [exact Hmut | exact Hlinks].
Defined.

(** ** Write operations that fail *)

Lemma tallies_dbg (w : World) (fn : string) (args : list string) :
  tallies (dbg w fn args) = [].
Proof. unfold dbg. destruct (verbose (flags w)); reflexivity. Qed.

Lemma tallies_app (e1 e2 : list Event) :
  tallies (e1 ++ e2) = tallies e1 ++ tallies e2.
Proof. apply List.filter_app. Qed.


Lemma tallies_op (n : Z) (w : World) (fn : string) (args : list string)
  (rest : list Event) :
  tallies (Tally n :: dbg w fn args ++ rest) = Tally n :: tallies rest.
Proof.
  unfold tallies, dbg. destruct (verbose (flags w)); reflexivity.
Qed.

Lemma remoteCalls_op (n : Z) (w : World) (fn : string) (args : list string)
  (rest : list Event) :
  remoteCalls (Tally n :: dbg w fn args ++ rest) = remoteCalls rest.
Proof.
  unfold remoteCalls, dbg. destruct (verbose (flags w)); reflexivity.
Qed.

Lemma failedCalls_op (n : Z) (w : World) (fn : string) (args : list string)
  (rest : list Event) :
  failedCalls (Tally n :: dbg w fn args ++ rest) = failedCalls rest.
Proof.
  unfold failedCalls, dbg. destruct (verbose (flags w)); reflexivity.
Qed.

Ltac op_events :=
  rewrite delta_step; wsimpl; cbn [app];
  rewrite ?tallies_op, ?remoteCalls_op, ?failedCalls_op.

(** X5. A write operation of the adapter (folder creation, relocation,
    upload) that hands back an error has been counted all the same: the
    counter went up by one, within the ceiling, before the first call.  The
    call that failed is the last call of the operation and the only one
    that failed.  No file has been registered. *)
Theorem failed_write_is_counted (op : WriteOp) (w : World) (e : string)
  (w' : World) :
  runOp op w = Err e w' ->
  opsExecuted w' = wrap_int (opsExecuted w + 1) /\
  (opsExecuted w' <= maxOps (flags w))%Z /\
  tallies (delta w w') = [Tally (opsExecuted w')] /\
  (exists before c,
     remoteCalls (delta w w') = before ++ [c] /\
     failedCalls (delta w w') = [c]) /\
  files (drv w') = files (drv w).
Proof.
  destruct op as [title parentID | fileID oldParentID | localFile parentID];
    cbn [runOp]; unfold bind.
  - rewrite createFolder_spec. cbn zeta. case_tally; [discriminate |].
    case_faulty; [| discriminate]. intros H. inversion H; subst; clear H.
    op_events.
    split; [reflexivity |]. split; [apply Z.ltb_ge; assumption |].
    split; [reflexivity |]. split; [| reflexivity].
    exists [], (FilesInsert title folderMimeType parentID None).
    split; reflexivity.
  - rewrite relocateFile_spec. cbn zeta. case_tally; [discriminate |].
    assert (Hle : (wrap_int (opsExecuted w + 1) <= maxOps (flags w))%Z)
      by (apply Z.ltb_ge; assumption).
    case_faulty.
    { intros H. inversion H; subst; clear H. op_events.
      split; [reflexivity |]. split; [exact Hle |].
      split; [reflexivity |]. split; [| reflexivity].
      exists [], (ParentsInsert fileID (oldFilesDir (flags w))).
      split; reflexivity. }
    destruct (lookupFile (drv w) fileID) as [f |].
    2:{ intros H. inversion H; subst; clear H. op_events.
        split; [reflexivity |]. split; [exact Hle |].
        split; [reflexivity |]. split; [| reflexivity].
        exists [], (ParentsInsert fileID (oldFilesDir (flags w))).
        split; reflexivity. }
    assert (Hfiles : files (if hasLink (drv w) (oldFilesDir (flags w)) fileID
                            then tick (drv w)
                            else addLink (tick (drv w))
                                   (oldFilesDir (flags w)) fileID) =
                     files (drv w))
      by (destruct (hasLink (drv w) (oldFilesDir (flags w)) fileID);
          reflexivity).
    case_faulty;
      [| match goal with
         | |- context [if hasLink ?d ?p ?f then Ok _ _ else _] =>
             destruct (hasLink d p f); [discriminate |]
         end];
      intros H; inversion H; subst; clear H; op_events;
      (split; [reflexivity |]); (split; [exact Hle |]);
      (split; [reflexivity |]); (split; [| exact Hfiles]);
      exists [ParentsInsert fileID (oldFilesDir (flags w))],
             (ParentsDelete fileID oldParentID);
      split; reflexivity.
  - rewrite createFile_spec. cbn zeta. case_tally; [discriminate |].
    destruct (existsb (String.eqb (FullPath localFile)) (unreadable w));
      [discriminate |].
    case_faulty; [| discriminate]. intros H. inversion H; subst; clear H.
    op_events.
    split; [reflexivity |]. split; [apply Z.ltb_ge; assumption |].
    split; [reflexivity |]. split; [| reflexivity].
    eexists [], _. split; reflexivity.
Qed.

Lemma failed_write_is_counted_witness :
  let w := startWorld (flagsWith 20) (mkDrive [] [] 0 0 [0%nat] 0) [] [] in
  let w' := final_world (runOp (OpCreateFolder "a" "root") w) in
  opsExecuted w' = 1%Z /\ files (drv w') = [].
Proof.
  cbn zeta.
  destruct (failed_write_is_counted (OpCreateFolder "a" "root")
              (startWorld (flagsWith 20) (mkDrive [] [] 0 0 [0%nat] 0) [] [])
              "Problem creating new GDrive folder: service unavailable"
              (final_world
                 (runOp (OpCreateFolder "a" "root")
                    (startWorld (flagsWith 20)
                       (mkDrive [] [] 0 0 [0%nat] 0) [] []))))
    as (Hops & _ & _ & _ & Hfiles).
  - vm_compute. reflexivity.
  - split; [exact Hops | exact Hfiles].
Defined.

(** X6. A relocation that fails removes nothing: every link of the store
    is still there.  It fails either in its first call (the error starts
    with [An Insert() error occurred: ], and the links are as they were) or
    in its second call (the error starts with [A Delete() error occurred: ]).
    In the second case the first call went through and is not undone: the
    file hangs below the folder for old files (and still below its old
    parent, if it did before). *)
Theorem relocateFile_failure_removes_nothing (fileID oldParentID : string)
  (w : World) (e : string) (w' : World) :
  relocateFile fileID oldParentID w = Err e w' ->
  (forall l, In l (links (drv w)) -> In l (links (drv w'))) /\
  ((exists err, e = "An Insert() error occurred: " +:+ err) /\
   remoteCalls (delta w w') =
     [ParentsInsert fileID (oldFilesDir (flags w))] /\
   failedCalls (delta w w') =
     [ParentsInsert fileID (oldFilesDir (flags w))] /\
   links (drv w') = links (drv w)
   \/
   (exists err, e = "A Delete() error occurred: " +:+ err) /\
   remoteCalls (delta w w') =
     [ParentsInsert fileID (oldFilesDir (flags w));
      ParentsDelete fileID oldParentID] /\
   failedCalls (delta w w') = [ParentsDelete fileID oldParentID] /\
   hasLink (drv w') (oldFilesDir (flags w)) fileID = true).
Proof.
  rewrite relocateFile_spec. cbn zeta. case_tally; [discriminate |].
  case_faulty.
  { intros H. inversion H; subst; clear H. op_events.
    split; [auto |]. left. split; [eexists; reflexivity |].
    repeat split; reflexivity. }
  destruct (lookupFile (drv w) fileID) as [f |].
  2:{ intros H. inversion H; subst; clear H. op_events.
      split; [auto |]. left. split; [eexists; reflexivity |].
      repeat split; reflexivity. }
  set (old := oldFilesDir (flags w)).
  remember (if hasLink (drv w) old fileID then tick (drv w)
            else addLink (tick (drv w)) old fileID) as d1 eqn:Heqd1.
  assert (Hd1 : (forall l, In l (links (drv w)) -> In l (links d1)) /\
                hasLink d1 old fileID = true).
  { subst d1. destruct (hasLink (drv w) old fileID) eqn:Hhas.
    - split; [auto | exact Hhas].
    - split; [intros l Hl; cbn; apply in_or_app; left; exact Hl |].
      apply (hasLink_addLink_same (tick (drv w))). }
  clear Heqd1. destruct Hd1 as (Hkeep & Hold).
  case_faulty.
  - intros H. inversion H; subst w' e; clear H. op_events.
    split; [exact Hkeep |]. right. split; [eexists; reflexivity |].
    split; [reflexivity |]. split; [reflexivity | exact Hold].
  - destruct (hasLink d1 oldParentID fileID) eqn:Hp; [discriminate |].
    intros H. inversion H; subst w' e; clear H. op_events.
    split; [exact Hkeep |]. right. split; [eexists; reflexivity |].
    split; [reflexivity |]. split; [reflexivity | exact Hold].
Qed.

Lemma relocateFile_failure_removes_nothing_witness :
  let w := startWorld (flagsWith 20)
             (mkDrive [mkFile "#0" "x.txt" ""] [("other", "#0")] 1 0 [] 0)
             [] [] in
  let w' := final_world (relocateFile "#0" "root" w) in
  links (drv w') = [("other", "#0"); ("old", "#0")] /\
  hasLink (drv w') "old" "#0" = true.
Proof.
  cbn zeta.
  destruct (relocateFile_failure_removes_nothing "#0" "root"
              (startWorld (flagsWith 20)
                 (mkDrive [mkFile "#0" "x.txt" ""] [("other", "#0")] 1 0 [] 0)
                 [] [])
              ("A Delete() error occurred: " +:+ "Parent not found: root")
              (final_world
                 (relocateFile "#0" "root"
                    (startWorld (flagsWith 20)
                       (mkDrive [mkFile "#0" "x.txt" ""] [("other", "#0")]
                                1 0 [] 0) [] []))))
    as (_ & [(_ & _ & _ & Hsame) | (_ & _ & _ & Hold)]).
  - vm_compute. reflexivity.
  - vm_compute in Hsame. discriminate Hsame.
  - split; [vm_compute; reflexivity | exact Hold].
Defined.

(** ** The counter and the writes *)

Lemma govRun_from_Dead (m : Z) (c : Z) (evs : list Event) (s : Phase * Z) :
  govRun m (Dead, c) evs = Some s -> evs = [] /\ s = (Dead, c).
Proof.
  destruct evs as [| e evs]; cbn; [intros H; inversion H; auto |].
  discriminate.
Qed.

Lemma govRun_from_Over (m : Z) (c : Z) (evs : list Event) (s : Phase * Z) :
  govRun m (Over, c) evs = Some s ->
  mutations evs = [] /\ (fst s = Over \/ fst s = Dead).
Proof.
  destruct evs as [| e evs]; cbn [govRun].
  - intros H. inversion H. auto.
  - destruct e; cbn; try discriminate.
    intros H. apply govRun_from_Dead in H as [-> ->]. auto.
Qed.

(** Between two operations, with the counter short of the largest [int]:
    the calls that change the store stay within twice the room left below
    the ceiling, plus what the operation under way is still owed. *)
Lemma govRun_bound (m : Z) (evs : list Event) :
  (m < int_max)%Z ->
  forall p c s,
    (int_min <= c < int_max)%Z ->
    govRun m (p, c) evs = Some s ->
    (length (mutations evs) <= 2 * Z.to_nat (m - c) + credit p)%nat.
Proof.
  intros Hm. induction evs as [| e evs IH]; intros p c s Hc Hrun;
    [cbn; lia |].
  cbn [govRun] in Hrun.
  destruct (govStep m (p, c) e) as [[p' c'] |] eqn:Hstep; [| discriminate].
  unfold mutations. cbn [List.filter]. fold (mutations evs).
  destruct p; cbn [govStep fst snd] in Hstep.
  - (* Idle *)
    destruct e as [| | | n | call ok | |]; cbn [isMutation length];
      try (inversion Hstep; subst; apply (IH _ _ _ Hc Hrun)).
    + destruct (Z.eqb_spec n (wrap_int (c + 1))) as [-> | _];
        [| discriminate].
      rewrite wrap_int_small in * by (unfold int_min, int_max in *; lia).
      destruct (Z.ltb_spec m (c + 1)); inversion Hstep; subst.
      * apply govRun_from_Over in Hrun as [Hmut _].
        rewrite Hmut. cbn. lia.
      * specialize (IH Armed (c + 1)%Z s ltac:(lia) Hrun).
        cbn [credit] in IH. lia.
    + destruct call; try discriminate.
      inversion Hstep; subst. apply (IH _ _ _ Hc Hrun).
  - (* Armed *)
    destruct e as [| | | n | call ok | |]; cbn [isMutation length];
      try discriminate;
      try (inversion Hstep; subst; specialize (IH _ _ _ Hc Hrun);
           cbn [credit] in *; lia).
    destruct call; try discriminate; cbn [length];
      [| destruct ok]; inversion Hstep; subst;
      specialize (IH _ _ _ Hc Hrun); cbn [credit] in *; lia.
  - (* SecondLeg *)
    destruct e as [| | | n | call ok | |]; try discriminate.
    destruct call; try discriminate. inversion Hstep; subst.
    cbn [isMutation length credit].
    specialize (IH Idle c' s Hc Hrun). cbn [credit] in IH. lia.
  - (* Over *)
    destruct e; try discriminate. inversion Hstep; subst.
    apply govRun_from_Dead in Hrun as [-> _]. cbn. lia.
  - discriminate.
Qed.

Lemma govRun_count (m : Z) (evs : list Event) :
  (m < int_max)%Z ->
  forall p c c',
    (int_min <= c < int_max)%Z ->
    govRun m (p, c) evs = Some (Idle, c') ->
    c' = (c + Z.of_nat (length (tallies evs)))%Z /\
    length (countedOf evs) =
      (length (tallies evs) + match p with Armed => 1 | _ => 0 end)%nat.
Proof.
  intros Hm. induction evs as [| e evs IH]; intros p c c' Hc Hrun.
  - cbn in Hrun. inversion Hrun; subst. cbn. split; [lia | reflexivity].
  - cbn [govRun] in Hrun.
    destruct (govStep m (p, c) e) as [[p' c1] |] eqn:Hstep; [| discriminate].
    unfold tallies, countedOf. cbn [List.filter flat_map].
    fold (tallies evs). fold (countedOf evs). rewrite length_app.
    destruct p; cbn [govStep fst snd] in Hstep.
    + (* Idle *)
      destruct e as [| | | n | call ok | |]; cbn [isTally isCounted length];
        try (inversion Hstep; subst;
             destruct (IH _ _ _ Hc Hrun) as [-> ->]; split; lia).
      * destruct (Z.eqb_spec n (wrap_int (c + 1))) as [-> | _];
          [| discriminate].
        rewrite wrap_int_small in * by (unfold int_min, int_max in *; lia).
        destruct (Z.ltb_spec m (c + 1)); inversion Hstep; subst.
        -- apply govRun_from_Over in Hrun as [_ [E | E]]; discriminate E.
        -- destruct (IH Armed (c + 1)%Z c' ltac:(lia) Hrun) as [-> ->].
           split; lia.
      * destruct call; try discriminate. inversion Hstep; subst.
        destruct (IH _ _ _ Hc Hrun) as [-> ->]. cbn. split; lia.
    + (* Armed *)
      destruct e as [| | | n | call ok | |]; cbn [isTally isCounted length];
        try discriminate;
        try (inversion Hstep; subst;
             destruct (IH _ _ _ Hc Hrun) as [-> ->]; split; lia).
      * inversion Hstep; subst. apply govRun_from_Dead in Hrun as [_ E].
        discriminate E.
      * destruct call; try discriminate; [| destruct ok];
          inversion Hstep; subst;
          destruct (IH _ _ _ Hc Hrun) as [-> ->]; cbn; split; lia.
    + (* SecondLeg *)
      destruct e as [| | | n | call ok | |]; try discriminate.
      destruct call; try discriminate. inversion Hstep; subst.
      destruct (IH _ _ _ Hc Hrun) as [-> ->]. cbn. split; lia.
    + destruct e; try discriminate. inversion Hstep; subst.
      apply govRun_from_Dead in Hrun as [_ E]. discriminate E.
    + discriminate.
Qed.

Lemma counted_of_run (w : World) (parentID : string) (ds : list Done) :
  countedOf (flat_map (runEvents w parentID) ds) =
  flat_map (fun d => repeat tt (cost (dStatus d))) (flatten ds).
Proof.
  unfold countedOf. apply observe_run.
  intros pid [c m id below]. unfold ownEvents, dStatus, uploadCall.
  cbn [dItem dMatch dNewID].
  destruct m, (IsDir (Info c)); reflexivity.
Qed.

Lemma countedOf_denoise (evs : list Event) :
  countedOf (denoise evs) = countedOf evs.
Proof.
  apply observe_denoise. intros [| | | | c ok | |] H; try discriminate;
    try reflexivity.
  destruct c; try discriminate. reflexivity.
Qed.

Lemma length_marks {A} (f : A -> nat) (l : list A) :
  length (flat_map (fun x => repeat tt (f x)) l) = list_sum (map f l).
Proof.
  induction l as [| x l IH]; [reflexivity |].
  cbn [flat_map map]. rewrite length_app, repeat_length, IH. reflexivity.
Qed.

(** What [governed] says about a run: the events it added. *)
Lemma governed_delta {A} (c : M A) (w : World) :
  governed c ->
  match c w with
  | Panic _ _ => False
  | o =>
      govRun (maxOps (flags w)) (Idle, opsExecuted w)
             (delta w (final_world o)) =
      Some (match o with Fatal _ _ => Dead | _ => Idle end,
            opsExecuted (final_world o))
  end.
Proof.
  intros H. specialize (H w).
  destruct (c w) as [a w' | e w' | msg w' |]; [| | | exact H];
    destruct H as (_ & evs & Ht & Hg); cbn [final_world] in *;
    unfold delta; rewrite Ht, drop_app_length; exact Hg.
Qed.

(** X7. In a run of the reconciler that succeeds, the counter follows the
    lines printed: it goes up by one for every entry created ([+]) and by
    two for every file replaced ([M]: the relocation and the upload), and
    stays where it is for an entry left alone.  (From a counter short of
    the largest [int], with a ceiling below it, so that nothing wraps.) *)
Theorem counter_follows_the_statuses (node : Node) (nodeID : string)
  (w : World) (node' : Node) (w' : World) :
  processNode node nodeID w = Ok node' w' ->
  (int_min <= opsExecuted w < int_max)%Z ->
  (maxOps (flags w) < int_max)%Z ->
  exists sts,
    length sts = length (entries node) /\
    stdoutOf (delta w w') = zip_with (lineOf w) (entries node) sts /\
    length (tallies (delta w w')) = list_sum (map cost sts) /\
    opsExecuted w' = (opsExecuted w + Z.of_nat (list_sum (map cost sts)))%Z.
Proof.
  intros Hrun Hc Hm.
  pose proof (governed_delta _ w (governed_processNode node nodeID)) as Hgov.
  rewrite Hrun in Hgov. cbn [final_world] in Hgov.
  apply (govRun_count _ _ Hm _ _ _ Hc) in Hgov as [Hops Hcount].
  rewrite Nat.add_0_r in Hcount.
  apply processNode_shape in Hrun
    as (ds & Hitems & Hshaped & _ & _ & d1 & n1 & evs & -> & _ & _ & Hev).
  rewrite delta_step in *.
  pose proof (flatten_entries node ds Hitems Hshaped) as Hent.
  exists (map dStatus (flatten ds)). rewrite <- Hent.
  split; [rewrite !length_map; reflexivity |].
  split.
  { rewrite <- stdoutOf_denoise, Hev, stdout_of_run, zip_with_maps.
    reflexivity. }
  assert (Hsum : length (tallies evs) =
                 list_sum (map cost (map dStatus (flatten ds)))).
  { rewrite <- Hcount, <- countedOf_denoise, Hev, counted_of_run.
    rewrite length_marks, map_map. reflexivity. }
  split; [exact Hsum |]. rewrite Hops, Hsum. reflexivity.
Qed.

Lemma counter_follows_the_statuses_witness :
  exists sts,
    length sts = 2%nat /\
    opsExecuted
      (final_world
         (processNode uFolder "root"
            (startWorld (flagsWith 20) driveWithFile [] []))) =
    (0 + Z.of_nat (list_sum (map cost sts)))%Z.
Proof.
  destruct (counter_follows_the_statuses uFolder "root"
              (startWorld (flagsWith 20) driveWithFile [] [])
              (mkNode "/home/u" (dirInfo "u")
                 [mkNode "/home/u/a" (dirInfo "a")
                    [mkNode "/home/u/a/x.txt" (fileInfo "x.txt" 10) [] "#2"]
                    "#0"]
                 "root")
              (final_world
                 (processNode uFolder "root"
                    (startWorld (flagsWith 20) driveWithFile [] []))))
    as (sts & Hlen & _ & _ & Hops).
  - vm_compute. reflexivity.
  - vm_compute. split; [discriminate | reflexivity].
  - vm_compute. reflexivity.
  - exists sts. split; [exact Hlen | exact Hops].
Defined.

(** X8. However a run of the reconciler ends (with a tree, with an error
    or with a fatal exit), the calls it made that change the store are at
    most twice as many as the ceiling left room for when it started: each
    counted operation issues one call, or the two calls of a relocation.
    With no room left (the counter at the ceiling or over it), a run
    changes nothing in the store.  (From a counter short of the largest
    [int], with a ceiling below it.) *)
Theorem writes_within_twice_the_room (node : Node) (nodeID : string)
  (w : World) :
  (int_min <= opsExecuted w < int_max)%Z ->
  (maxOps (flags w) < int_max)%Z ->
  let evs := delta w (final_world (processNode node nodeID w)) in
  (length (mutations evs) <=
   2 * Z.to_nat (maxOps (flags w) - opsExecuted w))%nat /\
  ((maxOps (flags w) <= opsExecuted w)%Z -> mutations evs = []).
Proof.
  intros Hc Hm. cbn zeta.
  pose proof (governed_delta _ w (governed_processNode node nodeID)) as Hgov.
  assert (Hb : (length (mutations
                          (delta w (final_world (processNode node nodeID w))))
                <= 2 * Z.to_nat (maxOps (flags w) - opsExecuted w) +
                   credit Idle)%nat).
  { destruct (processNode node nodeID w) as [a w' | e w' | msg w' |];
      [| | | destruct Hgov];
      apply (govRun_bound _ _ Hm _ _ _ Hc Hgov). }
  cbn [credit] in Hb. split; [lia |].
  intros Hfull. replace (Z.to_nat _) with 0%nat in Hb by lia.
  destruct (mutations _); [reflexivity | cbn in Hb; lia].
Qed.

Lemma writes_within_twice_the_room_witness :
  mutations
    (delta (startWorld (flagsWith 0) emptyDrive [] [])
       (final_world
          (processNode uFolder "root"
             (startWorld (flagsWith 0) emptyDrive [] [])))) = [].
Proof.
  apply (writes_within_twice_the_room uFolder "root"
           (startWorld (flagsWith 0) emptyDrive [] [])).
  - vm_compute. split; [discriminate | reflexivity].
  - vm_compute. reflexivity.
  - vm_compute. discriminate.
Defined.

(** ** The process ([main]) *)

Lemma main_after_flags (os : OS) (w : World) :
  gDriveRootID (flags w) <> "" ->
  localDirToPush (flags w) <> "" ->
  oldFilesDir (flags w) <> "" ->
  main os w =
  match os_Abs os (localDirToPush (flags w)) with
  | inl e => fatal ("Could not determine absolute path: " +:+ e) w
  | inr absPath =>
      let w1 := step (withFlags w (withLocalDir (flags w) absPath)) (drv w)
                     (opsExecuted w) (bannerLines os (flags w) absPath) in
      match os_driveClient os with
      | Some e =>
          fatal ("Problem creating Drive client: " +:+
                 "Unable to retrieve drive Client " +:+ e) w1
      | None =>
          let r := directory_tree.NewTree os absPath in
          match directory_tree.err r with
          | Some e => fatal ("Problem creating directory_tree: " +:+ e) w1
          | None =>
              match directory_tree.result r with
              | None =>
                  panic "invalid memory address or nil pointer dereference" w1
              | Some ptr =>
                  match reify (S (size (directory_tree.heap r)))
                              (directory_tree.heap r) ptr with
                  | None => panic "stack overflow" w1
                  | Some tree =>
                      (orFatal (fun e => "Problem syncing dir: " +:+ e)
                               (processNode tree (gDriveRootID (flags w))) ;;;
                       printf ("Took " +:+ os_elapsed os +:+ nl))
                        (reconcilerStart os w absPath tree)
                  end
              end
          end
      end
  end.
Proof.
  intros H1 H2 H3. unfold main, bind at 1, getFlags.
  apply String.eqb_neq in H1, H2, H3. rewrite H1, H2, H3.
  destruct (os_Abs os (localDirToPush (flags w))) as [e | absPath];
    [reflexivity |].
  cbn zeta. unfold bind at 1, setFlags. unfold bind at 1, printf.
  rewrite emit_spec. unfold bind at 1. rewrite emit_spec, step_step.
  wsimpl. cbn [app]. fold (bannerLines os (flags w) absPath).
  destruct (os_driveClient os) as [e |]; [reflexivity |].
  destruct (directory_tree.err _) as [e |]; [reflexivity |].
  destruct (directory_tree.result _) as [ptr |]; [| reflexivity].
  destruct (reify _ _ ptr) as [tree |]; [| reflexivity].
  unfold bind at 1, assign. rewrite emit_spec, step_step.
  reflexivity.
Qed.

Lemma remoteCalls_banner (os : OS) (fl : Flags) (absPath : string) :
  remoteCalls (bannerLines os fl absPath) = [].
Proof. reflexivity. Qed.

(** X9. With its three flags given, [main] still stops before the
    reconciler when the absolute path cannot be determined, when the Drive
    client cannot be made, or when the scan of the local directory fails;
    it meets them in this order (the client comes before the scan).  It
    exits through [log.Fatalf] with status 1 and the message of the first
    of them; no call to the service has been made, the counter and the
    store are as they were. *)
Theorem main_stops_before_the_service (os : OS) (w : World) (msg : string) :
  gDriveRootID (flags w) <> "" ->
  localDirToPush (flags w) <> "" ->
  oldFilesDir (flags w) <> "" ->
  startupFailure os (flags w) = Some msg ->
  exists w',
    main os w = Fatal msg w' /\
    exitStatus (main os w) = 1%Z /\
    remoteCalls (delta w w') = [] /\
    List.last (trace w') (Log "") = Log msg /\
    opsExecuted w' = opsExecuted w /\
    drv w' = drv w.
Proof.
  intros H1 H2 H3 Hfail. rewrite (main_after_flags os w H1 H2 H3).
  unfold startupFailure in Hfail.
  destruct (os_Abs os (localDirToPush (flags w))) as [e | absPath].
  { inversion Hfail; subst. rewrite fatal_spec. eexists.
    split; [reflexivity |]. rewrite delta_step. cbn [trace step].
    rewrite last_last. repeat split; reflexivity. }
  cbn zeta.
  assert (Hend : forall m,
            exists w',
              @fatal unit m
                (step (withFlags w (withLocalDir (flags w) absPath)) (drv w)
                      (opsExecuted w) (bannerLines os (flags w) absPath))
              = Fatal m w' /\
              exitStatus
                (@fatal unit m
                   (step (withFlags w (withLocalDir (flags w) absPath))
                         (drv w) (opsExecuted w)
                         (bannerLines os (flags w) absPath))) = 1%Z /\
              remoteCalls (delta w w') = [] /\
              List.last (trace w') (Log "") = Log m /\
              opsExecuted w' = opsExecuted w /\
              drv w' = drv w).
  { intros m. rewrite fatal_spec, step_step. eexists.
    split; [reflexivity |]. split; [reflexivity |].
    split.
    { unfold delta, step. cbn [trace withFlags].
      rewrite drop_app_length. reflexivity. }
    cbn [trace step withFlags]. rewrite app_assoc, last_last.
    repeat split; reflexivity. }
  destruct (os_driveClient os) as [e |].
  { inversion Hfail; subst. apply Hend. }
  destruct (directory_tree.err _) as [e |]; [| discriminate].
  inversion Hfail; subst. apply Hend.
Qed.

Lemma main_stops_before_the_service_witness :
  exists w',
    main (mkOS (fun p => inr p)
               (fun _ => [mkVisit "/home/u" (dirInfo "u") None;
                          mkVisit "/home/u/a" (dirInfo "a")
                                  (Some "permission denied")])
               (fun _ => 0%nat) None "now" "1s")
         (startWorld (flagsWith 20) emptyDrive [] [])
    = Fatal ("Problem creating directory_tree: " +:+ "permission denied") w' /\
    drv w' = emptyDrive.
Proof.
  destruct (main_stops_before_the_service
              (mkOS (fun p => inr p)
                    (fun _ => [mkVisit "/home/u" (dirInfo "u") None;
                               mkVisit "/home/u/a" (dirInfo "a")
                                       (Some "permission denied")])
                    (fun _ => 0%nat) None "now" "1s")
              (startWorld (flagsWith 20) emptyDrive [] [])
              ("Problem creating directory_tree: " +:+ "permission denied"))
    as (w' & Hrun & _ & _ & _ & _ & Hdrv).
  - discriminate.
  - discriminate.
  - discriminate.
  - vm_compute. reflexivity.
  - exists w'. split; [exact Hrun | exact Hdrv].
Defined.

(** X10. Once the local tree is there, the exit of the process follows the
    reconciler.  When [processNode] returns the tree, [main] prints the
    time taken and returns (status 0).  An error of [processNode] never
    leaves [main] as an error: it ends in [log.Fatalf] behind
    [Problem syncing dir: ] (status 1), and the time taken is not printed.
    A fatal exit inside the reconciler is the exit of the process. *)
Theorem main_exit_follows_the_reconciler (os : OS) (w : World)
  (absPath ptr : string) (tree : Node) :
  gDriveRootID (flags w) <> "" ->
  localDirToPush (flags w) <> "" ->
  oldFilesDir (flags w) <> "" ->
  os_Abs os (localDirToPush (flags w)) = inr absPath ->
  os_driveClient os = None ->
  dt.err (dt.NewTree os absPath) = None ->
  dt.result (dt.NewTree os absPath) = Some ptr ->
  reify (S (size (dt.heap (dt.NewTree os absPath))))
        (dt.heap (dt.NewTree os absPath)) ptr = Some tree ->
  match processNode tree (gDriveRootID (flags w))
                    (reconcilerStart os w absPath tree) with
  | Ok _ w2 =>
      main os w =
      Ok tt (step w2 (drv w2) (opsExecuted w2)
                  [Stdout ("Took " +:+ os_elapsed os +:+ nl)]) /\
      exitStatus (main os w) = 0%Z
  | Err e w2 =>
      main os w =
      Fatal ("Problem syncing dir: " +:+ e)
            (step w2 (drv w2) (opsExecuted w2)
                  [Log ("Problem syncing dir: " +:+ e)]) /\
      exitStatus (main os w) = 1%Z
  | Fatal msg w2 => main os w = Fatal msg w2 /\ exitStatus (main os w) = 1%Z
  | Panic msg w2 => main os w = Panic msg w2
  end.
Proof.
  intros H1 H2 H3 Habs Hclient Herr Hres Htree.
  rewrite (main_after_flags os w H1 H2 H3), Habs. cbn zeta.
  rewrite Hclient. unfold dt.err, dt.result, dt.heap in *.
  rewrite Herr, Hres, Htree. unfold bind, orFatal.
  destruct (processNode tree (gDriveRootID (flags w)) _)
    as [t w2 | e w2 | msg w2 | msg w2].
  - unfold printf. rewrite emit_spec. split; reflexivity.
  - rewrite fatal_spec. split; reflexivity.
  - split; reflexivity.
  - reflexivity.
Qed.

Lemma main_exit_follows_the_reconciler_witness :
  exitStatus (main (osWith folderWithFile)
                   (startWorld (flagsWith 20) emptyDrive [] [])) = 0%Z.
Proof.
  pose proof (main_exit_follows_the_reconciler (osWith folderWithFile)
                (startWorld (flagsWith 20) emptyDrive [] [])
                "/home/u" "/home/u" uFolder) as H.
  cbv beta in H.
  destruct (processNode uFolder
              (gDriveRootID (flags (startWorld (flagsWith 20) emptyDrive
                                               [] [])))
              (reconcilerStart (osWith folderWithFile)
                 (startWorld (flagsWith 20) emptyDrive [] []) "/home/u"
                 uFolder)) as [t w2 | e w2 | msg w2 | msg w2] eqn:Hrun;
    [| vm_compute in Hrun; discriminate Hrun ..].
  apply H; try discriminate; vm_compute; reflexivity.
Defined.

(** ** The local tree builder ([NewTree]) *)

Lemma walk_first_error (pre : list Visit) (v : Visit) (post : list Visit)
  (e : string) :
  Forall (fun x => vErr x = None) pre -> vErr v = Some e ->
  forall parents, dt.walk (pre ++ v :: post) parents = inl e.
Proof.
  intros Hpre Hv. induction Hpre as [| x pre Hx _ IH]; intros parents; cbn.
  - rewrite Hv. reflexivity.
  - rewrite Hx. apply IH.
Qed.

(** X11. One entry that cannot be read makes the whole scan fail: when
    the walk reports an error at a path, [NewTree] hands back that error
    (the first one the walk meets) and no tree, not even the part scanned
    before the error. *)
Theorem NewTree_stops_at_the_first_scan_error (os : OS)
  (root absRoot : string) (pre : list Visit) (v : Visit) (post : list Visit)
  (e : string) :
  os_Abs os root = inr absRoot ->
  os_Walk os absRoot = pre ++ v :: post ->
  Forall (fun x => vErr x = None) pre ->
  vErr v = Some e ->
  dt.err (dt.NewTree os root) = Some e /\
  dt.result (dt.NewTree os root) = None /\
  dt.heap (dt.NewTree os root) = ∅.
Proof.
  intros Habs Hwalk Hpre Hv. unfold dt.NewTree. rewrite Habs, Hwalk.
  rewrite (walk_first_error pre v post e Hpre Hv). repeat split.
Qed.

Lemma NewTree_stops_at_the_first_scan_error_witness :
  let os := osWith [mkVisit "/home/u" (dirInfo "u") None;
                    mkVisit "/home/u/a" (dirInfo "a")
                            (Some "permission denied");
                    mkVisit "/home/u/b" (dirInfo "b") None] in
  dt.err (dt.NewTree os "/home/u") = Some "permission denied" /\
  dt.result (dt.NewTree os "/home/u") = None.
Proof.
  cbn zeta.
  destruct (NewTree_stops_at_the_first_scan_error
              (osWith [mkVisit "/home/u" (dirInfo "u") None;
                       mkVisit "/home/u/a" (dirInfo "a")
                               (Some "permission denied");
                       mkVisit "/home/u/b" (dirInfo "b") None])
              "/home/u" "/home/u"
              [mkVisit "/home/u" (dirInfo "u") None]
              (mkVisit "/home/u/a" (dirInfo "a") (Some "permission denied"))
              [mkVisit "/home/u/b" (dirInfo "b") None]
              "permission denied")
    as (Herr & Hres & _).
  - reflexivity.
  - reflexivity.
  - repeat constructor.
  - reflexivity.
  - split; [exact Herr | exact Hres].
Defined.

Lemma walk_nodes (visits : list Visit) :
  forall parents m,
    dt.walk visits parents = inr m ->
    forall p n,
      m !! p = Some n ->
      (exists v, In v visits /\ vPath v = p /\
                 n = dt.mkNode p (vInfo v) [] None "") \/
      parents !! p = Some n.
Proof.
  induction visits as [| v visits IH]; intros parents m; cbn.
  - intros H p n Hn. inversion H; subst. right. exact Hn.
  - destruct (vErr v); [discriminate |]. intros H p n Hn.
    destruct (IH _ _ H p n Hn) as [(v' & Hin & Hp & Hv') | Hold].
    + left. exists v'. auto.
    + rewrite lookup_insert in Hold. case_decide.
      * inversion Hold; subst. left. exists v. auto.
      * right. exact Hold.
Qed.

(** X12. When the walk reports no error, the nodes [NewTree] makes are
    the paths the walk visited, one node per path: a node carries its path
    and the file information of a visit to it, and its children are the
    visited paths whose directory is the path of the node, all of them,
    each once, and no other node. *)
Theorem NewTree_mirrors_the_scan (os : OS) (root absRoot : string) :
  os_Abs os root = inr absRoot ->
  Forall (fun v => vErr v = None) (os_Walk os absRoot) ->
  let h := dt.heap (dt.NewTree os root) in
  let visited := map vPath (os_Walk os absRoot) in
  dt.err (dt.NewTree os root) = None /\
  (forall q, In q visited <-> exists n, h !! q = Some n) /\
  (forall q n,
     h !! q = Some n ->
     dt.FullPath n = q /\
     (exists v, In v (os_Walk os absRoot) /\ vPath v = q /\
                dt.Info n = vInfo v) /\
     List.NoDup (dt.Children n) /\
     (forall c, In c (dt.Children n) <->
                In c visited /\ filepath.Dir c = q)).
Proof.
  intros Habs Hall. cbn zeta.
  destruct (walk_ok (os_Walk os absRoot) ∅ Hall) as (parents & Hwalk).
  destruct (NewTree_ok os root absRoot parents Habs Hwalk)
    as (Herr & _ & Hheap).
  assert (Hdom : forall p, In p (map vPath (os_Walk os absRoot)) <->
                           isSome (parents !! p) = true).
  { intros p. rewrite (walk_dom _ _ _ Hwalk p). rewrite lookup_empty. cbn.
    split; [auto | intros [? | ?]; [assumption | discriminate]]. }
  split; [exact Herr |]. split.
  - intros q. rewrite Hdom, Hheap.
    destruct (parents !! q) as [n0 |]; cbn.
    + split; [eauto | reflexivity].
    + split; [discriminate | intros (n & Hn); discriminate].
  - intros q n Hn. rewrite Hheap in Hn.
    destruct (parents !! q) as [n0 |] eqn:Hq; [| discriminate].
    cbn in Hn. inversion Hn; subst n; clear Hn.
    destruct (walk_nodes _ _ _ Hwalk q n0 Hq) as [(v & Hin & Hp & ->) | Hold];
      [| rewrite lookup_empty in Hold; discriminate].
    unfold linkedNode. cbn [dt.FullPath dt.Info dt.Children app].
    split; [reflexivity |]. split; [exists v; auto |]. split.
    + apply List.NoDup_filter, rangeOrder_NoDup.
    + intros c. rewrite filter_In, rangeOrder_In, <- Hdom.
      rewrite String.eqb_eq. reflexivity.
Qed.

Lemma NewTree_mirrors_the_scan_witness :
  exists n,
    dt.heap (dt.NewTree (osWith folderWithFile) "/home/u") !! "/home/u/a"
    = Some n /\
    dt.FullPath n = "/home/u/a" /\
    List.NoDup (dt.Children n).
Proof.
  destruct (NewTree_mirrors_the_scan (osWith folderWithFile)
              "/home/u" "/home/u" eq_refl) as (_ & Hdom & Hnodes).
  - repeat constructor.
  - destruct (proj1 (Hdom "/home/u/a")) as (n & Hn);
      [right; left; reflexivity |].
    exists n. split; [exact Hn |].
    destruct (Hnodes _ _ Hn) as (Hp & _ & Hnd & _).
    split; assumption.
Defined.

Lemma Permutation_List_filter {A} (f : A -> bool) (l l' : list A) :
  Permutation l l' -> Permutation (List.filter f l) (List.filter f l').
Proof.
  induction 1 as [| x l l' _ IH | x y l | l l' l'' _ IH1 _ IH2];
    cbn [List.filter].
  - constructor.
  - destruct (f x); [constructor |]; exact IH.
  - destruct (f x), (f y); try reflexivity. constructor.
  - etransitivity; eassumption.
Qed.

Lemma existsb_Permutation {A} (f : A -> bool) (l l' : list A) :
  Permutation l l' -> existsb f l = existsb f l'.
Proof.
  induction 1 as [| x l l' _ IH | x y l | l l' l'' _ IH1 _ IH2]; cbn.
  - reflexivity.
  - rewrite IH. reflexivity.
  - destruct (f x), (f y); reflexivity.
  - congruence.
Qed.

Lemma rangeOrder_Permutation (rank rank' : string -> nat)
  (parents : gmap string dt.Node) :
  Permutation (dt.rangeOrder rank parents) (dt.rangeOrder rank' parents).
Proof.
  unfold dt.rangeOrder. rewrite !merge_sort_Permutation. reflexivity.
Qed.

Lemma fold_noParent_all (h : gmap string dt.Node) (done : list string) :
  forall acc,
    (forall p, In p done -> isSome (h !! filepath.Dir p) = true) ->
    fold_left (noParent h) done acc = acc.
Proof.
  induction done as [| p done IH]; intros acc H; [reflexivity |].
  cbn [fold_left]. unfold noParent at 2.
  rewrite (H p) by (left; reflexivity).
  apply IH. intros q Hq. apply H. right. exact Hq.
Qed.

Lemma noParent_None_iff (h : gmap string dt.Node) (rank : string -> nat)
  (parents : gmap string dt.Node) :
  fold_left (noParent h) (dt.rangeOrder rank parents) None = None <->
  forall p, isSome (parents !! p) = true ->
            isSome (h !! filepath.Dir p) = true.
Proof.
  split.
  - intros H p Hp. apply fold_noParent_None in H as [_ H].
    apply H, rangeOrder_In, Hp.
  - intros H. apply fold_noParent_all. intros p Hp.
    apply H. apply rangeOrder_In in Hp. exact Hp.
Qed.

(** X13. Go leaves the order of a range over a map open, and [NewTree]
    links the nodes in that order.  The order only shows in the order of
    the children: two runs over the same scan make the same nodes, with
    the same path, file information and parent, and the children of a node
    are the same up to their order.  Both runs fail, or return no tree, or
    return one, alike. *)
Theorem NewTree_children_up_to_order (os os' : OS) (root : string) :
  (forall p, os_Abs os' p = os_Abs os p) ->
  (forall p, os_Walk os' p = os_Walk os p) ->
  dt.err (dt.NewTree os' root) = dt.err (dt.NewTree os root) /\
  (dt.result (dt.NewTree os' root) = None <->
   dt.result (dt.NewTree os root) = None) /\
  forall q n,
    dt.heap (dt.NewTree os root) !! q = Some n ->
    exists n',
      dt.heap (dt.NewTree os' root) !! q = Some n' /\
      dt.FullPath n' = dt.FullPath n /\
      dt.Info n' = dt.Info n /\
      dt.Parent n' = dt.Parent n /\
      dt.DriveID n' = dt.DriveID n /\
      Permutation (dt.Children n') (dt.Children n).
Proof.
  intros Habs Hwalk.
  destruct (os_Abs os root) as [e | absRoot] eqn:Ha.
  { unfold dt.NewTree. rewrite Habs, Ha. cbn.
    split; [reflexivity |]. split; [reflexivity |].
    intros q n Hn. rewrite lookup_empty in Hn. discriminate. }
  destruct (dt.walk (os_Walk os absRoot) ∅) as [e | parents] eqn:Hw.
  { unfold dt.NewTree. rewrite Habs, Ha, Hwalk, Hw. cbn.
    split; [reflexivity |]. split; [reflexivity |].
    intros q n Hn. rewrite lookup_empty in Hn. discriminate. }
  assert (Ha' : os_Abs os' root = inr absRoot) by (rewrite Habs; exact Ha).
  assert (Hw' : dt.walk (os_Walk os' absRoot) ∅ = inr parents)
    by (rewrite Hwalk; exact Hw).
  destruct (NewTree_ok os root absRoot parents Ha Hw) as (He & Hr & Hh).
  destruct (NewTree_ok os' root absRoot parents Ha' Hw') as (He' & Hr' & Hh').
  cbn zeta in *.
  pose proof (rangeOrder_Permutation (os_mapRank os') (os_mapRank os) parents)
    as Hperm.
  split; [congruence |]. split.
  - rewrite Hr, Hr', !noParent_None_iff. reflexivity.
  - intros q n Hn. rewrite Hh in Hn. rewrite Hh'.
    destruct (parents !! q) as [n0 |]; [| discriminate].
    cbn in Hn. inversion Hn; subst n; clear Hn. cbn.
    eexists. split; [reflexivity |]. unfold linkedNode.
    cbn [dt.FullPath dt.Info dt.Parent dt.DriveID dt.Children].
    split; [reflexivity |]. split; [reflexivity |].
    split; [rewrite (existsb_Permutation _ _ _ Hperm); reflexivity |].
    split; [reflexivity |].
    apply Permutation_app_head, Permutation_List_filter, Hperm.
Qed.

Lemma NewTree_children_up_to_order_witness :
  dt.err (dt.NewTree
            (mkOS (fun p => inr p) (fun _ => twoFolders)
                  (fun p => (100 - String.length p)%nat) None "now" "1s")
            "/home/u") =
  dt.err (dt.NewTree (osWith twoFolders) "/home/u").
Proof.
  apply (NewTree_children_up_to_order (osWith twoFolders)
           (mkOS (fun p => inr p) (fun _ => twoFolders)
                 (fun p => (100 - String.length p)%nat) None "now" "1s")
           "/home/u").
  - reflexivity.
  - reflexivity.
Defined.

(** ** What [--verbose] changes *)

Lemma undebug_app (e1 e2 : list Event) :
  undebug (e1 ++ e2) = undebug e1 ++ undebug e2.
Proof. apply List.filter_app. Qed.

Lemma hush_step (w : World) (d : Drive) (n : Z) (evs : list Event) :
  hush (step w d n evs) = step (hush w) d n (undebug evs).
Proof. unfold hush, step. cbn. rewrite undebug_app. reflexivity. Qed.

Lemma undebug_dbg (w : World) (fn : string) (args : list string) :
  undebug (dbg w fn args) = [].
Proof. unfold dbg. destruct (verbose (flags w)); reflexivity. Qed.

Lemma dbg_hush (w : World) (fn : string) (args : list string) :
  dbg (hush w) fn args = [].
Proof. reflexivity. Qed.

Lemma discreet_ret {A} (a : A) : discreet (ret a).
Proof. intros w. reflexivity. Qed.

Lemma discreet_bind {A B} (m : M A) (k : A -> M B) :
  discreet m -> (forall a, discreet (k a)) -> discreet (bind m k).
Proof.
  intros Hm Hk w. unfold bind. rewrite Hm.
  destruct (m w) as [a w' | e w' | msg w' | msg w']; cbn [hushed];
    [apply Hk | reflexivity ..].
Qed.

Lemma discreet_wrapErr {A} (f : string -> string) (m : M A) :
  discreet m -> discreet (wrapErr f m).
Proof.
  intros Hm w. unfold wrapErr. rewrite Hm.
  destruct (m w); reflexivity.
Qed.

Lemma discreet_throw {A} (e : string) : discreet (@throw A e).
Proof. intros w. reflexivity. Qed.

Lemma discreet_emit (e : Event) : isDebug e = false -> discreet (emit e).
Proof.
  intros He w. rewrite !emit_spec. cbn [hushed]. rewrite hush_step.
  cbn [undebug List.filter]. rewrite He. reflexivity.
Qed.

Lemma discreet_fatal {A} (msg : string) : discreet (@fatal A msg).
Proof. intros w. rewrite !fatal_spec. cbn [hushed]. rewrite hush_step. reflexivity. Qed.

Lemma discreet_debugf (fn : string) (args : list string) :
  discreet (debugf fn args).
Proof.
  intros w. rewrite !debugf_spec. cbn [hushed].
  rewrite hush_step, undebug_dbg, dbg_hush. reflexivity.
Qed.

(** Reading the flags: what follows may use them, the switch apart. *)
Lemma discreet_getFlags {A} (k : Flags -> M A) :
  (forall fl, discreet (k fl)) ->
  (forall fl, k (quietFlags fl) = k fl) ->
  discreet (bind getFlags k).
Proof.
  intros Hk Hq w. unfold bind, getFlags. cbn [flags hush].
  rewrite Hq. apply Hk.
Qed.

Lemma discreet_tallyOp : discreet tallyOp.
Proof.
  intros w. rewrite !tallyOp_spec. cbn zeta. cbn [flags opsExecuted hush maxOps quietFlags].
  destruct (Z.ltb _ _); cbn [hushed]; rewrite hush_step; reflexivity.
Qed.

Lemma discreet_apiCall {A} (c : ApiCall)
  (run : Drive -> (string + A) * Drive) :
  discreet (apiCall c run).
Proof.
  intros w. rewrite !apiCall_spec. cbn [drv hush opsExecuted].
  destruct (faulty (drv w)); cbn [hushed]; rewrite hush_step; reflexivity.
Qed.

Lemma discreet_listPages (parentID : string) (pages : list (list File)) :
  forall page filesAcc, discreet (listPages parentID page pages filesAcc).
Proof.
  induction pages as [| p rest IH]; intros page filesAcc; cbn [listPages].
  - apply discreet_ret.
  - apply discreet_bind; [apply discreet_apiCall |].
    intros [err | got]; [apply discreet_throw | apply IH].
Qed.

Lemma discreet_listFolder (parentID : string) :
  discreet (listFolder parentID).
Proof.
  unfold listFolder. apply discreet_bind; [apply discreet_debugf |].
  intros _ w. cbn [drv hush]. apply discreet_listPages.
Qed.

Lemma discreet_createFolder (title parentID : string) :
  discreet (createFolder title parentID).
Proof.
  unfold createFolder.
  apply discreet_bind; [apply discreet_tallyOp | intros _].
  apply discreet_bind; [apply discreet_debugf | intros _].
  apply discreet_bind; [apply discreet_apiCall |].
  intros [err | id]; [apply discreet_throw | apply discreet_ret].
Qed.

Lemma discreet_relocateFile (fileID oldParentID : string) :
  discreet (relocateFile fileID oldParentID).
Proof.
  unfold relocateFile.
  apply discreet_bind; [apply discreet_tallyOp | intros _].
  apply discreet_bind; [apply discreet_debugf | intros _].
  apply discreet_getFlags; [| reflexivity].
  intros fl. apply discreet_bind; [apply discreet_apiCall |].
  intros [err | []]; [apply discreet_throw |].
  apply discreet_bind; [apply discreet_apiCall |].
  intros [err | []]; [apply discreet_throw | apply discreet_ret].
Qed.

Lemma discreet_createFile (localFile : Node) (parentID : string) :
  discreet (createFile localFile parentID).
Proof.
  unfold createFile.
  apply discreet_bind; [apply discreet_tallyOp | intros _].
  apply discreet_bind; [apply discreet_debugf | intros _].
  apply discreet_bind.
  { intros w. unfold os_Open, bind. rewrite !emit_spec. cbn [unreadable hush].
    unfold ret. cbn [hushed]. rewrite hush_step. reflexivity. }
  intros opened. destruct opened; cbn [negb]; [| apply discreet_fatal].
  intros w. cbn [mimeTypes hush].
  apply (discreet_bind (Files_Insert _ _ _ _)); [apply discreet_apiCall |].
  intros [err | id]; [apply discreet_throw | apply discreet_ret].
Qed.

Lemma discreet_processItem (remoteItems : list File) (nodeID : string)
  (localItem : Node) (recur : string -> M Node) :
  (forall id, discreet (recur id)) ->
  discreet (processItem remoteItems nodeID localItem recur).
Proof.
  intros Hrec. unfold processItem.
  apply discreet_getFlags; [| reflexivity]. intros fl.
  destruct (filepath.Rel _ _) as [relName |]; [| apply discreet_fatal].
  cbn zeta.
  apply discreet_bind.
  { destruct (findRemote _ _); [apply discreet_emit; reflexivity |
                                apply discreet_ret]. }
  intros _. destruct (IsDir (Info localItem)).
  - apply discreet_bind.
    + destruct (findRemote _ _); cbn [negb]; [apply discreet_ret |].
      apply discreet_bind;
        [apply discreet_wrapErr, discreet_createFolder | intros newID].
      apply discreet_bind; [apply discreet_emit; reflexivity | intros _].
      apply discreet_ret.
    + intros id. apply discreet_bind;
        [apply discreet_emit; reflexivity | intros _; apply Hrec].
  - apply discreet_bind.
    { destruct (findRemote _ _);
        [apply discreet_wrapErr, discreet_relocateFile | apply discreet_ret]. }
    intros _. apply discreet_bind;
      [apply discreet_wrapErr, discreet_createFile | intros newID].
    apply discreet_bind; [apply discreet_emit; reflexivity | intros _].
    apply discreet_bind; [apply discreet_emit; reflexivity | intros _].
    apply discreet_ret.
Qed.

Lemma discreet_eachItem (body : Node -> M Node) (items : list Node) :
  Forall (fun c => discreet (body c)) items ->
  discreet (eachItem body items).
Proof.
  induction 1 as [| c cs Hc _ IH]; cbn [eachItem]; [apply discreet_ret |].
  apply discreet_bind; [exact Hc | intros c'].
  apply discreet_bind; [exact IH | intros cs']. apply discreet_ret.
Qed.

Lemma discreet_processNode (node : Node) :
  forall nodeID, discreet (processNode node nodeID).
Proof.
  induction node as [fp info cs id IH] using Node_ind'. intros nodeID.
  rewrite processNode_eq. cbn [FullPath Info Children].
  apply discreet_bind; [apply discreet_debugf | intros _].
  apply discreet_bind; [apply discreet_wrapErr, discreet_listFolder |].
  intros remoteItems.
  apply discreet_bind; [| intros children; apply discreet_ret].
  apply discreet_eachItem.
  apply List.Forall_forall. intros c Hc.
  apply discreet_processItem. intros id'.
  rewrite List.Forall_forall in IH. apply IH, Hc.
Qed.

Lemma discreet_getFlags_start {A} (k : Flags -> M A) :
  (forall w, k (quietFlags (flags w)) (hush w) = hushed (k (flags w) w)) ->
  discreet (bind getFlags k).
Proof. intros Hk w. unfold bind, getFlags. apply Hk. Qed.

Lemma discreet_setFlags {A} (f f' : Flags) (k k' : M A) :
  f' = quietFlags f -> k' = k -> discreet k ->
  forall w, (setFlags f' ;;; k') (hush w) = hushed ((setFlags f ;;; k) w).
Proof.
  intros -> -> Hk w. unfold bind, setFlags. apply (Hk (withFlags w f)).
Qed.

Lemma discreet_main (os : OS) : discreet (main os).
Proof.
  unfold main. apply discreet_getFlags_start. intros w.
  cbn [gDriveRootID localDirToPush oldFilesDir quietFlags].
  destruct (String.eqb (gDriveRootID (flags w)) ""); [apply discreet_fatal |].
  destruct (String.eqb (localDirToPush (flags w)) "");
    [apply discreet_fatal |].
  destruct (String.eqb (oldFilesDir (flags w)) ""); [apply discreet_fatal |].
  destruct (os_Abs os (localDirToPush (flags w))) as [e | absPath];
    [apply discreet_fatal |].
  apply discreet_setFlags; [reflexivity | reflexivity |].
  apply discreet_bind; [apply discreet_emit; reflexivity | intros _].
  apply discreet_bind; [apply discreet_emit; reflexivity | intros _].
  destruct (os_driveClient os); [apply discreet_fatal |]. cbn zeta.
  destruct (directory_tree.err _); [apply discreet_fatal |].
  destruct (directory_tree.result _) as [ptr |]; [| intros w1; reflexivity].
  destruct (reify _ _ ptr) as [tree |]; [| intros w1; reflexivity].
  apply discreet_bind; [apply discreet_emit; reflexivity | intros _].
  apply discreet_bind; [| intros _; apply discreet_emit; reflexivity].
  intros w1. unfold orFatal.
  rewrite (discreet_processNode tree (gDriveRootID (flags w)) w1).
  destruct (processNode tree (gDriveRootID (flags w)) w1); cbn [hushed];
    [reflexivity | apply discreet_fatal | reflexivity | reflexivity].
Qed.

(** X14. The flag [--verbose] changes nothing but the debug output.  A
    process started without it does what the process started with it does:
    the same outcome (value, error, fatal message), the same store, the
    same counter, and the same events in the same order, the debug lines
    left out.  This holds for the reconciler and for the whole process. *)
Theorem verbose_only_adds_debug_output :
  (forall node nodeID w,
     processNode node nodeID (hush w) = hushed (processNode node nodeID w)) /\
  (forall os w, main os (hush w) = hushed (main os w)).
Proof.
  split.
  - intros node nodeID. apply discreet_processNode.
  - intros os. apply discreet_main.
Qed.

(** ** Errors of a run *)

Lemma failsWith_ret {A} (P : Flags -> string -> Prop) (a : A) :
  failsWith P (ret a).
Proof. intros w. reflexivity. Qed.

Lemma failsWith_bind {A B} (P : Flags -> string -> Prop) (m : M A)
  (k : A -> M B) :
  failsWith P m -> (forall a, failsWith P (k a)) -> failsWith P (bind m k).
Proof.
  intros Hm Hk w. unfold bind. specialize (Hm w).
  destruct (m w) as [a w1 | e w1 | |]; [| exact Hm | exact I | exact I].
  specialize (Hk a w1). rewrite Hm in Hk.
  destruct (k a w1); [congruence | exact Hk | exact I | exact I].
Qed.

Lemma failsWith_wrapErr {A} (P Q : Flags -> string -> Prop)
  (f : string -> string) (m : M A) :
  failsWith P m -> (forall fl e, P fl e -> Q fl (f e)) ->
  failsWith Q (wrapErr f m).
Proof.
  intros Hm Hf w. unfold wrapErr. specialize (Hm w).
  destruct (m w); [exact Hm | | exact I | exact I].
  destruct Hm as [HP Hlast]. split; [apply Hf, HP | exact Hlast].
Qed.

Lemma failsWith_weaken {A} (P Q : Flags -> string -> Prop) (m : M A) :
  failsWith P m -> (forall fl e, P fl e -> Q fl e) -> failsWith Q m.
Proof.
  intros Hm Hw w. specialize (Hm w).
  destruct (m w); [exact Hm | | exact I | exact I].
  destruct Hm as [HP Hlast]. split; [apply Hw, HP | exact Hlast].
Qed.

Lemma failsWith_emit (P : Flags -> string -> Prop) (e : Event) :
  failsWith P (emit e).
Proof. intros w. reflexivity. Qed.

Lemma failsWith_fatal {A} (P : Flags -> string -> Prop) (msg : string) :
  failsWith P (@fatal A msg).
Proof. intros w. exact I. Qed.

Lemma failsWith_debugf (P : Flags -> string -> Prop) (fn : string)
  (args : list string) :
  failsWith P (debugf fn args).
Proof. intros w. rewrite debugf_spec. reflexivity. Qed.

Lemma failsWith_getFlags (P : Flags -> string -> Prop) :
  failsWith P getFlags.
Proof. intros w. reflexivity. Qed.

Lemma ends_with_failed_call (w : World) (d : Drive) (n : Z)
  (pre : list Event) (c : ApiCall) :
  exists evs call,
    trace (step w d n (pre ++ [Remote c false])) = evs ++ [Remote call false].
Proof.
  exists (trace w ++ pre), c. cbn [trace step]. apply app_assoc.
Qed.

Lemma ends_with_failed_call_after (w : World) (d : Drive) (n : Z)
  (pre : list Event) (a : Event) (c : ApiCall) :
  exists evs call,
    trace (step w d n (pre ++ [a; Remote c false])) =
    evs ++ [Remote call false].
Proof.
  exists (trace w ++ pre ++ [a]), c. cbn [trace step].
  rewrite <- !app_assoc. reflexivity.
Qed.

Ltac failed_call :=
  cbv beta iota; split; [exact I |];
  match goal with
  | |- exists evs call,
         trace (step ?w ?d ?n (?pre ++ [Remote ?c false])) = _ =>
      exact (ends_with_failed_call w d n pre c)
  | |- exists evs call,
         trace (step ?w ?d ?n (?pre ++ [?a; Remote ?c false])) = _ =>
      exact (ends_with_failed_call_after w d n pre a c)
  end.

Lemma failsWith_createFolder (title parentID : string) :
  failsWith (fun _ _ => True) (createFolder title parentID).
Proof.
  intros w. rewrite createFolder_spec. cbn zeta.
  case_tally; [exact I |]. case_faulty; [failed_call | reflexivity].
Qed.

Lemma failsWith_createFile (localFile : Node) (parentID : string) :
  failsWith (fun _ _ => True) (createFile localFile parentID).
Proof.
  intros w. rewrite createFile_spec. cbn zeta.
  case_tally; [exact I |].
  destruct (existsb _ (unreadable w)); [exact I |].
  case_faulty; [failed_call | reflexivity].
Qed.

Lemma failsWith_relocateFile (fileID oldParentID : string) :
  failsWith (fun _ _ => True) (relocateFile fileID oldParentID).
Proof.
  intros w. rewrite relocateFile_spec. cbn zeta.
  case_tally; [exact I |]. case_faulty; [failed_call |].
  destruct (lookupFile (drv w) fileID); [| failed_call].
  case_faulty; [failed_call |].
  match goal with
  | |- context [if hasLink ?d ?p ?f then Ok _ _ else _] =>
      destruct (hasLink d p f); [reflexivity |]
  end.
  failed_call.
Qed.

Lemma failsWith_listFolder (parentID : string) :
  failsWith (fun _ _ => True) (listFolder parentID).
Proof.
  intros w. pose proof (listFolder_run parentID w) as H. cbn zeta in H.
  destruct (listFolder parentID w) as [items w' | e w' | |];
    [| | exact I | exact I].
  - destruct H as [_ ->]. reflexivity.
  - destruct H as [_ (j & _ & ->)]. split; [exact I |].
    exists (trace w ++ dbg w "listFolder" [parentID] ++
            map (fun p => Remote (FilesList parentID p) true) (seq 0 j)),
           (FilesList parentID j).
    cbn [trace step]. rewrite <- !app_assoc. reflexivity.
Qed.

Lemma failsWith_processItem (R : Flags -> string -> Prop)
  (remoteItems : list File) (nodeID : string) (localItem : Node)
  (recur : string -> M Node) :
  (forall id, failsWith R (recur id)) ->
  failsWith (fun fl e => entryError fl localItem e \/
                         (IsDir (Info localItem) = true /\ R fl e))
            (processItem remoteItems nodeID localItem recur).
Proof.
  intros Hrec w. unfold processItem, bind at 1, getFlags.
  destruct (filepath.Rel (localDirToPush (flags w)) (FullPath localItem))
    as [relName |] eqn:Hrel; [| exact I].
  cbn zeta.
  set (Q := fun fl e =>
              filepath.Rel (localDirToPush fl) (FullPath localItem) =
                Some relName ->
              entryError fl localItem e \/
              (IsDir (Info localItem) = true /\ R fl e)).
  match goal with
  | |- match ?m w with _ => _ end => assert (HQ : failsWith Q m)
  end.
  { apply failsWith_bind.
    { destruct (findRemote _ _); [apply failsWith_emit | apply failsWith_ret]. }
    intros _. destruct (IsDir (Info localItem)) eqn:Hdir.
    - apply failsWith_bind.
      + destruct (findRemote _ _); cbn [negb]; [apply failsWith_ret |].
        apply failsWith_bind; [| intros newID].
        * apply (failsWith_wrapErr (fun _ _ => True));
            [apply failsWith_createFolder |].
          intros fl e _ Hr. left. exists relName. eexists.
          split; [exact Hr |]. left. split; [exact Hdir | reflexivity].
        * apply failsWith_bind; [apply failsWith_emit | intros _].
          apply failsWith_ret.
      + intros id. apply failsWith_bind; [apply failsWith_emit | intros _].
        apply (failsWith_weaken R); [apply Hrec |].
        intros fl e Hr _. right. split; [reflexivity | exact Hr].
    - apply failsWith_bind.
      { destruct (findRemote _ _); [| apply failsWith_ret].
        apply (failsWith_wrapErr (fun _ _ => True));
          [apply failsWith_relocateFile |].
        intros fl e _ Hr. left. exists relName. eexists.
        split; [exact Hr |]. right. split; [exact Hdir |]. left.
        reflexivity. }
      intros _. apply failsWith_bind; [| intros newID].
      + apply (failsWith_wrapErr (fun _ _ => True));
          [apply failsWith_createFile |].
        intros fl e _ Hr. left. exists relName. eexists.
        split; [exact Hr |]. right. split; [exact Hdir |]. right.
        reflexivity.
      + apply failsWith_bind; [apply failsWith_emit | intros _].
        apply failsWith_bind; [apply failsWith_emit | intros _].
        apply failsWith_ret. }
  specialize (HQ w).
  match goal with
  | |- match ?m w with _ => _ end => destruct (m w)
  end; [exact HQ | | exact I | exact I].
  destruct HQ as [HQ Hlast]. split; [apply HQ, Hrel | exact Hlast].
Qed.

Lemma failsWith_eachItem (P : Flags -> string -> Prop)
  (body : Node -> M Node) (items : list Node) :
  Forall (fun c => failsWith P (body c)) items ->
  failsWith P (eachItem body items).
Proof.
  induction 1 as [| c cs Hc _ IH]; cbn [eachItem]; [apply failsWith_ret |].
  apply failsWith_bind; [exact Hc | intros c'].
  apply failsWith_bind; [exact IH | intros cs']. apply failsWith_ret.
Qed.

Lemma failsWith_processNode (node : Node) :
  forall nodeID,
    failsWith (fun fl e =>
                 listingError e \/
                 exists c, In c (entries node) /\ entryError fl c e)
              (processNode node nodeID).
Proof.
  induction node as [fp info cs id IH] using Node_ind'. intros nodeID.
  rewrite processNode_eq. cbn [FullPath Info Children].
  apply failsWith_bind; [apply failsWith_debugf | intros _].
  apply failsWith_bind.
  { apply (failsWith_wrapErr (fun _ _ => True));
      [apply failsWith_listFolder |].
    intros fl e _. left. eexists. reflexivity. }
  intros remoteItems.
  apply failsWith_bind; [| intros children; apply failsWith_ret].
  apply failsWith_eachItem.
  apply List.Forall_forall. intros c Hc.
  rewrite List.Forall_forall in IH.
  eapply failsWith_weaken;
    [apply failsWith_processItem; intros id'; apply (IH c Hc) |].
  cbn beta. intros fl e [Hown | [Hdir [Hlist | (c' & Hc' & Hown)]]].
  - right. exists c. split; [| exact Hown].
    rewrite entries_eq. cbn [Children]. apply in_flat_map.
    exists c. split; [exact Hc | left; reflexivity].
  - left. exact Hlist.
  - right. exists c'. split; [| exact Hown].
    rewrite entries_eq. cbn [Children]. apply in_flat_map.
    exists c. split; [exact Hc |]. rewrite Hdir. right. exact Hc'.
Qed.

(** X15. When the reconciler hands back an error, the last thing that
    happened is a call that the service failed, and the error tells what
    failed.  A write that failed is named with the relative path of its
    entry, an entry of the tree: [Problem creating GDrive folder],
    [Problem relocating GDrive file] or [Problem creating Gdrive file],
    then the path as [%q] prints it (between double quotes, with a
    backslash before a double quote or a backslash, control characters
    escaped).  A listing that failed comes up as
    [Problem listing GDrive folder: ], for the node or for any directory
    below it alike: the error of a directory below is passed up as it is,
    and does not say which folder it was.  (For relative paths in ASCII
    without DEL, on which [quoted] is [%q].) *)
Theorem processNode_error_names_the_entry (node : Node) (nodeID : string)
  (w : World) (e : string) (w' : World) :
  Forall (fun c => isASCII (relNameOf w c) = true) (entries node) ->
  processNode node nodeID w = Err e w' ->
  (listingError e \/
   exists c, In c (entries node) /\ isASCII (relNameOf w c) = true /\
             entryError (flags w) c e) /\
  exists evs call, trace w' = evs ++ [Remote call false].
Proof.
  intros Hascii Hrun.
  pose proof (failsWith_processNode node nodeID w) as H.
  rewrite Hrun in H. destruct H as [[Hl | (c & Hc & He)] Hlast].
  - split; [left; exact Hl | exact Hlast].
  - split; [| exact Hlast]. right. exists c.
    split; [exact Hc |]. split; [| exact He].
    rewrite List.Forall_forall in Hascii. apply Hascii, Hc.
Qed.

Lemma processNode_error_names_the_entry_witness :
  exists w',
    processNode
      (mkNode "/home/u" (dirInfo "u")
         [mkNode ("/home/u/a" +:+ dquote +:+ "b")
                 (dirInfo ("a" +:+ dquote +:+ "b")) [] ""] "")
      "root"
      (startWorld (flagsWith 20) (mkDrive [] [] 0 0 [1%nat] 0) [] [])
    = Err ("Problem creating GDrive folder " +:+
           dquote +:+ "a" +:+ backslash +:+ dquote +:+ "b" +:+ dquote +:+
           ": " +:+
           "Problem creating new GDrive folder: service unavailable") w' /\
    exists evs call, trace w' = evs ++ [Remote call false].
Proof.
  eexists.
  destruct (processNode_error_names_the_entry
              (mkNode "/home/u" (dirInfo "u")
                 [mkNode ("/home/u/a" +:+ dquote +:+ "b")
                         (dirInfo ("a" +:+ dquote +:+ "b")) [] ""] "")
              "root"
              (startWorld (flagsWith 20) (mkDrive [] [] 0 0 [1%nat] 0) [] [])
              ("Problem creating GDrive folder " +:+
               dquote +:+ "a" +:+ backslash +:+ dquote +:+ "b" +:+ dquote +:+
               ": " +:+
               "Problem creating new GDrive folder: service unavailable")
              (final_world
                 (processNode
                    (mkNode "/home/u" (dirInfo "u")
                       [mkNode ("/home/u/a" +:+ dquote +:+ "b")
                               (dirInfo ("a" +:+ dquote +:+ "b")) [] ""] "")
                    "root"
                    (startWorld (flagsWith 20)
                       (mkDrive [] [] 0 0 [1%nat] 0) [] []))))
    as (_ & Hlast).
  - repeat constructor.
  - vm_compute. reflexivity.
  - split; [vm_compute; reflexivity | exact Hlast].
Defined.

(** ** The tree handed back *)

Lemma blank_eq (n : Node) :
  blank n = mkNode (FullPath n) (Info n) (map blank (Children n)) "".
Proof. destruct n; reflexivity. Qed.

Lemma blank_rebuild (d : Done) :
  shaped d -> blank (rebuild d) = blank (dItem d).
Proof.
  induction d as [c m id below IH] using Done_ind'.
  rewrite shaped_eq, rebuild_eq. cbn [dItem dBelow dNewID]. intros Hsh.
  destruct (IsDir (Info c)) eqn:Hdir.
  - destruct Hsh as [Hitems Hall].
    rewrite (blank_eq c), blank_eq. cbn [FullPath Info Children].
    f_equal. rewrite <- Hitems, !map_map.
    clear Hitems. induction IH as [| x l Hx _ IHl]; [reflexivity |].
    inversion Hall; subst. cbn [map]. rewrite Hx, IHl by assumption.
    reflexivity.
  - unfold withDriveID. rewrite (blank_eq c), blank_eq. reflexivity.
Qed.

(** X16. A run of the reconciler that succeeds hands back the tree it was
    given, with identifiers filled in and nothing else changed: the same
    nodes in the same order, with their paths and file information.  The
    node itself carries the identifier of the folder it was pushed to. *)
Theorem processNode_only_fills_in_identifiers (node : Node)
  (nodeID : string) (w : World) (node' : Node) (w' : World) :
  processNode node nodeID w = Ok node' w' ->
  blank node' = blank node /\
  DriveID node' = nodeID /\
  map FullPath (entries node') = map FullPath (entries node) /\
  map Info (entries node') = map Info (entries node).
Proof.
  intros Hrun.
  apply processNode_shape in Hrun
    as (ds & Hitems & Hshaped & -> & _).
  assert (Hblank : map blank (map rebuild ds) = map blank (Children node)).
  { rewrite <- Hitems, !map_map. clear Hitems.
    induction Hshaped as [| d l Hd _ IH]; [reflexivity |].
    cbn [map]. rewrite (blank_rebuild d Hd), IH. reflexivity. }
  split.
  { rewrite (blank_eq node), blank_eq. cbn [FullPath Info Children].
    rewrite Hblank. reflexivity. }
  split; [reflexivity |].
  rewrite <- (rebuild_entries _ _ _ ds Hshaped).
  rewrite <- (flatten_entries node ds Hitems Hshaped), !map_map.
  split; apply map_ext; intros d; rewrite rebuild_eq;
    destruct (IsDir (Info (dItem d))); reflexivity.
Qed.

Lemma processNode_only_fills_in_identifiers_witness :
  blank (mkNode "/home/u" (dirInfo "u")
           [mkNode "/home/u/a" (dirInfo "a")
              [mkNode "/home/u/a/x.txt" (fileInfo "x.txt" 10) [] "#1"]
              "#0"]
           "root") = blank uFolder.
Proof.
  apply (processNode_only_fills_in_identifiers uFolder "root"
           (startWorld (flagsWith 20) emptyDrive [] [])
           (mkNode "/home/u" (dirInfo "u")
              [mkNode "/home/u/a" (dirInfo "a")
                 [mkNode "/home/u/a/x.txt" (fileInfo "x.txt" 10) [] "#1"]
                 "#0"]
              "root")
           (final_world
              (processNode uFolder "root"
                 (startWorld (flagsWith 20) emptyDrive [] [])))).
  vm_compute. reflexivity.
Defined.

(** ** The ceiling is inclusive *)

Lemma tallyTimes_from (k : nat) :
  forall w,
    (0 <= opsExecuted w <= maxOps (flags w))%Z ->
    (maxOps (flags w) < int_max)%Z ->
    match tallyTimes k w with
    | Ok _ w' =>
        (opsExecuted w + Z.of_nat k <= maxOps (flags w))%Z /\
        opsExecuted w' = (opsExecuted w + Z.of_nat k)%Z
    | Fatal msg w' =>
        (maxOps (flags w) < opsExecuted w + Z.of_nat k)%Z /\
        opsExecuted w' = (maxOps (flags w) + 1)%Z /\
        msg = tallyMsg (maxOps (flags w) + 1) /\
        drv w' = drv w
    | _ => False
    end.
Proof.
  induction k as [| k IH]; intros w Hc Hm.
  - cbn. split; lia.
  - cbn [tallyTimes]. unfold bind. rewrite tallyOp_spec. cbn zeta.
    rewrite wrap_int_small by (unfold int_min, int_max in *; lia).
    destruct (Z.ltb_spec (maxOps (flags w)) (opsExecuted w + 1)).
    + assert (opsExecuted w = maxOps (flags w)) as -> by lia.
      cbn [opsExecuted step drv].
      split; [lia |]. split; [reflexivity |]. split; reflexivity.
    + specialize (IH (step w (drv w) (opsExecuted w + 1)
                           [Tally (opsExecuted w + 1)])).
      cbn [opsExecuted flags step drv] in IH.
      specialize (IH ltac:(lia) Hm).
      destruct (tallyTimes k _) as [[] w' | | msg w' |];
        [| exact IH | | exact IH].
      * destruct IH as [Hle ->]. split; lia.
      * destruct IH as (Hlt & -> & -> & ->).
        split; [lia |]. repeat split; reflexivity.
Qed.

(** X17. The ceiling is inclusive.  In a process that starts with the
    counter at zero, as many counted operations go through as the ceiling
    says, and the next one ends the process: it is the operation that takes
    the counter over the ceiling that is fatal, the message gives the
    counter (the ceiling plus one), and the counter stays there.  With
    ceiling 0 the first write is fatal. *)
Theorem ceiling_is_inclusive (w : World) (k : nat) :
  opsExecuted w = 0%Z ->
  (0 <= maxOps (flags w) < int_max)%Z ->
  match tallyTimes k w with
  | Ok _ w' =>
      (Z.of_nat k <= maxOps (flags w))%Z /\ opsExecuted w' = Z.of_nat k
  | Fatal msg w' =>
      (maxOps (flags w) < Z.of_nat k)%Z /\
      opsExecuted w' = (maxOps (flags w) + 1)%Z /\
      msg = "Oops, --max_gdrive_ops reached (" +:+
            pretty (maxOps (flags w) + 1)%Z +:+ ") exiting"
  | _ => False
  end.
Proof.
  intros H0 Hm. pose proof (tallyTimes_from k w ltac:(lia) ltac:(lia)) as H.
  rewrite H0 in H. cbn [Z.add] in H.
  destruct (tallyTimes k w) as [[] w' | | msg w' |];
    [exact H | exact H | | exact H].
  destruct H as (Hlt & Hops & Hmsg & _). repeat split; assumption.
Qed.

Lemma ceiling_is_inclusive_witness :
  (exists w', tallyTimes 2 (startWorld (flagsWith 2) emptyDrive [] [])
              = Ok tt w') /\
  (exists w', tallyTimes 3 (startWorld (flagsWith 2) emptyDrive [] [])
              = Fatal "Oops, --max_gdrive_ops reached (3) exiting" w').
Proof.
  split.
  - pose proof (ceiling_is_inclusive
                  (startWorld (flagsWith 2) emptyDrive [] []) 2 eq_refl) as H.
    destruct (tallyTimes 2 (startWorld (flagsWith 2) emptyDrive [] []))
      as [[] w' | | |] eqn:E; try (vm_compute in E; discriminate E).
    exists w'. reflexivity.
  - pose proof (ceiling_is_inclusive
                  (startWorld (flagsWith 2) emptyDrive [] []) 3 eq_refl) as H.
    destruct (tallyTimes 3 (startWorld (flagsWith 2) emptyDrive [] []))
      as [| | msg w' |] eqn:E; try (vm_compute in E; discriminate E).
    destruct H as (_ & _ & ->); [vm_compute; split; [discriminate | reflexivity] |].
    exists w'. reflexivity.
Defined.

(** ** The lines of a run that stops *)

Lemma lineOf_flags (w w1 : World) (c : Node) (st : Status) :
  flags w1 = flags w -> lineOf w1 c st = lineOf w c st.
Proof. intros H. unfold lineOf, relNameOf. rewrite H. reflexivity. Qed.

Lemma zip_with_lineOf_flags (w w1 : World) (es : list Node)
  (sts : list Status) :
  flags w1 = flags w ->
  zip_with (lineOf w1) es sts = zip_with (lineOf w) es sts.
Proof.
  intros H. revert sts. induction es as [| c es IH]; intros [| st sts];
    cbn; try reflexivity.
  rewrite (lineOf_flags w w1 c st H), IH. reflexivity.
Qed.

Lemma zip_with_short {A B C} (f : A -> B -> C) (l1 l2 : list A)
  (k : list B) :
  (length k <= length l1)%nat ->
  zip_with f (l1 ++ l2) k = zip_with f l1 k.
Proof.
  revert k. induction l1 as [| x l1 IH]; intros [| y k] Hlen; cbn in *;
    try reflexivity; try lia.
  - destruct l2; reflexivity.
  - rewrite IH by lia. reflexivity.
Qed.

Lemma stdoutOf_app (e1 e2 : list Event) :
  stdoutOf (e1 ++ e2) = stdoutOf e1 ++ stdoutOf e2.
Proof. apply flat_map_app. Qed.

Lemma printsFor_bind {A B} (G : Flags -> Prop) (es1 es2 : list Node)
  (m : M A) (k : A -> M B) :
  printsFor G es1 m -> (forall a, printsFor G es2 (k a)) ->
  printsFor G (es1 ++ es2) (bind m k).
Proof.
  intros Hm Hk w. unfold bind.
  destruct (Hm w) as (Hfl & evs1 & sts1 & Ht1 & Hle1 & Hok1 & Hout1).
  destruct (m w) as [a w1 | e w1 | msg w1 | msg w1]; cbn [final_world] in *.
  - destruct (Hk a w1) as (Hfl2 & evs2 & sts2 & Ht2 & Hle2 & Hok2 & Hout2).
    specialize (Hok1 eq_refl).
    split; [congruence |].
    exists (evs1 ++ evs2), (sts1 ++ sts2).
    split; [rewrite Ht2, Ht1, <- app_assoc; reflexivity |].
    split; [rewrite !length_app; lia |].
    split; [intros H; rewrite !length_app, (Hok2 H); lia |].
    intros HG. rewrite stdoutOf_app, (Hout1 HG), Hout2 by (rewrite Hfl; exact HG).
    rewrite (zip_with_lineOf_flags w w1 _ _ Hfl).
    symmetry. apply zip_with_app. symmetry. exact Hok1.
  - split; [exact Hfl |]. exists evs1, sts1.
    split; [exact Ht1 |]. split; [rewrite length_app; lia |].
    split; [discriminate |].
    intros HG. rewrite (Hout1 HG). symmetry. apply zip_with_short, Hle1.
  - split; [exact Hfl |]. exists evs1, sts1.
    split; [exact Ht1 |]. split; [rewrite length_app; lia |].
    split; [discriminate |].
    intros HG. rewrite (Hout1 HG). symmetry. apply zip_with_short, Hle1.
  - split; [exact Hfl |]. exists evs1, sts1.
    split; [exact Ht1 |]. split; [rewrite length_app; lia |].
    split; [discriminate |].
    intros HG. rewrite (Hout1 HG). symmetry. apply zip_with_short, Hle1.
Qed.

Lemma printsFor_weaken {A} (G G' : Flags -> Prop) (es : list Node)
  (m : M A) :
  (forall fl, G' fl -> G fl) -> printsFor G es m -> printsFor G' es m.
Proof.
  intros HG Hm w.
  destruct (Hm w) as (Hfl & evs & sts & Ht & Hle & Hok & Hout).
  split; [exact Hfl |]. exists evs, sts. repeat split; auto.
Qed.

Lemma printsFor_wrapErr {A} (G : Flags -> Prop) (es : list Node)
  (f : string -> string) (m : M A) :
  printsFor G es m -> printsFor G es (wrapErr f m).
Proof.
  intros Hm w. specialize (Hm w). unfold wrapErr.
  destruct (m w); exact Hm.
Qed.

(** A computation that prints no status line. *)
Lemma printsFor_silent {A} (G : Flags -> Prop) (m : M A) :
  (forall w, exists d n evs,
      final_world (m w) = step w d n evs /\ stdoutOf evs = []) ->
  printsFor G [] m.
Proof.
  intros H w. destruct (H w) as (d & n & evs & -> & Hout).
  split; [reflexivity |]. exists evs, [].
  split; [reflexivity |]. split; [reflexivity |].
  split; [reflexivity |]. intros _. exact Hout.
Qed.

Lemma printsFor_ret {A} (G : Flags -> Prop) (a : A) : printsFor G [] (ret a).
Proof.
  apply printsFor_silent. intros w. exists (drv w), (opsExecuted w), [].
  split; [symmetry; apply step_id | reflexivity].
Qed.

Lemma printsFor_emit (G : Flags -> Prop) (e : Event) :
  stdoutOf [e] = [] -> printsFor G [] (emit e).
Proof.
  intros He. apply printsFor_silent. intros w. rewrite emit_spec.
  eexists _, _, _. split; [reflexivity | exact He].
Qed.

Lemma printsFor_fatal {A} (G : Flags -> Prop) (msg : string) :
  printsFor G [] (@fatal A msg).
Proof.
  apply printsFor_silent. intros w. rewrite fatal_spec.
  eexists _, _, _. split; reflexivity.
Qed.

Lemma stdoutOf_dbg (w : World) (fn : string) (args : list string) :
  stdoutOf (dbg w fn args) = [].
Proof. unfold dbg. destruct (verbose (flags w)); reflexivity. Qed.

Lemma stdoutOf_op (n : Z) (w : World) (fn : string) (args : list string)
  (rest : list Event) :
  stdoutOf (Tally n :: dbg w fn args ++ rest) = stdoutOf rest.
Proof.
  unfold stdoutOf, dbg. destruct (verbose (flags w)); reflexivity.
Qed.

Lemma printsFor_debugf (G : Flags -> Prop) (fn : string)
  (args : list string) :
  printsFor G [] (debugf fn args).
Proof.
  apply printsFor_silent. intros w. rewrite debugf_spec.
  eexists _, _, _. split; [reflexivity | apply stdoutOf_dbg].
Qed.

Ltac silent_world :=
  cbn [final_world]; eexists _, _, _;
  (split; [reflexivity |]); cbn [app]; rewrite ?stdoutOf_op; reflexivity.

Lemma printsFor_createFolder (G : Flags -> Prop) (title parentID : string) :
  printsFor G [] (createFolder title parentID).
Proof.
  apply printsFor_silent. intros w. rewrite createFolder_spec. cbn zeta.
  case_tally; [silent_world |]. case_faulty; silent_world.
Qed.

Lemma printsFor_createFile (G : Flags -> Prop) (localFile : Node)
  (parentID : string) :
  printsFor G [] (createFile localFile parentID).
Proof.
  apply printsFor_silent. intros w. rewrite createFile_spec. cbn zeta.
  case_tally; [silent_world |].
  destruct (existsb _ (unreadable w)); [silent_world |].
  case_faulty; silent_world.
Qed.

Lemma printsFor_relocateFile (G : Flags -> Prop)
  (fileID oldParentID : string) :
  printsFor G [] (relocateFile fileID oldParentID).
Proof.
  apply printsFor_silent. intros w. rewrite relocateFile_spec. cbn zeta.
  case_tally; [silent_world |]. case_faulty; [silent_world |].
  destruct (lookupFile (drv w) fileID); [| silent_world].
  case_faulty; [silent_world |].
  match goal with
  | |- context [if hasLink ?d ?p ?f then Ok _ _ else _] =>
      destruct (hasLink d p f)
  end; silent_world.
Qed.

Lemma printsFor_listFolder (G : Flags -> Prop) (parentID : string) :
  printsFor G [] (listFolder parentID).
Proof.
  apply printsFor_silent. intros w.
  pose proof (listFolder_run parentID w) as H. cbn zeta in H.
  destruct (listFolder parentID w) as [items w' | e w' | |];
    [| | destruct H | destruct H].
  - destruct H as [_ ->]. cbn [final_world]. eexists _, _, _.
    split; [reflexivity |].
    rewrite stdoutOf_app, stdoutOf_dbg. apply stdoutOf_noise, pages_noise.
  - destruct H as [_ (j & _ & ->)]. cbn [final_world]. eexists _, _, _.
    split; [reflexivity |].
    rewrite !stdoutOf_app, stdoutOf_dbg, (stdoutOf_noise _ (pages_noise _ _)).
    reflexivity.
Qed.

(** The line of an entry, once its relative name is known. *)
Lemma printsFor_line (c : Node) (relName : string) (st : Status)
  (line : string) :
  line = statusLine st relName (IsDir (Info c)) (Size (Info c)) ->
  printsFor (fun fl => filepath.Rel (localDirToPush fl) (FullPath c) =
                       Some relName)
            [c] (printf line).
Proof.
  intros -> w. unfold printf. rewrite emit_spec. cbn [final_world].
  split; [reflexivity |]. eexists _, [st].
  split; [reflexivity |]. split; [reflexivity |].
  split; [reflexivity |]. intros Hrel. cbn [zip_with].
  unfold lineOf, relNameOf. rewrite Hrel. reflexivity.
Qed.

Lemma printsFor_fatal_at {A} (G : Flags -> Prop) (es : list Node)
  (msg : string) :
  printsFor G es (@fatal A msg).
Proof.
  intros w. rewrite fatal_spec. cbn [final_world isOk].
  split; [reflexivity |]. eexists _, [].
  split; [reflexivity |]. split; [cbn; lia |].
  split; [discriminate |]. intros _. destruct es; reflexivity.
Qed.

Lemma printsFor_getFlags {A} (G : Flags -> Prop) (es : list Node)
  (k : Flags -> M A) :
  (forall fl, printsFor (fun fl' => G fl' /\ fl' = fl) es (k fl)) ->
  printsFor G es (bind getFlags k).
Proof.
  intros H w. unfold bind, getFlags.
  destruct (H (flags w) w) as (Hfl & evs & sts & Ht & Hle & Hok & Hout).
  split; [exact Hfl |]. exists evs, sts.
  split; [exact Ht |]. split; [exact Hle |]. split; [exact Hok |].
  intros HG. apply Hout. split; [exact HG | reflexivity].
Qed.

Lemma printsFor_processItem (remoteItems : list File) (nodeID : string)
  (localItem : Node) (recur : string -> M Node) :
  (IsDir (Info localItem) = true ->
   forall id, printsFor (fun _ => True) (entries localItem) (recur id)) ->
  printsFor (fun _ => True) (selfAndBelow localItem)
            (processItem remoteItems nodeID localItem recur).
Proof.
  intros Hrec. unfold processItem. apply printsFor_getFlags. intros fl.
  destruct (filepath.Rel (localDirToPush fl) (FullPath localItem))
    as [relName |] eqn:Hrel; [| apply printsFor_fatal_at].
  cbn zeta.
  apply (printsFor_weaken
           (fun fl' => filepath.Rel (localDirToPush fl') (FullPath localItem) =
                       Some relName));
    [intros fl' [_ ->]; exact Hrel |].
  change (selfAndBelow localItem) with ([] ++ selfAndBelow localItem).
  apply printsFor_bind.
  { destruct (findRemote _ _);
      [apply printsFor_emit; reflexivity | apply printsFor_ret]. }
  intros _. unfold selfAndBelow.
  destruct (IsDir (Info localItem)) eqn:Hdir.
  - change (localItem :: entries localItem)
      with ([] ++ [localItem] ++ entries localItem).
    apply printsFor_bind.
    + destruct (findRemote _ _); cbn [negb]; [apply printsFor_ret |].
      change (@nil Node) with (@nil Node ++ [] ++ []).
      apply printsFor_bind;
        [apply printsFor_wrapErr, printsFor_createFolder | intros newID].
      apply printsFor_bind;
        [apply printsFor_emit; reflexivity | intros _; apply printsFor_ret].
    + intros id. apply printsFor_bind.
      * destruct (findRemote _ _); cbn [negb].
        -- apply (printsFor_line localItem relName Unchanged).
           rewrite Hdir. reflexivity.
        -- apply (printsFor_line localItem relName Created).
           rewrite Hdir. reflexivity.
      * intros _. apply (printsFor_weaken (fun _ => True));
          [auto | apply Hrec; reflexivity].
  - change [localItem] with ([] ++ [] ++ [] ++ [localItem] ++ []).
    apply printsFor_bind.
    { destruct (findRemote _ _);
        [apply printsFor_wrapErr, printsFor_relocateFile
        | apply printsFor_ret]. }
    intros _. apply printsFor_bind;
      [apply printsFor_wrapErr, printsFor_createFile | intros newID].
    apply printsFor_bind; [apply printsFor_emit; reflexivity | intros _].
    apply printsFor_bind; [| intros _; apply printsFor_ret].
    destruct (findRemote _ _).
    + apply (printsFor_line localItem relName Modified).
      rewrite Hdir. reflexivity.
    + apply (printsFor_line localItem relName Created).
      rewrite Hdir. reflexivity.
Qed.

Lemma printsFor_eachItem (body : Node -> M Node) (items : list Node) :
  Forall (fun c => printsFor (fun _ => True) (selfAndBelow c) (body c))
         items ->
  printsFor (fun _ => True) (flat_map selfAndBelow items)
            (eachItem body items).
Proof.
  induction 1 as [| c cs Hc _ IH]; cbn [eachItem flat_map];
    [apply printsFor_ret |].
  apply printsFor_bind; [exact Hc | intros c'].
  rewrite <- (app_nil_r (flat_map selfAndBelow cs)).
  apply printsFor_bind; [exact IH | intros cs']. apply printsFor_ret.
Qed.

Lemma printsFor_processNode (node : Node) :
  forall nodeID,
    printsFor (fun _ => True) (entries node) (processNode node nodeID).
Proof.
  induction node as [fp info cs id IH] using Node_ind'. intros nodeID.
  rewrite processNode_eq, entries_eq. cbn [FullPath Info Children].
  change (flat_map _ cs) with ([] ++ [] ++ flat_map selfAndBelow cs).
  apply printsFor_bind; [apply printsFor_debugf | intros _].
  apply printsFor_bind;
    [apply printsFor_wrapErr, printsFor_listFolder | intros remoteItems].
  rewrite <- (app_nil_r (flat_map selfAndBelow cs)).
  apply printsFor_bind; [| intros children; apply printsFor_ret].
  apply printsFor_eachItem.
  apply List.Forall_forall. intros c Hc.
  apply printsFor_processItem. intros _ id'.
  rewrite List.Forall_forall in IH. apply IH, Hc.
Qed.

(** X18. However a run of the reconciler ends (with the tree, with an
    error or with a fatal exit), the status lines it printed are those of
    the first entries of the walk, in order, one line for each: no entry is
    skipped or reported twice, and nothing is printed for the entries
    behind the point where the run stopped.  A run that succeeds has
    printed a line for every entry. *)
Theorem lines_follow_the_walk (node : Node) (nodeID : string) (w : World) :
  let o := processNode node nodeID w in
  exists sts,
    (length sts <= length (entries node))%nat /\
    (isOk o = true -> length sts = length (entries node)) /\
    stdoutOf (delta w (final_world o)) =
      zip_with (lineOf w) (entries node) sts.
Proof.
  cbn zeta.
  destruct (printsFor_processNode node nodeID w)
    as (_ & evs & sts & Ht & Hle & Hok & Hout).
  exists sts. split; [exact Hle |]. split; [exact Hok |].
  unfold delta. rewrite Ht, drop_app_length. apply Hout. exact I.
Qed.

(** ** Files with a remote match, in general *)

Lemma hasLink_removeLink_same (d : Drive) (p f : string) :
  hasLink (removeLink d p f) p f = false.
Proof.
  unfold hasLink, removeLink. cbn [links].
  induction (links d) as [| [a b] l IH]; cbn; [reflexivity |].
  destruct (String.eqb a p && String.eqb b f) eqn:E; cbn; [exact IH |].
  rewrite E, IH. reflexivity.
Qed.

Lemma hasLink_addFile_old (d : Drive) (file : File) (p' p f : string) :
  Id file <> f -> hasLink (addFile d file p') p f = hasLink d p f.
Proof.
  intros Hne. unfold hasLink at 1. cbn [links addFile].
  rewrite hasLink_app. cbn.
  destruct (String.eqb_spec (Id file) f) as [E | _]; [contradiction |].
  rewrite andb_false_r, !orb_false_r. reflexivity.
Qed.

Lemma faulty_at (d : Drive) (j : nat) (d' : Drive) :
  faults d' = faults d -> calls d' = (calls d + j)%nat ->
  faulty d' = faulty (withCalls d (calls d + j)).
Proof. intros Hf Hc. unfold faulty. cbn. rewrite Hf, Hc. reflexivity. Qed.

(** The loop body for a matched file goes through when nothing stands in
    its way. *)
Lemma matched_file_goes_through (remoteItems : list File)
  (nodeID : string) (localItem : Node) (recur : string -> M Node)
  (w : World) (remoteItem : File) :
  IsDir (Info localItem) = false ->
  findRemote remoteItems (Name (Info localItem)) = Some remoteItem ->
  filepath.Rel (localDirToPush (flags w)) (FullPath localItem) <> None ->
  (int_min <= opsExecuted w)%Z ->
  (opsExecuted w + 2 <= maxOps (flags w))%Z ->
  (maxOps (flags w) <= int_max)%Z ->
  (forall j, (j < 3)%nat ->
             faulty (withCalls (drv w) (calls (drv w) + j)) = false) ->
  In remoteItem (childrenOf (drv w) nodeID) ->
  existsb (String.eqb (FullPath localItem)) (unreadable w) = false ->
  isOk (processItem remoteItems nodeID localItem recur w) = true.
Proof.
  intros Hdir Hfind Hrel Hmin Hroom Hmax Hserv Hin Hopen.
  apply childrenOf_In_link in Hin as [Hlink Hreg].
  unfold processItem, bind, getFlags. rewrite Hfind, Hdir.
  destruct (filepath.Rel (localDirToPush (flags w)) (FullPath localItem))
    as [relName |]; [clear Hrel | contradiction].
  unfold assign, printf, wrapErr, ret. rewrite emit_spec.
  rewrite relocateFile_spec. wsimpl. rewrite ?step_step, ?dbg_step.
  rewrite (wrap_int_small (opsExecuted w + 1)) by lia.
  replace (Z.ltb (maxOps (flags w)) (opsExecuted w + 1)) with false
    by (symmetry; apply Z.ltb_ge; lia).
  rewrite (faulty_at (drv w) 0 (drv w) eq_refl (eq_sym (Nat.add_0_r _))),
    (Hserv 0%nat) by lia.
  rewrite Hreg.
  match goal with
  | |- context [faulty ?d] => remember d as d1 eqn:Hd1
  end.
  assert (Hd1' : faults d1 = faults (drv w) /\
                 calls d1 = (calls (drv w) + 1)%nat /\
                 hasLink d1 nodeID (Id remoteItem) = true).
  { rewrite Hd1.
    destruct (hasLink (drv w) (oldFilesDir (flags w)) (Id remoteItem)).
    - cbn [faults calls tick withCalls]. rewrite Nat.add_1_r.
      repeat split; auto.
    - cbn [faults calls tick withCalls addLink]. rewrite Nat.add_1_r.
      repeat split; auto. apply hasLink_addLink_mono. exact Hlink. }
  destruct Hd1' as (Hf1 & Hc1 & Hl1). clear Hd1.
  rewrite (faulty_at (drv w) 1 d1 Hf1 Hc1), (Hserv 1%nat), Hl1 by lia.
  rewrite createFile_spec. wsimpl. rewrite ?step_step, ?dbg_step.
  rewrite (wrap_int_small (opsExecuted w + 1 + 1)) by lia.
  replace (Z.ltb (maxOps (flags w)) (opsExecuted w + 1 + 1)) with false
    by (symmetry; apply Z.ltb_ge; lia).
  rewrite Hopen.
  match goal with
  | |- context [if faulty ?d then _ else _] =>
      rewrite (faulty_at (drv w) 2 d)
  end; [| cbn; exact Hf1 | cbn; rewrite Hc1; lia].
  rewrite (Hserv 2%nat) by lia.
  rewrite !emit_spec. reflexivity.
Qed.

Lemma matched_file_calls (remoteItems : list File)
  (nodeID : string) (localItem : Node) (recur : string -> M Node)
  (w : World) (remoteItem : File) :
  IsDir (Info localItem) = false ->
  findRemote remoteItems (Name (Info localItem)) = Some remoteItem ->
  let o := processItem remoteItems nodeID localItem recur w in
  let relocation :=
    [ParentsInsert (Id remoteItem) (oldFilesDir (flags w));
     ParentsDelete (Id remoteItem) nodeID] in
  let upload := uploadCall w localItem nodeID in
  exists evs,
    trace (final_world o) = trace w ++ evs /\
    remoteCalls evs `prefix_of` relocation ++ [upload] /\
    forall localItem' w',
      o = Ok localItem' w' ->
      remoteCalls evs = relocation ++ [upload] /\
      failedCalls evs = [] /\
      (forall f, In f (files (drv w)) -> In f (files (drv w'))) /\
      lookupFile (drv w') (Id remoteItem) <> None /\
      (oldFilesDir (flags w) <> nodeID ->
       hasLink (drv w') (oldFilesDir (flags w)) (Id remoteItem) = true) /\
      (Id remoteItem <> id_of (nextId (drv w)) ->
       hasLink (drv w') nodeID (Id remoteItem) = false) /\
      DriveID localItem' = id_of (nextId (drv w)) /\
      hasLink (drv w') nodeID (DriveID localItem') = true /\
      stdoutOf evs =
        ["M /" +:+ relNameOf w localItem +:+ " (" +:+
         humanize_Bytes (uint64 (Size (Info localItem))) +:+ ")" +:+ nl].
Proof.
  intros Hdir Hfind o relocation upload. subst o relocation upload.
  unfold processItem, bind, getFlags, relNameOf, uploadCall.
  rewrite Hfind, Hdir.
  destruct (filepath.Rel (localDirToPush (flags w)) (FullPath localItem))
    as [relName |] eqn:Hrel.
  2: { rewrite fatal_spec. cbn. eexists. split; [reflexivity |].
       split; [cbn; apply prefix_nil | discriminate]. }
  unfold assign, printf, wrapErr, ret. rewrite emit_spec.
  rewrite relocateFile_spec. wsimpl. rewrite ?step_step, ?dbg_step.
  destruct (verbose (flags w)) eqn:V.
  all: destruct (Z.ltb _ _) eqn:E1;
    [fin_prefix V |].
  all: destruct (faulty (drv w)) eqn:F1; [fin_prefix V |].
  all: destruct (lookupFile (drv w) (Id remoteItem)) as [f0 |] eqn:L1;
    [| fin_prefix V].
  all: match goal with
       | |- context [faulty ?d] => remember d as d1 eqn:Hd1
       end.
  all: destruct (faulty d1) eqn:F2; [fin_prefix V |].
  all: destruct (hasLink d1 nodeID (Id remoteItem)) eqn:H2;
    [| fin_prefix V].
  all: rewrite createFile_spec; wsimpl; rewrite ?step_step, ?dbg_step.
  all: match goal with
       | |- context [if Z.ltb ?a ?b then _ else _] =>
           destruct (Z.ltb a b) eqn:E2
       end; [fin_prefix V |].
  all: destruct (existsb _ (unreadable w)) eqn:O2; [fin_prefix V |].
  all: match goal with
       | |- context [if faulty ?d then _ else _] =>
           destruct (faulty d) eqn:F3
       end; [fin_prefix V |].
  all: rewrite !emit_spec; wsimpl; rewrite ?step_step.
  all: assert (Hf1 : files d1 = files (drv w))
    by (rewrite Hd1; destruct (hasLink (drv w) _ _); reflexivity).
  all: assert (Hn1 : nextId d1 = nextId (drv w))
    by (rewrite Hd1; destruct (hasLink (drv w) _ _); reflexivity).
  all: assert (Hq1 : hasLink d1 (oldFilesDir (flags w)) (Id remoteItem)
                     = true)
    by (rewrite Hd1;
        destruct (hasLink (drv w) _ _) eqn:Hq;
        [exact Hq | apply hasLink_addLink_same]).
  all: clear Hd1.
  all: cbn [final_world]; unfold dbg; wsimpl; rewrite V.
  all: eexists; (split; [reflexivity |]); cbn [remoteCalls flat_map app].
  all: split; [exists []; reflexivity |].
  all: intros localItem' w' Heq; inversion Heq; subst localItem' w';
    clear Heq; wsimpl.
  all: split; [reflexivity |]. all: split; [reflexivity |].
  all: split; [intros f Hin; apply in_or_app; left; rewrite Hf1; exact Hin |].
  all: split;
    [unfold lookupFile in *; wsimpl; rewrite Hf1;
     erewrite find_app_Some by exact L1; discriminate |].
  all: split;
    [intros Hne; apply hasLink_addFile_mono;
     rewrite hasLink_tick, hasLink_removeLink_other by (left; exact Hne);
     exact Hq1 |].
  all: split;
    [intros Hne;
     rewrite hasLink_addFile_old by (cbn [Id]; rewrite Hn1; congruence);
     rewrite hasLink_tick; apply hasLink_removeLink_same |].
  all: split; [cbn; rewrite Hn1; reflexivity |].
  all: split;
    [apply (hasLink_addFile_new _
              (mkFile (id_of (nextId d1)) _ _)) |].
  all: reflexivity.
Qed.


(** X19. Let [localItem] be a file child whose name matches the remote
    entry [remoteItem].  Whatever the outcome of the loop body, its calls
    to the service are an initial part of: [Parents.Insert] of the matched
    file into the folder for old files, [Parents.Delete] of it from the
    current folder, [Files.Insert] of the local file under the current
    folder.  So the upload never comes before the relocation, and no call
    deletes the matched file.  The body goes through when nothing stands
    in its way: the entry has a relative path, the ceiling leaves room for
    two operations, the service answers the next three calls, the matched
    file is in the listing of the current folder, and the local file can
    be opened.  When it goes through, the three calls have been made and
    went through, the matched file is still registered, it hangs below the
    folder for old files (when that is not the current folder) and no
    longer below the current folder, the new upload hangs below the current
    folder and is the node's [DriveID], and the line printed has the [M]
    marker. *)
Theorem matched_file_relocated_then_uploaded (remoteItems : list File)
  (nodeID : string) (localItem : Node) (recur : string -> M Node)
  (w : World) (remoteItem : File) :
  IsDir (Info localItem) = false ->
  findRemote remoteItems (Name (Info localItem)) = Some remoteItem ->
  let o := processItem remoteItems nodeID localItem recur w in
  let relocation :=
    [ParentsInsert (Id remoteItem) (oldFilesDir (flags w));
     ParentsDelete (Id remoteItem) nodeID] in
  let upload := uploadCall w localItem nodeID in
  let evs := delta w (final_world o) in
  remoteCalls evs `prefix_of` relocation ++ [upload] /\
  (filepath.Rel (localDirToPush (flags w)) (FullPath localItem) <> None ->
   (int_min <= opsExecuted w)%Z ->
   (opsExecuted w + 2 <= maxOps (flags w))%Z ->
   (maxOps (flags w) <= int_max)%Z ->
   (forall j, (j < 3)%nat ->
              faulty (withCalls (drv w) (calls (drv w) + j)) = false) ->
   In remoteItem (childrenOf (drv w) nodeID) ->
   existsb (String.eqb (FullPath localItem)) (unreadable w) = false ->
   isOk o = true) /\
  forall localItem' w',
    o = Ok localItem' w' ->
    remoteCalls evs = relocation ++ [upload] /\
    failedCalls evs = [] /\
    (forall f, In f (files (drv w)) -> In f (files (drv w'))) /\
    lookupFile (drv w') (Id remoteItem) <> None /\
    (oldFilesDir (flags w) <> nodeID ->
     hasLink (drv w') (oldFilesDir (flags w)) (Id remoteItem) = true) /\
    (Id remoteItem <> id_of (nextId (drv w)) ->
     hasLink (drv w') nodeID (Id remoteItem) = false) /\
    DriveID localItem' = id_of (nextId (drv w)) /\
    hasLink (drv w') nodeID (DriveID localItem') = true /\
    stdoutOf evs =
      ["M /" +:+ relNameOf w localItem +:+ " (" +:+
       humanize_Bytes (uint64 (Size (Info localItem))) +:+ ")" +:+ nl].
Proof.
  intros Hdir Hfind o relocation upload evs.
  destruct (matched_file_calls remoteItems nodeID localItem recur w
              remoteItem Hdir Hfind) as (evs0 & Ht & Hpre & Hok).
  assert (Hevs : evs = evs0).
  { subst evs o. unfold delta. rewrite Ht. apply drop_app_length. }
  rewrite Hevs. split; [exact Hpre |]. split.
  - intros Hrel Hmin Hroom Hmax Hserv Hin Hopen.
    apply (matched_file_goes_through remoteItems nodeID localItem recur w
             remoteItem); assumption.
  - exact Hok.
Qed.

Lemma matched_file_relocated_then_uploaded_witness :
  exists localItem' w',
    processItem [mkFile "#1" "x.txt" ""] "#0" xFile (fun _ => ret xFile)
                (mkWorld (flagsWith 20) 0 driveWithFile [] [] [])
    = Ok localItem' w' /\
    remoteCalls (trace w') =
      [ParentsInsert "#1" "old"; ParentsDelete "#1" "#0";
       FilesInsert "x.txt" "" "#0" (Some "/home/u/a/x.txt")] /\
    hasLink (drv w') "old" "#1" = true /\
    hasLink (drv w') "#0" "#1" = false /\
    hasLink (drv w') "#0" (DriveID localItem') = true.
Proof.
  destruct (matched_file_relocated_then_uploaded
              [mkFile "#1" "x.txt" ""] "#0" xFile (fun _ => ret xFile)
              (mkWorld (flagsWith 20) 0 driveWithFile [] [] [])
              (mkFile "#1" "x.txt" "") eq_refl eq_refl)
    as (_ & Hgo & Hok).
  assert (Hrun : isOk (processItem [mkFile "#1" "x.txt" ""] "#0" xFile
                         (fun _ => ret xFile)
                         (mkWorld (flagsWith 20) 0 driveWithFile [] [] []))
                 = true).
  { apply Hgo.
    - discriminate.
    - vm_compute. discriminate.
    - vm_compute. discriminate.
    - vm_compute. discriminate.
    - intros j Hj. reflexivity.
    - vm_compute. left. reflexivity.
    - reflexivity. }
  destruct (processItem [mkFile "#1" "x.txt" ""] "#0" xFile
              (fun _ => ret xFile)
              (mkWorld (flagsWith 20) 0 driveWithFile [] [] []))
    as [localItem' w' | | |] eqn:Heq; try discriminate Hrun.
  destruct (Hok localItem' w' eq_refl)
    as (Hcalls & _ & _ & _ & Hold & Hgone & Hid & Hnew & _).
  exists localItem', w'. split; [reflexivity |].
  split; [exact Hcalls |].
  split; [apply Hold; discriminate |].
  split; [apply Hgone; discriminate |]. exact Hnew.
Defined.
